(** * stock-app backend: a shallow embedding of [backend/app.py]

    The analytics core of the backend (ticker resolution, the bounded TTL
    caches, OHLC resampling, the fundamentals merge, the risk composite, the
    moving-average votes, seasonality curves and supply/demand zones) is
    translated function by function, keeping the names of the Python source.

    Numbers.  Where order, counts and structure are at stake, Python floats
    are modelled by exact rationals ([Q]); where the source tests for NaN or
    infinities the value type [fval] carries them explicitly.  Where the last
    bit of a double decides a rounded output (the risk index, the merged zone
    price, the compounded return) the block is modelled again on binary64
    ([Risk64], [Zones64], [Seasonality64]).  Python's [round] is
    round-half-to-even. *)

From Stdlib Require Import ZArith QArith Qround Qabs Qminmax List String Ascii Bool Lia Lqa.
From Stdlib Require Floats.
From stdpp Require Import gmap strings.
Import ListNotations.

Local Open Scope Q_scope.

(** ** Numeric layer *)

Module Num.

(** [round(x)] with one argument: nearest integer, ties to the even one. *)
Definition py_round (x : Q) : Z :=
  let f := Qfloor x in
  match Qcompare (x - inject_Z f) (1 # 2) with
  | Lt => f
  | Gt => (f + 1)%Z
  | Eq => if Z.even f then f else (f + 1)%Z
  end.

(** [round(x, 2)]: nearest multiple of 1/100, ties to even (in lowest
    terms, so that equal results are identical). *)
Definition py_round2 (x : Q) : Q := Qred (inject_Z (py_round (x * 100)) / 100).

(** Boolean comparisons on rationals. *)
Definition Qltb (a b : Q) : bool :=
  match Qcompare a b with Lt => true | _ => false end.
Definition Qleb (a b : Q) : bool :=
  match Qcompare a b with Gt => false | _ => true end.

(** A float as pandas and numpy see it. *)
Inductive fval : Type :=
| Finite (q : Q)
| PosInf
| NegInf
| NaN.

Definition notna (v : fval) : bool :=
  match v with NaN => false | _ => true end.

Definition isfinite (v : fval) : bool :=
  match v with Finite _ => true | _ => false end.

(** [a < b] on floats; any comparison with NaN is false. *)
Definition fval_ltb (a b : fval) : bool :=
  match a, b with
  | NaN, _ | _, NaN => false
  | NegInf, NegInf => false
  | NegInf, _ => true
  | _, NegInf => false
  | PosInf, _ => false
  | _, PosInf => true
  | Finite x, Finite y => Qltb x y
  end.

End Num.
Import Num.

(** ** Risk composite ([get_stock], the "Risk index (composite)" block)

    The block over the rationals: the composite as a formula of real
    arithmetic.  [Risk64] has the same block in doubles. *)

Module Risk.

Section WithLog.

(** [np.log10], a numpy primitive. *)
Variable log10 : Q -> Q.

(** The values the block reads: [performance] entries, [info["beta"]],
    the volume and market-cap figures and the last close. *)
Record inputs : Type := {
  volatility : option Q;        (* performance["volatility"] *)
  volatility30D : option Q;     (* performance["volatility30D"] *)
  maxDrawdown1Y : option Q;     (* performance["maxDrawdown1Y"] *)
  info_beta : option Q;         (* info["beta"] *)
  sharpeRatio : option Q;
  sortinoRatio : option Q;
  avg_volume : option Q;
  volume : option Q;
  market_cap : option Q;
  current_price : Q
}.

Definition _to_num (v : option Q) : option Q := v.

Definition _clamp01 (v : Q) : Q := Qmax 0 (Qmin 1 v).

(** Python's [a or b] on optional floats: [None] and [0.0] are falsy. *)
Definition py_or (a b : option Q) : option Q :=
  match a with
  | Some x => if Qeq_bool x 0 then b else a
  | None => b
  end.

Definition _log10 (v : Q) : option Q :=
  if negb (Qeq_bool v 0) && Qltb 0 v then Some (log10 v) else None.

Section Scores.
Variable r : inputs.

Definition vol1y := _to_num (volatility r).
Definition vol30 := _to_num (volatility30D r).
Definition drawdown := _to_num (maxDrawdown1Y r).
Definition beta := _to_num (info_beta r).
Definition sharpe := _to_num (sharpeRatio r).
Definition sortino := _to_num (sortinoRatio r).
Definition avg_volume_num := py_or (_to_num (avg_volume r)) (_to_num (volume r)).
Definition market_cap_num := _to_num (market_cap r).

Definition avg_dollar_volume : option Q :=
  match avg_volume_num with
  | Some a => Some (a * current_price r)
  | None => None
  end.

Definition vol_regime : option Q :=
  match vol30, vol1y with
  | Some a, Some b => if Qltb 0 b then Some (a / b) else None
  | _, _ => None
  end.

Definition vol_score := option_map (fun v => _clamp01 ((v - 15) / 25)) vol1y.
Definition vol30_score := option_map (fun v => _clamp01 ((v - 15) / 25)) vol30.
Definition dd_score := option_map (fun v => _clamp01 ((Qabs v - 10) / 25)) drawdown.
Definition beta_score := option_map (fun v => _clamp01 ((v - (9 # 10)) / (6 # 10))) beta.
Definition sharpe_score := option_map (fun v => _clamp01 (((12 # 10) - v) / (12 # 10))) sharpe.
Definition sortino_score := option_map (fun v => _clamp01 (((14 # 10) - v) / (14 # 10))) sortino.

Definition liquidity_score : option Q :=
  let liquidity_base :=
    match avg_dollar_volume with Some d => Some d | None => avg_volume_num end in
  match liquidity_base with
  | Some b =>
      match _log10 b with
      | Some lv =>
          let low := match avg_dollar_volume with Some _ => 63 # 10 | None => 55 # 10 end in
          let high := match avg_dollar_volume with Some _ => 73 # 10 | None => 65 # 10 end in
          Some (_clamp01 ((high - lv) / (high - low)))
      | None => None
      end
  | None => None
  end.

Definition size_score : option Q :=
  match market_cap_num with
  | Some m =>
      match _log10 m with
      | Some lv => Some (_clamp01 ((10 - lv) / (10 - (93 # 10))))
      | None => None
      end
  | None => None
  end.

Definition regime_score := option_map (fun v => _clamp01 ((v - 1) / (6 # 10))) vol_regime.

Definition parts_all : list (option Q * Q) :=
  [ (vol_score, 20 # 100);
    (vol30_score, 10 # 100);
    (dd_score, 20 # 100);
    (beta_score, 10 # 100);
    (sharpe_score, 10 # 100);
    (sortino_score, 10 # 100);
    (liquidity_score, 10 # 100);
    (size_score, 5 # 100);
    (regime_score, 5 # 100) ].

(** [[(v, w) for v, w in parts if v is not None]] *)
Fixpoint present (ps : list (option Q * Q)) : list (Q * Q) :=
  match ps with
  | [] => []
  | (Some v, w) :: tl => (v, w) :: present tl
  | (None, _) :: tl => present tl
  end.

Definition qsum (l : list Q) : Q := fold_left Qplus l 0.

Definition risk_index_of (ps : list (Q * Q)) : option Z :=
  match ps with
  | [] => None
  | _ =>
      let weight_sum := qsum (map snd ps) in
      Some (py_round ((qsum (map (fun p => fst p * snd p) ps) / weight_sum) * 100))
  end.

Definition risk_index : option Z := risk_index_of (present parts_all).

Definition risk_level : string :=
  match risk_index with
  | None => "N/D"
  | Some i =>
      if (67 <=? i)%Z then "Alto"
      else if (34 <=? i)%Z then "Medio"
      else "Basso"
  end.

End Scores.
End WithLog.

(** *** Sample requests *)

(** A sample request: volatility 27.5 and drawdown -22.5, nothing else. *)
Definition sample_vol_dd : inputs :=
  {| volatility := Some (55 # 2); volatility30D := None;
     maxDrawdown1Y := Some (- (45 # 2)); info_beta := None;
     sharpeRatio := None; sortinoRatio := None;
     avg_volume := None; volume := None; market_cap := None;
     current_price := 100 |}.

Definition sample_empty : inputs :=
  {| volatility := None; volatility30D := None;
     maxDrawdown1Y := None; info_beta := None;
     sharpeRatio := None; sortinoRatio := None;
     avg_volume := None; volume := None; market_cap := None;
     current_price := 100 |}.

End Risk.

(** ** Cache layer ([_cache_get], [_cache_set]) *)

Module Cache.

Section WithPayload.

Variable payload : Type.

(** A cache entry is the tuple [(payload, ts)]; [datetime] and [timedelta]
    values are counted in microseconds. *)
Definition entry : Type := (payload * Z)%type.

(** A Python [dict] with string keys: the pairs in insertion order. *)
Definition cache_dict : Type := list (string * entry).

(** [d.get(key)] *)
Fixpoint dict_get (d : cache_dict) (key : string) : option entry :=
  match d with
  | [] => None
  | (k, e) :: tl => if String.eqb k key then Some e else dict_get tl key
  end.

(** [d[key] = e]: an existing key keeps its position, a new one is appended. *)
Fixpoint dict_set (d : cache_dict) (key : string) (e : entry) : cache_dict :=
  match d with
  | [] => [(key, e)]
  | (k, e0) :: tl =>
      if String.eqb k key then (k, e) :: tl else (k, e0) :: dict_set tl key e
  end.

(** [del d[key]] *)
Definition dict_del (d : cache_dict) (key : string) : cache_dict :=
  List.filter (fun ke => negb (String.eqb (fst ke) key)) d.

(** [min(d, key=lambda k: d[k][1])] continued from a current best: a later
    key replaces it only when its timestamp is strictly smaller. *)
Fixpoint min_from (best : string) (best_ts : Z) (d : cache_dict) : string :=
  match d with
  | [] => best
  | (k, (_, ts)) :: tl =>
      if (ts <? best_ts)%Z then min_from k ts tl else min_from best best_ts tl
  end.

(** [min] raises [ValueError] on an empty dict: [None]. *)
Definition oldest_key (d : cache_dict) : option string :=
  match d with
  | [] => None
  | (k, (_, ts)) :: tl => Some (min_from k ts tl)
  end.

(** [_cache_get(cache_dict, key, ttl)] at time [now]: the returned payload
    and the cache afterwards. *)
Definition _cache_get (d : cache_dict) (key : string) (ttl now : Z)
  : option payload * cache_dict :=
  match dict_get d key with
  | None => (None, d)
  | Some (p, ts) =>
      if (now - ts <? ttl)%Z then (Some p, d) else (None, dict_del d key)
  end.

(** [_cache_set(cache_dict, key, payload, max_size)] at time [now]. *)
Definition _cache_set (d : cache_dict) (key : string) (p : payload) (now : Z)
    (max_size : Z) : cache_dict :=
  let d1 := dict_set d key (p, now) in
  if (max_size <? Z.of_nat (length d1))%Z then
    match oldest_key d1 with
    | Some k => dict_del d1 k
    | None => d1
    end
  else d1.

(** A sequence of [_cache_set] calls, each with its key, payload and clock. *)
Definition set_op : Type := (string * payload * Z)%type.

Definition op_key (o : set_op) : string := fst (fst o).

Definition apply_set (max_size : Z) (d : cache_dict) (o : set_op) : cache_dict :=
  _cache_set d (fst (fst o)) (snd (fst o)) (snd o) max_size.

Definition run_sets (max_size : Z) (d : cache_dict) (ops : list set_op) : cache_dict :=
  fold_left (apply_set max_size) ops d.

Definition keys (d : cache_dict) : list string := map fst d.

(** The dict invariant: every key occurs once. *)
Definition wf (d : cache_dict) : Prop := List.NoDup (keys d).

End WithPayload.

Arguments dict_get {payload}.
Arguments dict_set {payload}.
Arguments dict_del {payload}.
Arguments min_from {payload}.
Arguments oldest_key {payload}.
Arguments _cache_get {payload}.
Arguments _cache_set {payload}.
Arguments op_key {payload}.
Arguments apply_set {payload}.
Arguments run_sets {payload}.
Arguments keys {payload}.
Arguments wf {payload}.

(** *** A sample run *)

Definition three_sets : list (set_op nat) :=
  [ ("AAPL:1d"%string, 1%nat, 100%Z);
    ("MSFT:1d"%string, 2%nat, 50%Z);
    ("ENI.MI:1w"%string, 3%nat, 200%Z) ].

End Cache.

(** ** Ticker resolver ([normalize_ticker], [ticker_candidates]) *)

Module Ticker.

(** A Python [str] restricted to ASCII: its characters in order. *)
Definition str : Type := list ascii.

Definition s (x : string) : str := list_ascii_of_string x.

Definition code (c : ascii) : nat := nat_of_ascii c.

(** [c.isspace()]: tab, LF, VT, FF, CR, the separators 0x1c-0x1f, space. *)
Definition is_space (c : ascii) : bool :=
  ((9 <=? code c) && (code c <=? 13)) || ((28 <=? code c) && (code c <=? 32)).

(** [\d] on ASCII text. *)
Definition is_digit (c : ascii) : bool := (48 <=? code c) && (code c <=? 57).

(** [[A-Z]] *)
Definition is_AZ (c : ascii) : bool := (65 <=? code c) && (code c <=? 90).

Definition is_az (c : ascii) : bool := (97 <=? code c) && (code c <=? 122).

Definition upper_char (c : ascii) : ascii :=
  if is_az c then ascii_of_nat (code c - 32) else c.

(** [t.upper()] *)
Definition upper (t : str) : str := map upper_char t.

Fixpoint drop_while (f : ascii -> bool) (t : str) : str :=
  match t with
  | [] => []
  | c :: tl => if f c then drop_while f tl else t
  end.

Fixpoint take_while (f : ascii -> bool) (t : str) : str :=
  match t with
  | [] => []
  | c :: tl => if f c then c :: take_while f tl else []
  end.

Definition lstrip (t : str) : str := drop_while is_space t.
Definition rstrip (t : str) : str := rev (drop_while is_space (rev t)).

(** [t.strip()] *)
Definition strip (t : str) : str := rstrip (lstrip t).

(** [t.replace(" ", "")] *)
Definition remove_spaces (t : str) : str :=
  List.filter (fun c => negb (Ascii.eqb c " ")) t.

(** [$]: the end of the string, or just before a final newline. *)
Definition at_end (t : str) : bool :=
  match t with
  | [] => true
  | [c] => Ascii.eqb c "010"
  | _ => false
  end.

(** [re.match(r"^\d+[A-Z]{1,6}$", t)].  Digits and capitals are disjoint
    classes, so the greedy runs are the only way to match. *)
Definition match_digits_letters (t : str) : bool :=
  let ds := take_while is_digit t in
  let r1 := drop_while is_digit t in
  let ls := take_while is_AZ r1 in
  let r2 := drop_while is_AZ r1 in
  (1 <=? length ds) && (1 <=? length ls) && (length ls <=? 6) && at_end r2.

(** [re.match(r"^\d+[A-Z]{1,6}(\.[A-Z]{1,3})?$", t)] *)
Definition match_digits_letters_suffix (t : str) : bool :=
  let ds := take_while is_digit t in
  let r1 := drop_while is_digit t in
  let ls := take_while is_AZ r1 in
  let r2 := drop_while is_AZ r1 in
  (1 <=? length ds) && (1 <=? length ls) && (length ls <=? 6) &&
  (at_end r2 ||
   match r2 with
   | c :: r3 =>
       Ascii.eqb c "." &&
       (let sx := take_while is_AZ r3 in
        (1 <=? length sx) && (length sx <=? 3) && at_end (drop_while is_AZ r3))
   | [] => false
   end).

Fixpoint str_eqb (a b : str) : bool :=
  match a, b with
  | [], [] => true
  | x :: a', y :: b' => Ascii.eqb x y && str_eqb a' b'
  | _, _ => false
  end.

(** [t in candidates] *)
Definition mem (t : str) (l : list str) : bool := existsb (str_eqb t) l.

Definition nonempty (t : str) : bool :=
  match t with [] => false | _ => true end.

Definition normalize_ticker (value : str) : str :=
  if negb (nonempty value) then value
  else
    let t := remove_spaces (upper (strip value)) in
    if match_digits_letters_suffix t then drop_while is_digit t else t.

(** [candidates.append(t)] when [t] is non-empty and not yet listed. *)
Definition add_candidate (candidates : list str) (t : str) : list str :=
  if nonempty t && negb (mem t candidates) then candidates ++ [t] else candidates.

Definition ticker_candidates (raw : str) : list str :=
  let raw_up := remove_spaces (upper (strip raw)) in
  let norm := normalize_ticker raw_up in
  let candidates :=
    if nonempty raw_up && negb (existsb (Ascii.eqb ".") raw_up)
       && match_digits_letters raw_up
    then [raw_up ++ s ".MI"] else [] in
  fold_left add_candidate [raw_up; norm] candidates.

(** *** Vocabulary of the resolver properties *)

Definition is_letter (c : ascii) : bool := is_AZ c || is_az c.

Definition all (f : ascii -> bool) (t : str) : Prop := Forall (fun c => f c = true) t.

Definition none (f : ascii -> bool) (t : str) : Prop := Forall (fun c => f c = false) t.

(** A candidate carries an exchange suffix when it reads [base.SFX]. *)
Definition has_suffix (c : str) : Prop :=
  exists base sfx, c = base ++ "."%char :: sfx /\ sfx <> [].

(** The hypothesis of the resolver property: digits, then letters, and no
    dot. *)
Definition digits_then_letters (raw : str) : Prop :=
  exists ds ls, raw = ds ++ ls /\ ds <> [] /\ all is_digit ds /\
                ls <> [] /\ all is_letter ls.

End Ticker.

(** ** Supply/demand zones ([determine_market_state], [merge_close_zones]) *)

Module Zones.

(** A zone dict [{"price": .., "min": .., "max": ..}]. *)
Record zone : Type := { price : Q; zmin : Q; zmax : Q }.

(** The dict [{"support": .., "resistance": ..}]. *)
Record zones : Type := { support : list zone; resistance : list zone }.

(** [max(l, default=None)]: the first of the largest elements. *)
Definition py_max (l : list Q) : option Q :=
  match l with
  | [] => None
  | x :: tl => Some (fold_left (fun best y => if Qltb best y then y else best) tl x)
  end.

(** [min(l, default=None)]: the first of the smallest elements. *)
Definition py_min (l : list Q) : option Q :=
  match l with
  | [] => None
  | x :: tl => Some (fold_left (fun best y => if Qltb y best then y else best) tl x)
  end.

Inductive state : Type := IN_DEMAND | IN_SUPPLY | IN_NONE.

(** The returned dict, or the [ZeroDivisionError] of a float division. *)
Inductive outcome : Type :=
| Result (st : state) (strength : Q)
| ZeroDivisionError.

Definition determine_market_state (p : Q) (supports resistances : list zone)
    (proximity : Q) : outcome :=
  let nearest_support :=
    py_max (map price (List.filter (fun z => Qleb (price z) p) supports)) in
  let nearest_resistance :=
    py_min (map price (List.filter (fun z => Qleb p (price z)) resistances)) in
  match nearest_support, nearest_resistance with
  | Some ns, Some nr =>
      if Qeq_bool ns 0 || Qeq_bool nr 0 then ZeroDivisionError
      else
        let dist_support := ((p - ns) / ns) * 100 in
        let dist_resistance := ((nr - p) / nr) * 100 in
        let strength := py_round2 (100 - Qmin dist_support dist_resistance) in
        if Qltb dist_support dist_resistance && Qltb dist_support proximity
        then Result IN_DEMAND strength
        else if Qltb dist_resistance dist_support && Qltb dist_resistance proximity
        then Result IN_SUPPLY strength
        else Result IN_NONE strength
  | _, _ => Result IN_NONE 0
  end.

(** [sorted(items, key=lambda x: x["price"])]: stable, by insertion. *)
Fixpoint insert_by_price (x : zone) (l : list zone) : list zone :=
  match l with
  | [] => [x]
  | y :: tl => if Qltb (price y) (price x) then y :: insert_by_price x tl else x :: l
  end.

Definition sorted_by_price (items : list zone) : list zone :=
  fold_right insert_by_price [] items.

(** The loop of [merge_list]: [merged] is kept as its front and its last
    element.  Over the rationals; [Zones64.merge_loop] has it in doubles. *)
Fixpoint merge_loop (min_gap_pct : Q) (front : list zone) (last : zone)
    (items : list zone) : list zone :=
  match items with
  | [] => front ++ [last]
  | item :: tl =>
      let gap := Qabs (price item - price last) in
      let min_gap := price last * (min_gap_pct / 100) in
      if Qleb gap min_gap then
        let new_price := py_round2 ((price last + price item) / 2) in
        merge_loop min_gap_pct front
          {| price := new_price;
             zmin := py_round2 (Qmin (zmin last) (zmin item));
             zmax := py_round2 (Qmax (zmax last) (zmax item)) |} tl
      else merge_loop min_gap_pct (front ++ [last]) item tl
  end.

Definition merge_list (min_gap_pct : Q) (items : list zone) : list zone :=
  match sorted_by_price items with
  | [] => items
  | first :: rest => merge_loop min_gap_pct [] first rest
  end.

Definition merge_close_zones (zs : zones) (min_gap_pct : Q) : zones :=
  if Qleb min_gap_pct 0 then zs
  else {| support := merge_list min_gap_pct (support zs);
          resistance := merge_list min_gap_pct (resistance zs) |}.

Definition filter_zones_by_distance (zs : zones) (p min_pct : Q) : zones :=
  if Qleb p 0 || Qleb min_pct 0 then zs
  else
    let min_abs := p * (min_pct / 100) in
    let supports := List.filter (fun z => Qleb min_abs (p - price z)) (support zs) in
    let resistances := List.filter (fun z => Qleb min_abs (price z - p)) (resistance zs) in
    {| support := match supports with [] => support zs | _ => supports end;
       resistance := match resistances with [] => resistance zs | _ => resistances end |}.

(** *** Vocabulary of the zone properties *)

Definition z (p lo hi : Q) : zone := {| price := p; zmin := lo; zmax := hi |}.

End Zones.

(** ** Fundamentals merge ([_to_float], [_to_text], [_merge_missing_info]) *)

Module Fundamentals.
Import Ticker.

#[local] Set Warnings "-register-all".

(** The Python values a provider payload can hold. *)
Inductive pyval : Type :=
| PNone
| PBool (b : bool)
| PInt (n : Z)
| PFloat (f : fval)
| PStr (t : str)
| PDict (items : list (string * pyval))
| POther (tag : nat).

Definition is_none (v : pyval) : bool :=
  match v with PNone => true | _ => false end.

(** [d.get(k) is not None] on an optional lookup result. *)
Definition not_none (o : option pyval) : bool :=
  match o with
  | Some v => negb (is_none v)
  | None => false
  end.

(** Truthiness, as [if value.get("fmt")] tests it. *)
Definition truthy (v : pyval) : bool :=
  match v with
  | PNone => false
  | PBool b => b
  | PInt n => negb (n =? 0)%Z
  | PFloat (Finite q) => negb (Qeq_bool q 0)
  | PFloat _ => true
  | PStr t => nonempty t
  | PDict items => match items with [] => false | _ => true end
  | POther _ => true
  end.

Fixpoint items_get (items : list (string * pyval)) (k : string) : option pyval :=
  match items with
  | [] => None
  | (k', v) :: tl => if String.eqb k' k then Some v else items_get tl k
  end.

Definition ends_with (c : ascii) (t : str) : bool :=
  match rev t with
  | x :: _ => Ascii.eqb x c
  | [] => false
  end.

Definition last_char (t : str) : ascii := List.last t " "%char.

Definition null_words : list str :=
  [s "N/A"; s "ND"; s "N/D"; s "-"; s "--"; s "—"].

Section WithBuiltins.

(** [float(s)] on a string: the parsed value, or [None] for [ValueError]. *)
Variable py_float : str -> option fval.

(** [str(value)] on a value that is not a string. *)
Variable py_str : pyval -> str.

(** The [isinstance(value, str)] branch of [_to_float]; each recursive call
    is on a string one character shorter, [fuel] bounds their number. *)
Fixpoint str_to_float (fuel : nat) (t : str) : option Q :=
  let s0 := List.filter (fun c => negb (Ascii.eqb c ",")) (strip t) in
  if negb (nonempty s0) || mem (upper s0) null_words then None
  else if ends_with "%" s0 then
    match fuel with
    | O => None
    | S fuel' => option_map (fun b => b / 100) (str_to_float fuel' (removelast s0))
    end
  else
    let suffix := upper_char (last_char s0) in
    let mult :=
      if Ascii.eqb suffix "K" then Some 1000
      else if Ascii.eqb suffix "M" then Some 1000000
      else if Ascii.eqb suffix "B" then Some 1000000000
      else if Ascii.eqb suffix "T" then Some 1000000000000
      else None in
    let s1 := match mult with Some _ => removelast s0 | None => s0 end in
    match py_float s1 with
    | Some (Finite q) => Some (q * match mult with Some m => m | None => 1 end)
    | _ => None
    end.

Fixpoint _to_float (value : pyval) : option Q :=
  match value with
  | PNone => None
  | PBool _ => None
  | PInt n => Some (inject_Z n)
  | PFloat (Finite q) => Some q
  | PFloat _ => None
  | PDict items =>
      let get :=
        fix get (l : list (string * pyval)) (k : string) : option (option Q) :=
          match l with
          | [] => None
          | (k', v) :: tl => if String.eqb k' k then Some (_to_float v) else get tl k
          end in
      match get items "raw"%string with
      | Some r => r
      | None =>
          match get items "fmt"%string with
          | Some r => r
          | None => None
          end
      end
  | PStr t => str_to_float (length t) t
  | POther _ => None
  end.

Definition nonempty_or_none (t : str) : option str :=
  if nonempty t then Some t else None.

Definition text_of (v : pyval) : str :=
  match v with
  | PStr t => t
  | _ => py_str v
  end.

Definition _to_text (value : pyval) : option str :=
  match value with
  | PNone => None
  | PDict items =>
      match items_get items "fmt" with
      | Some f =>
          if truthy f then Some (strip (text_of f))
          else
            match items_get items "raw" with
            | Some r => if is_none r then None else Some (strip (text_of r))
            | None => None
            end
      | None =>
          match items_get items "raw" with
          | Some r => if is_none r then None else Some (strip (text_of r))
          | None => None
          end
      end
  | PStr t => nonempty_or_none (strip t)
  | _ => nonempty_or_none (strip (py_str value))
  end.

Definition text_keys : list string := ["shortName"%string; "sector"%string].

(** One iteration of the loop of [_merge_missing_info]. *)
Definition merge_item (target : gmap string pyval) (kv : string * pyval)
  : gmap string pyval :=
  let k := fst kv in
  let v := snd kv in
  if not_none (target !! k) || is_none v then target
  else if existsb (String.eqb k) text_keys then
    match _to_text v with
    | Some txt => <[k := PStr txt]> target
    | None => target
    end
  else
    match _to_float v with
    | Some num => <[k := PFloat (Finite num)]> target
    | None => target
    end.

(** [_merge_missing_info(target, source)]: the accumulator afterwards. *)
Definition _merge_missing_info (target : gmap string pyval) (source : pyval)
  : gmap string pyval :=
  match source with
  | PDict items => fold_left merge_item items target
  | _ => target
  end.

(** What one iteration may write at a key [k]: the value [w]. *)
Definition fills (target : gmap string pyval) (kv : string * pyval) (k : string)
    (w : pyval) : Prop :=
  fst kv = k /\ not_none (target !! k) = false /\ is_none (snd kv) = false /\
  ((existsb (String.eqb k) text_keys = true /\
      exists txt, _to_text (snd kv) = Some txt /\ w = PStr txt)
   \/ (existsb (String.eqb k) text_keys = false /\
      exists num, _to_float (snd kv) = Some num /\ w = PFloat (Finite num))).

End WithBuiltins.

(** *** A sample merge *)

(** A run: beta is already set, market cap is missing, the name is [None]. *)
Definition sample_target : gmap string pyval :=
  <["beta"%string := PFloat (Finite (11 # 10))]>
    (<["shortName"%string := PNone]> ∅).

Definition sample_source : pyval :=
  PDict [ ("beta"%string, PFloat (Finite 2));
          ("marketCap"%string, PInt 5000);
          ("shortName"%string, PStr (s " Eni "));
          ("sector"%string, PNone);
          ("trailingPE"%string, PFloat NaN) ].

End Fundamentals.

(** ** Seasonality ([get_seasonality], the per-year curves) *)

Module Seasonality.

(** A row of the monthly frame [df]: the columns the loop reads. *)
Record row : Type := { Year : Z; Month : Z; MonthlyReturnPct : fval }.

(** [Series.clip(lower, upper)]: missing values stay missing, a NaN bound
    does not bind. *)
Definition clip (lower upper : fval) (v : fval) : fval :=
  match v with
  | NaN => NaN
  | _ =>
      let v1 := if fval_ltb v lower then lower else v in
      if fval_ltb upper v1 then upper else v1
  end.

Definition with_return (r : row) (v : fval) : row :=
  {| Year := Year r; Month := Month r; MonthlyReturnPct := v |}.

(** Sorted insertion without repetition: the group keys of [groupby]. *)
Fixpoint insert_year (y : Z) (l : list Z) : list Z :=
  match l with
  | [] => [y]
  | x :: tl =>
      if (y <? x)%Z then y :: l
      else if (y =? x)%Z then l
      else x :: insert_year y tl
  end.

Definition year_keys (df : list row) : list Z :=
  fold_right insert_year [] (map Year df).

Definition group_of (df : list row) (year : Z) : list row :=
  List.filter (fun r => (Year r =? year)%Z) df.

(** [int(group["MonthlyReturnPct"].notna().sum())] *)
Definition valid_months (group : list row) : nat :=
  length (List.filter notna (map MonthlyReturnPct group)).

(** The first inner loop: [monthly_curve[month - 1] = round(float(r), 2)]
    for every finite return (pandas months run from 1 to 12). *)
Definition monthly_curve_of (group : list row) : list (option Q) :=
  fold_left
    (fun curve r =>
       match MonthlyReturnPct r with
       | Finite q => <[Z.to_nat (Month r - 1) := Some (py_round2 q)]> curve
       | _ => curve
       end)
    group (repeat None 12).

(** The second inner loop, from a running [cum_return].  Over the
    rationals; [Seasonality64.cumulative_from] has it in doubles. *)
Fixpoint cumulative_from (cum_return : Q) (monthly_curve : list (option Q))
  : list (option Q) :=
  match monthly_curve with
  | [] => []
  | None :: tl => None :: cumulative_from cum_return tl
  | Some v :: tl =>
      let cum_return' := (1 + cum_return) * (1 + v / 100) - 1 in
      Some (py_round2 (cum_return' * 100)) :: cumulative_from cum_return' tl
  end.

Definition cumulative_curve_of (monthly_curve : list (option Q)) : list (option Q) :=
  cumulative_from 0 monthly_curve.

Definition is_some {A : Type} (o : option A) : bool :=
  match o with Some _ => true | None => false end.

(** The two result dicts, keyed by year. *)
Definition curves : Type := (gmap Z (list (option Q)) * gmap Z (list (option Q)))%type.

Definition seasonalCurveByYear (c : curves) := fst c.
Definition cumulativeCurveByYear (c : curves) := snd c.

(** One pass of the loop over [df.groupby("Year")]. *)
Definition year_step (df : list row) (current_year : Z) (acc : curves) (year : Z)
  : curves :=
  let group := group_of df year in
  if negb (year =? current_year)%Z && (valid_months group <? 6)%nat then acc
  else
    let monthly_curve := monthly_curve_of group in
    let cumulative_curve := cumulative_curve_of monthly_curve in
    if existsb is_some monthly_curve
    then (<[year := monthly_curve]> (fst acc), <[year := cumulative_curve]> (snd acc))
    else acc.

Section WithQuantile.

(** [float(np.nanquantile(values, q))] *)
Variable nanquantile : list fval -> Q -> fval.

(** The [exclude_outliers] block: clip every return to the 5%-95% band. *)
Definition winsorize (df : list row) : list row :=
  let valid := List.filter notna (map MonthlyReturnPct df) in
  match valid with
  | [] => df
  | _ =>
      let q05 := nanquantile valid (5 # 100) in
      let q95 := nanquantile valid (95 # 100) in
      let lo := if fval_ltb q95 q05 then q95 else q05 in
      let hi := if fval_ltb q95 q05 then q05 else q95 in
      map (fun r => with_return r (clip lo hi (MonthlyReturnPct r))) df
  end.

(** From the frame with its [MonthlyReturnPct] column to the two dicts. *)
Definition seasonal_curves (df : list row) (exclude_outliers : bool)
    (current_year : Z) : curves :=
  let df' := if exclude_outliers then winsorize df else df in
  fold_left (year_step df' current_year) (year_keys df') (∅, ∅).

End WithQuantile.

(** *** Vocabulary and sample frames *)

(** Two months of the current year: +10% then -5%. *)
Definition two_months : list row :=
  [ {| Year := 2024; Month := 1; MonthlyReturnPct := Finite 10 |};
    {| Year := 2024; Month := 2; MonthlyReturnPct := Finite (-5) |} ].

(** Five months of a past year. *)
Definition five_months_2020 : list row :=
  map (fun m => {| Year := 2020; Month := m; MonthlyReturnPct := Finite 1 |})
      [1; 2; 3; 4; 5]%Z.

End Seasonality.

(** ** Normalizer and resampling ([_normalize_ohlc_df], [_resample_ohlc],
       [_fetch_interval_history]) *)

Module Resample.

(** *** Calendar: naive dates as day numbers (days since 1970-01-01) *)

Definition days_from_civil (y m d : Z) : Z :=
  let y' := if (m <=? 2)%Z then (y - 1)%Z else y in
  let era := (y' / 400)%Z in
  let yoe := (y' - era * 400)%Z in
  let mp := if (2 <? m)%Z then (m - 3)%Z else (m + 9)%Z in
  let doy := ((153 * mp + 2) / 5 + d - 1)%Z in
  let doe := (yoe * 365 + yoe / 4 - yoe / 100 + doy)%Z in
  (era * 146097 + doe - 719468)%Z.

Definition civil_from_days (n : Z) : Z * Z * Z :=
  let z := (n + 719468)%Z in
  let era := (z / 146097)%Z in
  let doe := (z - era * 146097)%Z in
  let yoe := ((doe - doe / 1460 + doe / 36524 - doe / 146096) / 365)%Z in
  let doy := (doe - (365 * yoe + yoe / 4 - yoe / 100))%Z in
  let mp := ((5 * doy + 2) / 153)%Z in
  let d := (doy - (153 * mp + 2) / 5 + 1)%Z in
  let m := if (mp <? 10)%Z then (mp + 3)%Z else (mp - 9)%Z in
  let y := (yoe + era * 400)%Z in
  (if (m <=? 2)%Z then (y + 1)%Z else y, m, d).

(** The resampling rules the backend uses. *)
Inductive rule : Type :=
| W_FRI   (* "W-FRI": weeks ending on Friday *)
| ME.     (* "ME": calendar months, labelled by month end *)

(** The ordinal of the bucket a day falls in: weeks run Saturday to Friday
    (day 1 was a Friday), months are counted from year 0. *)
Definition bucket_of (r : rule) (day : Z) : Z :=
  match r with
  | W_FRI => ((day + 5) / 7)%Z
  | ME => let '(y, m, _) := civil_from_days day in (y * 12 + (m - 1))%Z
  end.

(** The closing day of a bucket, which is its label. *)
Definition bucket_end (r : rule) (k : Z) : Z :=
  match r with
  | W_FRI => (7 * k + 1)%Z
  | ME => (days_from_civil ((k + 1) / 12) ((k + 1) mod 12 + 1) 1 - 1)%Z
  end.

(** *** Frames *)

(** A row of an OHLCV frame: index value and the five columns. *)
Record bar : Type := {
  ts : Z;
  Open : fval;
  High : fval;
  Low : fval;
  Close : fval;
  Volume : fval
}.

Definition frame : Type := list bar.

Definition empty (df : frame) : bool :=
  match df with [] => true | _ => false end.

(** ["first"]: the first non-missing value of the group, NaN without one. *)
Fixpoint agg_first (l : list fval) : fval :=
  match l with
  | [] => NaN
  | v :: tl => if notna v then v else agg_first tl
  end.

(** ["last"]: the last non-missing value. *)
Definition agg_last (l : list fval) : fval := agg_first (rev l).

Definition fmax2 (a b : fval) : fval := if fval_ltb a b then b else a.
Definition fmin2 (a b : fval) : fval := if fval_ltb b a then b else a.

(** ["max"] and ["min"] skip missing values. *)
Definition agg_max (l : list fval) : fval :=
  match List.filter notna l with
  | [] => NaN
  | v :: tl => fold_left fmax2 tl v
  end.

Definition agg_min (l : list fval) : fval :=
  match List.filter notna l with
  | [] => NaN
  | v :: tl => fold_left fmin2 tl v
  end.

Definition fadd (a b : fval) : fval :=
  match a, b with
  | NaN, _ | _, NaN => NaN
  | PosInf, NegInf | NegInf, PosInf => NaN
  | PosInf, _ | _, PosInf => PosInf
  | NegInf, _ | _, NegInf => NegInf
  | Finite x, Finite y => Finite (x + y)
  end.

(** ["sum"] skips missing values; the sum of nothing is 0. *)
Definition agg_sum (l : list fval) : fval :=
  fold_left fadd (List.filter notna l) (Finite 0).

(** The rows of [df] that fall in bucket [k], in frame order. *)
Definition bucket_rows (r : rule) (df : frame) (k : Z) : frame :=
  List.filter (fun b => (bucket_of r (ts b) =? k)%Z) df.

(** [agg] on one bucket. *)
Definition agg_row (r : rule) (df : frame) (k : Z) : bar :=
  let g := bucket_rows r df k in
  {| ts := bucket_end r k;
     Open := agg_first (map Open g);
     High := agg_max (map High g);
     Low := agg_min (map Low g);
     Close := agg_last (map Close g);
     Volume := agg_sum (map Volume g) |}.

(** The integers from [lo] to [hi]. *)
Definition zrange (lo hi : Z) : list Z :=
  map (fun i => (lo + Z.of_nat i)%Z) (seq 0 (Z.to_nat (hi - lo + 1))).

(** [df.dropna(subset=["Close"])] *)
Definition dropna_close (df : frame) : frame :=
  List.filter (fun b => notna (Close b)) df.

(** [_resample_ohlc(df, rule)]: one row per bucket from the first to the
    last bucket of the index, then the rows without a Close are dropped. *)
Definition _resample_ohlc (df : frame) (r : rule) : frame :=
  match map (fun b => bucket_of r (ts b)) df with
  | [] => []
  | k0 :: ks =>
      let lo := fold_left Z.min ks k0 in
      let hi := fold_left Z.max ks k0 in
      dropna_close (map (agg_row r df) (zrange lo hi))
  end.

(** [sort_index()], by insertion. *)
Fixpoint insert_bar (x : bar) (l : frame) : frame :=
  match l with
  | [] => [x]
  | y :: tl => if (ts y <? ts x)%Z then y :: insert_bar x tl else x :: l
  end.

(** [_normalize_ohlc_df(df)]: [None] stands for a missing or malformed
    frame; column flattening and time-zone stripping do not change rows. *)
Definition _normalize_ohlc_df (df : option frame) : frame :=
  match df with
  | None => []
  | Some rows => fold_right insert_bar [] rows
  end.

(** The yfinance interval strings. *)
Inductive interval : Type := I_60m | I_240m | I_1d | I_1wk | I_1mo.

Section WithProviders.

(** The providers, for one symbol and period, by interval: the frames that
    [safe_history], [safe_download] and [_fetch_chart_data] hand back (an
    empty frame on any failure). *)
Variable safe_history : interval -> option frame.
Variable safe_download : interval -> option frame.
Variable _fetch_chart_data : interval -> option frame.

Definition is_weekly_or_monthly (i : interval) : bool :=
  match i with I_1wk | I_1mo => true | _ => false end.

Definition _fetch_interval_history (i : interval) : frame :=
  let hist := _normalize_ohlc_df (safe_history i) in
  let hist := if empty hist then _normalize_ohlc_df (safe_download i) else hist in
  let hist :=
    if empty hist && is_weekly_or_monthly i then
      let daily := _normalize_ohlc_df (safe_history I_1d) in
      let daily :=
        if empty daily then _normalize_ohlc_df (safe_download I_1d) else daily in
      let daily :=
        if empty daily then _normalize_ohlc_df (_fetch_chart_data I_1d) else daily in
      if negb (empty daily) then
        _resample_ohlc daily (match i with I_1wk => W_FRI | _ => ME end)
      else hist
    else hist in
  if empty hist then _normalize_ohlc_df (_fetch_chart_data i) else hist.

End WithProviders.

(** *** Sample frames and providers *)

Definition date (y m d : Z) : Z := days_from_civil y m d.

Definition flat (day : Z) (c : Q) : bar :=
  {| ts := day; Open := Finite c; High := Finite c; Low := Finite c;
     Close := Finite c; Volume := Finite 1 |}.

Definition ohlcv (day : Z) (o h l c v : fval) : bar :=
  {| ts := day; Open := o; High := h; Low := l; Close := c; Volume := v |}.

(** A daily frame that stops on Monday 2024-01-15. *)
Definition january_partial : frame :=
  [ flat (date 2024 1 11) 98; flat (date 2024 1 12) 99; flat (date 2024 1 15) 100 ].

(** Providers that only answer the daily request of [safe_history]. *)
Definition only_daily (df : frame) (i : interval) : option frame :=
  match i with I_1d => Some df | _ => None end.

Definition no_data (i : interval) : option frame := None.

End Resample.

(** ** Indicator engine ([get_technicals], the moving averages) *)

Module Technicals.

Inductive action : Type := Buy | Sell | Neutral.

(** The indicator families of [ma_summary]; with the period they make the
    entry's name ([f"SMA{period}"], ...). *)
Inductive ma_kind : Type := SMA | EMA | WMA | HMA | TEMA.

Record indicator : Type := {
  kind : ma_kind;
  period : nat;
  value : option Q;        (* [round(v, 2)]; [None] is NaN *)
  vote : action
}.

(** A series with missing values: [None] is NaN. *)
Definition series : Type := list (option Q).

Definition qsum (l : list Q) : Q := fold_right Qplus 0 l.

Fixpoint all_some (l : series) : option (list Q) :=
  match l with
  | [] => Some []
  | None :: _ => None
  | Some x :: tl => option_map (cons x) (all_some tl)
  end.

(** The window of [w] observations ending at position [t]: missing while
    fewer than [w] observations exist or when one of them is NaN. *)
Definition window (w : nat) (l : series) (t : nat) : option (list Q) :=
  if (w <=? t + 1)%nat then all_some (firstn w (skipn (t + 1 - w) l)) else None.

(** [l.rolling(w).apply(f, raw=True)] *)
Definition rolling_apply (w : nat) (f : list Q -> Q) (l : series) : series :=
  map (fun t => option_map f (window w l t)) (seq 0 (length l)).

Definition mean (xs : list Q) : Q := qsum xs / inject_Z (Z.of_nat (length xs)).

(** [l.rolling(w).mean()] *)
Definition rolling_mean (w : nat) (l : series) : series := rolling_apply w mean l.

(** [np.arange(1, n + 1)] *)
Definition arange1 (n : nat) : list Q := map (fun j => inject_Z (Z.of_nat j)) (seq 1 n).

(** [np.dot(x, w)] *)
Fixpoint dot (xs ws : list Q) : Q :=
  match xs, ws with
  | x :: xs', w :: ws' => x * w + dot xs' ws'
  | _, _ => 0
  end.

(** [lambda prices: np.dot(prices, weights) / weights.sum()] *)
Definition weighted (n : nat) (prices : list Q) : Q :=
  dot prices (arange1 n) / qsum (arange1 n).

Definition rolling_wma (n : nat) (l : series) : series := rolling_apply n (weighted n) l.

(** [l.ewm(span=span, adjust=False).mean()] on a series without NaN:
    [y0 = x0], [y_t = (1 - alpha) y_(t-1) + alpha x_t], [alpha = 2/(span+1)];
    values are kept in lowest terms. *)
Fixpoint ewm_from (alpha prev : Q) (l : list Q) : list Q :=
  match l with
  | [] => []
  | x :: tl =>
      let y := Qred ((1 - alpha) * prev + alpha * x) in
      y :: ewm_from alpha y tl
  end.

Definition ewm_alpha (span : nat) : Q := 2 / (inject_Z (Z.of_nat span) + 1).

Definition ewm_mean (span : nat) (l : list Q) : list Q :=
  match l with
  | [] => []
  | x0 :: tl => x0 :: ewm_from (ewm_alpha span) x0 tl
  end.

(** [.bfill()] *)
Fixpoint bfill (l : series) : series :=
  match l with
  | [] => []
  | Some x :: tl => Some x :: bfill tl
  | None :: tl =>
      let tl' := bfill tl in
      match tl' with
      | Some y :: _ => Some y :: tl'
      | _ => None :: tl'
      end
  end.

(** [.iloc[-1]] on a non-empty series. *)
Definition iloc_last (l : series) : option Q := List.last l None.

Definition lift2 (f : Q -> Q -> Q) (a b : option Q) : option Q :=
  match a, b with
  | Some x, Some y => Some (f x y)
  | _, _ => None
  end.

(** ["Buy" if last > v else "Sell" if last < v else "Neutral"]; every
    comparison with NaN is false. *)
Definition action_of (last : Q) (v : option Q) : action :=
  match v with
  | None => Neutral
  | Some x => if Qltb x last then Buy else if Qltb last x then Sell else Neutral
  end.

Section OnClose.

(** The [Close] column after [dropna] and [astype(float)]. *)
Variable close : list Q.

Definition close_last : Q := List.last close 0.

Definition close_series : series := map Some close.

Definition sma (p : nat) : option Q := iloc_last (bfill (rolling_mean p close_series)).

Definition ema (p : nat) : option Q := iloc_last (map Some (ewm_mean p close)).

Definition wma (p : nat) : option Q := iloc_last (rolling_wma p close_series).

Definition hma (p : nat) : option Q :=
  let half_len := (p / 2)%nat in
  let sqrt_len := Nat.sqrt p in
  let wma_half := rolling_wma half_len close_series in
  let wma_full := rolling_wma p close_series in
  let diff :=
    map (fun ab => lift2 (fun a b => 2 * a - b) (fst ab) (snd ab))
        (combine wma_half wma_full) in
  iloc_last (rolling_mean sqrt_len diff).

Definition tema (p : nat) : option Q :=
  let ema1 := ewm_mean p close in
  let ema2 := ewm_mean p ema1 in
  let ema3 := ewm_mean p ema2 in
  iloc_last
    (map (fun abc => Some (3 * fst (fst abc) - 3 * snd (fst abc) + snd abc))
         (combine (combine ema1 ema2) ema3)).

Definition entry (k : ma_kind) (p : nat) (v : option Q) : indicator :=
  {| kind := k; period := p; value := option_map py_round2 v;
     vote := action_of close_last v |}.

(** [ma_periods = [p for p in [10, 20, 50, 100, 200] if len(close) >= p]] *)
Definition ma_periods : list nat :=
  List.filter (fun p => (p <=? length close)%nat) [10; 20; 50; 100; 200]%nat.

(** The two loops that fill [ma_summary]. *)
Definition ma_summary : list indicator :=
  flat_map (fun p => [entry SMA p (sma p); entry EMA p (ema p)]) ma_periods
  ++ flat_map (fun p => [entry WMA p (wma p); entry HMA p (hma p); entry TEMA p (tema p)])
       ma_periods.

Definition is_buy (a : action) : bool := match a with Buy => true | _ => false end.
Definition is_sell (a : action) : bool := match a with Sell => true | _ => false end.

Definition ma_buy_count : nat := length (List.filter (fun x => is_buy (vote x)) ma_summary).
Definition ma_sell_count : nat := length (List.filter (fun x => is_sell (vote x)) ma_summary).

Definition ma_signal : action :=
  if (ma_sell_count <? ma_buy_count)%nat then Buy
  else if (ma_buy_count <? ma_sell_count)%nat then Sell
  else Neutral.

End OnClose.

(** *** Vocabulary of the indicator properties *)

(** The integers [a+1 .. a+n]. *)
Definition ramp (a : Z) (n : nat) : list Q :=
  map (fun i => inject_Z (a + Z.of_nat i)) (seq 1 n).

(** 230 rising closes: a steady climb of about 1840 a session that slows
    down over the last six sessions.  The values are whole numbers chosen so
    that the exponential averages at lookback 10 are whole numbers too. *)
Definition slowing_series : list Q :=
  map inject_Z [
    100; 2762; 4214; 5930; 7926; 10218; 12822; 14423; 16973; 18420;
    20708; 23108; 25620; 28244; 29649; 31771; 33873; 35947; 37985; 39979;
    41921; 43803; 45617; 47355; 49009; 50571; 52033; 53387; 55956; 57796;
    59636; 61476; 63316; 65156; 66996; 68836; 70676; 72516; 74356; 76196;
    78036; 79876; 81716; 83556; 85396; 87236; 89076; 90916; 92756; 94596;
    96436; 98276; 100116; 101956; 103796; 105636; 107476; 109316; 111156; 112996;
    114836; 116676; 118516; 120356; 122196; 124036; 125876; 127716; 129556; 131396;
    133236; 135076; 136916; 138756; 140596; 142436; 144276; 146116; 147956; 149796;
    151636; 153476; 155316; 157156; 158996; 160836; 162676; 164516; 166356; 168196;
    170036; 171876; 173716; 175556; 177396; 179236; 181076; 182916; 184756; 186596;
    188436; 190276; 192116; 193956; 195796; 197636; 199476; 201316; 203156; 204996;
    206836; 208676; 210516; 212356; 214196; 216036; 217876; 219716; 221556; 223396;
    225236; 227076; 228916; 230756; 232596; 234436; 236276; 238116; 239956; 241796;
    243636; 245476; 247316; 249156; 250996; 252836; 254676; 256516; 258356; 260196;
    262036; 263876; 265716; 267556; 269396; 271236; 273076; 274916; 276756; 278596;
    280436; 282276; 284116; 285956; 287796; 289636; 291476; 293316; 295156; 296996;
    298836; 300676; 302516; 304356; 306196; 308036; 309876; 311716; 313556; 315396;
    317236; 319076; 320916; 322756; 324596; 326436; 328276; 330116; 331956; 333796;
    335636; 337476; 339316; 341156; 342996; 344836; 346676; 348516; 350356; 352196;
    354036; 355876; 357716; 359556; 361396; 363236; 365076; 366916; 368756; 370596;
    372436; 374276; 376116; 377956; 379796; 381636; 383476; 385316; 387156; 388996;
    390836; 392676; 394516; 396356; 398196; 400036; 401876; 403716; 405556; 407396;
    409236; 411076; 412916; 414756; 415265; 416379; 417361; 418203; 418897; 419435
  ]%Z.

(** Each value exceeds the one before it, starting above [prev]. *)
Fixpoint incr_from (prev : Q) (l : list Q) : Prop :=
  match l with
  | [] => True
  | x :: tl => prev < x /\ incr_from x tl
  end.

Definition increasing (l : list Q) : Prop :=
  match l with
  | [] => True
  | x :: tl => incr_from x tl
  end.

Fixpoint incr_fromb (prev : Q) (l : list Q) : bool :=
  match l with
  | [] => true
  | x :: tl => Qltb prev x && incr_fromb x tl
  end.

Definition increasingb (l : list Q) : bool :=
  match l with
  | [] => true
  | x :: tl => incr_fromb x tl
  end.

Definition count (f : action -> bool) (l : list indicator) : nat :=
  length (List.filter (fun x => f (vote x)) l).

End Technicals.

(** ** Shapes of cleaned symbols *)

Module Shapes.
Import Ticker.

(** No white space in front. *)
Definition head_ok (t : str) : Prop :=
  match t with
  | [] => True
  | c :: _ => is_space c = false
  end.

(** The shape [remove_spaces (upper (strip _))] produces. *)
Definition canonical (t : str) : Prop :=
  head_ok t /\ head_ok (rev t)
  /\ Forall (fun c => upper_char c = c) t
  /\ Forall (fun c => Ascii.eqb c " " = false) t.

End Shapes.

(** ** Fundamentals candidates ([fundamentals_candidates]) *)

Module FundCandidates.
Import Ticker.

(** [t.split(".")[0]] *)
Definition before_dot (t : str) : str :=
  take_while (fun c => negb (Ascii.eqb c ".")) t.

Definition has_dot (t : str) : bool := existsb (Ascii.eqb ".") t.

Definition fundamentals_candidates (raw : str) : list str :=
  let raw_up := remove_spaces (upper (strip raw)) in
  let norm := normalize_ticker raw_up in
  let candidates := add_candidate (add_candidate [] raw_up) norm in
  let candidates :=
    if nonempty norm && has_dot norm
    then add_candidate candidates (before_dot norm) else candidates in
  let no_digits := if nonempty raw_up then drop_while is_digit raw_up else raw_up in
  let candidates := add_candidate candidates no_digits in
  if nonempty no_digits && has_dot no_digits
  then add_candidate candidates (before_dot no_digits) else candidates.

End FundCandidates.

(** ** Percentile bands of the yearly curves ([compute_percentiles]) *)

Module Percentiles.
Import Num.

(** One entry of the result: [{"p10": .., "median": .., "p90": ..}]. *)
Record band : Type := { p10 : Q; median : Q; p90 : Q }.

Fixpoint insert_sorted (v : Q) (l : list Q) : list Q :=
  match l with
  | [] => [v]
  | x :: tl => if Qleb v x then v :: l else x :: insert_sorted v tl
  end.

(** [sorted(vals)] *)
Definition sorted (vals : list Q) : list Q := fold_right insert_sorted [] vals.

(** The comprehension over [curves_by_year.values()]: the populated values
    of one month; [None] stands for the [IndexError] of a curve too short. *)
Fixpoint month_vals (month_idx : nat) (curves : list (list (option Q)))
  : option (list Q) :=
  match curves with
  | [] => Some []
  | year_curve :: tl =>
      match year_curve !! month_idx with
      | None => None
      | Some o =>
          match month_vals month_idx tl with
          | None => None
          | Some l => Some (match o with Some v => v :: l | None => l end)
          end
      end
  end.

(** The body of the loop for one month.  The indices [int(0.10 * (n - 1))],
    [int(0.50 * (n - 1))] and [int(0.90 * (n - 1))] are the integer
    quotients: the doubles 0.10 and 0.90 lie just above the decimals, so the
    products never fall below a whole number they should reach. *)
Definition band_of (vals : list Q) : band :=
  match vals with
  | [] => {| p10 := 0; median := 0; p90 := 0 |}
  | _ =>
      let vals := sorted vals in
      let n := length vals in
      {| p10 := py_round2 (nth ((n - 1) / 10) vals 0);
         median := py_round2 (nth ((n - 1) / 2) vals 0);
         p90 := py_round2 (nth (9 * (n - 1) / 10) vals 0) |}
  end.

Definition bands_for (months : list nat) (curves : list (list (option Q)))
  : option (list band) :=
  fold_right
    (fun month_idx acc =>
       match month_vals month_idx curves, acc with
       | Some vals, Some l => Some (band_of vals :: l)
       | _, _ => None
       end)
    (Some []) months.

Definition compute_percentiles (curves : list (list (option Q))) : option (list band) :=
  bands_for (seq 0 12) curves.

(** *** Vocabulary *)

Inductive ascending : list Q -> Prop :=
| asc_nil : ascending []
| asc_one (x : Q) : ascending [x]
| asc_cons (x y : Q) (l : list Q) : x <= y -> ascending (y :: l) -> ascending (x :: y :: l).

(** Three years of one month each, padded to twelve slots. *)
Definition three_years : list (list (option Q)) :=
  [ Some 3 :: repeat None 11; Some (-2) :: repeat None 11; Some 1 :: repeat None 11 ].

End Percentiles.

(** ** Order of an index *)

Module Order.

(** Each value is above the one before it, starting from [prev]; strictly
    so when [strict] is set. *)
Fixpoint above (strict : bool) (prev : Z) (l : list Z) : Prop :=
  match l with
  | [] => True
  | x :: tl => (if strict then prev < x else prev <= x)%Z /\ above strict x tl
  end.

Definition ordered (strict : bool) (l : list Z) : Prop :=
  match l with
  | [] => True
  | x :: tl => above strict x tl
  end.

End Order.

(** ** Accounts: user names, watchlists and shared tickers
       ([_normalize_username], [_is_valid_username],
       [_normalize_watchlist_items], [_normalize_social_tickers]) *)

Module Accounts.
Import Ticker.

Definition lower_char (c : ascii) : ascii :=
  if is_AZ c then ascii_of_nat (code c + 32) else c.

(** [t.lower()] *)
Definition lower (t : str) : str := map lower_char t.

(** [value or ""] on a string or [None]. *)
Definition or_empty (value : option str) : str :=
  match value with
  | Some t => t
  | None => []
  end.

(** [re.sub(r"\s+", "", t)] *)
Definition remove_whitespace (t : str) : str :=
  List.filter (fun c => negb (is_space c)) t.

Definition _normalize_username (value : option str) : str :=
  let normalized := remove_whitespace (lower (strip (or_empty value))) in
  drop_while (fun c => Ascii.eqb c "@") normalized.

(** [[a-z0-9_.-]] *)
Definition username_char (c : ascii) : bool :=
  is_az c || is_digit c || Ascii.eqb c "_" || Ascii.eqb c "." || Ascii.eqb c "-".

(** [re.fullmatch(r"[a-z0-9_.-]{3,30}", username or "")] *)
Definition _is_valid_username (username : option str) : bool :=
  let u := or_empty username in
  forallb username_char u && (3 <=? length u)%nat && (length u <=? 30)%nat.

(** [str(item or "").strip().upper().replace(" ", "")] on a string item. *)
Definition clean_symbol (item : str) : str := remove_spaces (upper (strip item)).

(** The loop of [_normalize_watchlist_items], from the state [(out, seen)]. *)
Fixpoint watchlist_loop (items : list str) (out seen : list str) : list str :=
  match items with
  | [] => out
  | item :: tl =>
      let ticker := clean_symbol item in
      if negb (nonempty ticker) || mem ticker seen then watchlist_loop tl out seen
      else watchlist_loop tl (out ++ [ticker]) (ticker :: seen)
  end.

Definition _normalize_watchlist_items (items : list str) : list str :=
  watchlist_loop items [] [].

(** The loop of [_normalize_social_tickers]: the same, with a [break] once
    [len(out) >= limit] after an append. *)
Fixpoint social_loop (limit : Z) (items : list str) (out seen : list str) : list str :=
  match items with
  | [] => out
  | item :: tl =>
      let ticker := clean_symbol item in
      if negb (nonempty ticker) || mem ticker seen then social_loop limit tl out seen
      else
        let out' := out ++ [ticker] in
        if (limit <=? Z.of_nat (length out'))%Z then out'
        else social_loop limit tl out' (ticker :: seen)
  end.

Definition _normalize_social_tickers (items : list str) (limit : Z) : list str :=
  social_loop limit items [] [].

(** *** Vocabulary *)

(** Nothing to strip, lower or cut: the shape of a normalized user name. *)
Definition plain_name (t : str) : Prop :=
  Forall (fun c => is_space c = false) t
  /\ Forall (fun c => lower_char c = c) t
  /\ match t with [] => True | c :: _ => Ascii.eqb c "@" = false end.

End Accounts.

(** ** Binary64 arithmetic

    Where a result is rounded, the last bit of a double decides: the blocks
    below are modelled on IEEE 754 doubles, the kernel's primitive floats. *)

Module F64.
Import PrimFloat FloatOps SpecFloat.
Import Num.

#[local] Set Warnings "-inexact-float".
Local Open Scope float_scope.

(** The exact value of a finite double, in lowest terms; [None] for NaN and
    the infinities. *)
Definition exact (x : float) : option Q :=
  match Prim2SF x with
  | S754_zero _ => Some 0%Q
  | S754_finite s m e =>
      let mag :=
        match e with
        | Z0 => inject_Z (Zpos m)
        | Zpos p => inject_Z (Zpos m * 2 ^ Zpos p)
        | Zneg p => (Zpos m # 2 ^ p)%Q
        end in
      Some (Qred (if s then (- mag)%Q else mag))
  | _ => None
  end.

(** [float(n)] for an integer below 2^53 in magnitude. *)
Definition of_Z (n : Z) : float :=
  match n with
  | Z0 => 0
  | Zpos p => SF2Prim (S754_finite false p 0)
  | Zneg p => SF2Prim (S754_finite true p 0)
  end.

(** [min(a, b)] and [max(a, b)]: the first argument unless the second is
    strictly smaller (larger); a comparison with NaN is false. *)
Definition pymin (a b : float) : float := if b <? a then b else a.
Definition pymax (a b : float) : float := if a <? b then b else a.

(** [round(x)]: the nearest integer to the exact value, ties to even;
    [None] stands for the [ValueError] / [OverflowError] on NaN and
    infinities. *)
Definition round_float (x : float) : option Z := option_map py_round (exact x).

(** [round(x, 2)]: the double nearest to the exact value rounded to two
    decimals (ties to even); NaN, infinities and zeros come back as they are,
    and so does any double of magnitude 2^46 or more (its two-decimal
    rounding is nearer to it than to any other double). *)
Definition round2 (x : float) : float :=
  match exact x with
  | None => x
  | Some q =>
      if 70368744177664 <=? abs x then x
      else
        let n := py_round (q * 100) in
        if (n =? 0)%Z then (if x <? 0 then neg_zero else if x =? 0 then x else 0)
        else of_Z n / 100
  end.

(** [0 <= x <= 1] as the comparisons decide it. *)
Definition unit_interval (x : float) : Prop :=
  (0 <=? x) = true /\ (x <=? 1) = true.

End F64.

(** ** Risk composite in doubles ([get_stock], the "Risk index (composite)"
       block) *)

Module Risk64.
Import PrimFloat F64.

#[local] Set Warnings "-inexact-float".
Local Open Scope float_scope.

(** The values the block reads, after [float(..)]. *)
Record inputs : Type := {
  volatility : option float;        (* performance["volatility"] *)
  volatility30D : option float;     (* performance["volatility30D"] *)
  maxDrawdown1Y : option float;     (* performance["maxDrawdown1Y"] *)
  info_beta : option float;         (* info["beta"] *)
  sharpeRatio : option float;
  sortinoRatio : option float;
  avg_volume : option float;
  volume : option float;
  market_cap : option float;
  current_price : float
}.

(** The value of [risk_index]: [None], an integer, or the exception
    [round] raises on a NaN or an infinity. *)
Inductive index : Type :=
| Null
| Index (i : Z)
| RoundError.

Section WithLog.

(** [np.log10], a numpy primitive. *)
Variable log10 : float -> float.

Definition _to_num (v : option float) : option float := v.

Definition _clamp01 (v : float) : float := pymax 0 (pymin 1 v).

(** Python's [a or b] on optional floats: [None] and zero are falsy. *)
Definition py_or (a b : option float) : option float :=
  match a with
  | Some x => if x =? 0 then b else a
  | None => b
  end.

Definition _log10 (v : float) : option float :=
  if negb (v =? 0) && (0 <? v) then Some (log10 v) else None.

Section Scores.
Variable r : inputs.

Definition vol1y := _to_num (volatility r).
Definition vol30 := _to_num (volatility30D r).
Definition drawdown := _to_num (maxDrawdown1Y r).
Definition beta := _to_num (info_beta r).
Definition sharpe := _to_num (sharpeRatio r).
Definition sortino := _to_num (sortinoRatio r).
Definition avg_volume_num := py_or (_to_num (avg_volume r)) (_to_num (volume r)).
Definition market_cap_num := _to_num (market_cap r).

Definition avg_dollar_volume : option float :=
  match avg_volume_num with
  | Some a => Some (a * current_price r)
  | None => None
  end.

Definition vol_regime : option float :=
  match vol30, vol1y with
  | Some a, Some b => if 0 <? b then Some (a / b) else None
  | _, _ => None
  end.

Definition vol_score := option_map (fun v => _clamp01 ((v - 15) / 25)) vol1y.
Definition vol30_score := option_map (fun v => _clamp01 ((v - 15) / 25)) vol30.
Definition dd_score := option_map (fun v => _clamp01 ((abs v - 10) / 25)) drawdown.
Definition beta_score := option_map (fun v => _clamp01 ((v - 0.9) / 0.6)) beta.
Definition sharpe_score := option_map (fun v => _clamp01 ((1.2 - v) / 1.2)) sharpe.
Definition sortino_score := option_map (fun v => _clamp01 ((1.4 - v) / 1.4)) sortino.

Definition liquidity_score : option float :=
  let liquidity_base :=
    match avg_dollar_volume with Some d => Some d | None => avg_volume_num end in
  match liquidity_base with
  | Some b =>
      match _log10 b with
      | Some lv =>
          let low := match avg_dollar_volume with Some _ => 6.3 | None => 5.5 end in
          let high := match avg_dollar_volume with Some _ => 7.3 | None => 6.5 end in
          Some (_clamp01 ((high - lv) / (high - low)))
      | None => None
      end
  | None => None
  end.

Definition size_score : option float :=
  match market_cap_num with
  | Some m =>
      match _log10 m with
      | Some lv => Some (_clamp01 ((10.0 - lv) / (10.0 - 9.3)))
      | None => None
      end
  | None => None
  end.

Definition regime_score := option_map (fun v => _clamp01 ((v - 1) / 0.6)) vol_regime.

Definition parts_all : list (option float * float) :=
  [ (vol_score, 0.20);
    (vol30_score, 0.10);
    (dd_score, 0.20);
    (beta_score, 0.10);
    (sharpe_score, 0.10);
    (sortino_score, 0.10);
    (liquidity_score, 0.10);
    (size_score, 0.05);
    (regime_score, 0.05) ].

(** [[(v, w) for v, w in parts if v is not None]] *)
Fixpoint present (ps : list (option float * float)) : list (float * float) :=
  match ps with
  | [] => []
  | (Some v, w) :: tl => (v, w) :: present tl
  | (None, _) :: tl => present tl
  end.

(** [sum(..)]: left to right, from 0. *)
Definition fsum (l : list float) : float := fold_left add l 0.

Definition risk_index_of (ps : list (float * float)) : index :=
  match ps with
  | [] => Null
  | _ =>
      let weight_sum := fsum (map snd ps) in
      match round_float ((fsum (map (fun p => fst p * snd p) ps) / weight_sum) * 100) with
      | Some i => Index i
      | None => RoundError
      end
  end.

Definition risk_index : index := risk_index_of (present parts_all).

End Scores.
End WithLog.

(** *** Sample requests *)

(** A request with the volatility and the drawdown only. *)
Definition vol_and_drawdown (v d : float) : inputs :=
  {| volatility := Some v; volatility30D := None;
     maxDrawdown1Y := Some d; info_beta := None;
     sharpeRatio := None; sortinoRatio := None;
     avg_volume := None; volume := None; market_cap := None;
     current_price := 100 |}.

(** A request without any metric. *)
Definition no_metric : inputs :=
  {| volatility := None; volatility30D := None;
     maxDrawdown1Y := None; info_beta := None;
     sharpeRatio := None; sortinoRatio := None;
     avg_volume := None; volume := None; market_cap := None;
     current_price := 100 |}.

(** The same request over the rationals. *)
Definition vol_and_drawdown_exact (v d : Q) : Risk.inputs :=
  {| Risk.volatility := Some v; Risk.volatility30D := None;
     Risk.maxDrawdown1Y := Some d; Risk.info_beta := None;
     Risk.sharpeRatio := None; Risk.sortinoRatio := None;
     Risk.avg_volume := None; Risk.volume := None; Risk.market_cap := None;
     Risk.current_price := 100%Q |}.

End Risk64.

(** ** Zone merging in doubles ([merge_close_zones]) *)

Module Zones64.
Import PrimFloat F64.

#[local] Set Warnings "-inexact-float".
Local Open Scope float_scope.

(** A zone dict [{"price": .., "min": .., "max": ..}]. *)
Record zone : Type := { price : float; zmin : float; zmax : float }.

(** The dict [{"support": .., "resistance": ..}]. *)
Record zones : Type := { support : list zone; resistance : list zone }.

(** [sorted(items, key=lambda x: x["price"])]: stable, by insertion. *)
Fixpoint insert_by_price (x : zone) (l : list zone) : list zone :=
  match l with
  | [] => [x]
  | y :: tl => if price y <? price x then y :: insert_by_price x tl else x :: l
  end.

Definition sorted_by_price (items : list zone) : list zone :=
  fold_right insert_by_price [] items.

(** The loop of [merge_list]: [merged] is kept as its front and its last
    element. *)
Fixpoint merge_loop (min_gap_pct : float) (front : list zone) (last : zone)
    (items : list zone) : list zone :=
  match items with
  | [] => front ++ [last]
  | item :: tl =>
      let gap := abs (price item - price last) in
      let min_gap := price last * (min_gap_pct / 100.0) in
      if gap <=? min_gap then
        let new_price := round2 ((price last + price item) / 2) in
        merge_loop min_gap_pct front
          {| price := new_price;
             zmin := round2 (pymin (zmin last) (zmin item));
             zmax := round2 (pymax (zmax last) (zmax item)) |} tl
      else merge_loop min_gap_pct (front ++ [last]) item tl
  end.

Definition merge_list (min_gap_pct : float) (items : list zone) : list zone :=
  match sorted_by_price items with
  | [] => items
  | first :: rest => merge_loop min_gap_pct [] first rest
  end.

Definition merge_close_zones (zs : zones) (min_gap_pct : float) : zones :=
  if min_gap_pct <=? 0 then zs
  else {| support := merge_list min_gap_pct (support zs);
          resistance := merge_list min_gap_pct (resistance zs) |}.

(** *** Vocabulary *)

Definition z (p lo hi : float) : zone := {| price := p; zmin := lo; zmax := hi |}.

(** The zone [merge_list] writes over [merged[-1]], from the last merged
    zone and the next item. *)
Definition merged_zone (last item : zone) : zone :=
  {| price := round2 ((price last + price item) / 2);
     zmin := round2 (pymin (zmin last) (zmin item));
     zmax := round2 (pymax (zmax last) (zmax item)) |}.

End Zones64.

(** ** Compounding in doubles ([get_seasonality], the cumulative curve) *)

Module Seasonality64.
Import PrimFloat F64.

#[local] Set Warnings "-inexact-float".
Local Open Scope float_scope.

(** The second inner loop, from a running [cum_return]. *)
Fixpoint cumulative_from (cum_return : float) (monthly_curve : list (option float))
  : list (option float) :=
  match monthly_curve with
  | [] => []
  | None :: tl => None :: cumulative_from cum_return tl
  | Some v :: tl =>
      let cum_return' := (1 + cum_return) * (1 + v / 100.0) - 1 in
      Some (round2 (cum_return' * 100)) :: cumulative_from cum_return' tl
  end.

Definition cumulative_curve_of (monthly_curve : list (option float))
  : list (option float) :=
  cumulative_from 0.0 monthly_curve.

(** *** Vocabulary *)

(** The populated values of a curve, in month order. *)
Fixpoint populated (curve : list (option float)) : list float :=
  match curve with
  | [] => []
  | Some v :: tl => v :: populated tl
  | None :: tl => populated tl
  end.

(** The running return after the monthly returns [vs], from [cum_return]. *)
Definition compound (cum_return : float) (vs : list float) : float :=
  fold_left (fun c v => (1 + c) * (1 + v / 100.0) - 1) vs cum_return.

End Seasonality64.

(* ===================================================================== *)
(** * Properties *)
(* ===================================================================== *)

(** ** Rounding *)

Module NumFacts.

Lemma py_round_comp (x y : Q) : x == y -> py_round x = py_round y.
Proof.
  intros E. unfold py_round.
  rewrite (Qfloor_comp _ _ E).
  assert (C : Qcompare (x - inject_Z (Qfloor y)) (1 # 2)
             = Qcompare (y - inject_Z (Qfloor y)) (1 # 2)).
  { apply Qcompare_comp; [rewrite E |]; reflexivity. }
  rewrite C. reflexivity.
Qed.

Lemma py_round2_comp (x y : Q) : x == y -> py_round2 x = py_round2 y.
Proof.
  intros E. unfold py_round2.
  rewrite (py_round_comp (x * 100) (y * 100)); [reflexivity | rewrite E; reflexivity].
Qed.

(** The rounded integer is within one half of the argument. *)
Lemma py_round_near (x : Q) : Qabs (inject_Z (py_round x) - x) <= 1 # 2.
Proof.
  unfold py_round.
  pose proof (Qfloor_le x) as Hlo.
  pose proof (Qlt_floor x) as Hhi.
  set (f := Qfloor x) in *.
  assert (Hf1 : inject_Z (f + 1) == inject_Z f + 1) by (rewrite inject_Z_plus; reflexivity).
  rewrite Hf1 in Hhi.
  apply Qabs_Qle_condition.
  destruct (Qcompare (x - inject_Z f) (1 # 2)) eqn:C.
  - apply Qeq_alt in C.
    destruct (Z.even f); [| rewrite Hf1]; split; lra.
  - apply Qlt_alt in C. split; lra.
  - apply Qgt_alt in C. rewrite Hf1. split; lra.
Qed.

Lemma py_round2_near (x : Q) : Qabs (py_round2 x - x) <= 1 # 200.
Proof.
  unfold py_round2.
  pose proof (py_round_near (x * 100)) as H.
  apply Qabs_Qle_condition in H. apply Qabs_Qle_condition.
  set (r := inject_Z (py_round (x * 100))) in *.
  assert (E : Qred (r / 100) == r * (1 # 100)).
  { rewrite Qred_correct. unfold Qdiv. reflexivity. }
  rewrite E. split; lra.
Qed.

Lemma Qltb_lt (a b : Q) : Qltb a b = true <-> a < b.
Proof.
  unfold Qltb. rewrite Qlt_alt. destruct (Qcompare a b); split; congruence.
Qed.

Lemma Qleb_le (a b : Q) : Qleb a b = true <-> a <= b.
Proof.
  unfold Qleb. rewrite Qle_alt. destruct (Qcompare a b); split; congruence.
Qed.

Lemma Qltb_ge (a b : Q) : Qltb a b = false <-> b <= a.
Proof.
  pose proof (Qltb_lt a b) as H. destruct (Qltb a b); split; intros; try congruence.
  - exfalso. apply (Qlt_irrefl a). apply Qlt_le_trans with b; [apply H; reflexivity | assumption].
  - apply Qnot_lt_le. intros L. apply H in L. congruence.
Qed.

Lemma Qleb_gt (a b : Q) : Qleb a b = false <-> b < a.
Proof.
  pose proof (Qleb_le a b) as H. destruct (Qleb a b); split; intros; try congruence.
  - exfalso. apply (Qlt_irrefl a). apply Qle_lt_trans with b; [apply H; reflexivity | assumption].
  - apply Qnot_le_lt. intros L. apply H in L. congruence.
Qed.

End NumFacts.
Import NumFacts.

(** ** Risk composite *)

Module RiskFacts.
Import Risk.

Lemma _clamp01_range (v : Q) : 0 <= _clamp01 v <= 1.
Proof.
  unfold _clamp01. split.
  - apply Q.le_max_l.
  - apply Q.max_lub; [discriminate | apply Q.le_min_l].
Qed.

Example risk_index_sample : risk_index (fun _ => 0) sample_vol_dd = Some 50%Z.
Proof. vm_compute. reflexivity. Qed.

Example risk_level_sample : risk_level (fun _ => 0) sample_vol_dd = "Medio"%string.
Proof. vm_compute. reflexivity. Qed.

End RiskFacts.

(** ** Cache layer *)

Module CacheFacts.
Import Cache.

Section WithPayload.

Context {payload : Type}.
Implicit Types (d : cache_dict payload) (e : entry payload) (k key : string).

Lemma dict_get_In d k e : dict_get d k = Some e -> In (k, e) d.
Proof.
  induction d as [| [k0 e0] tl IH]; cbn; [discriminate |].
  destruct (String.eqb k0 k) eqn:E.
  - apply String.eqb_eq in E. intros [= ->]. subst. now left.
  - intros H. right. now apply IH.
Qed.

Lemma In_dict_get d k e : wf d -> In (k, e) d -> dict_get d k = Some e.
Proof.
  unfold wf, keys. induction d as [| [k0 e0] tl IH]; cbn; [tauto |].
  intros ND [H | H].
  - injection H as -> ->. now rewrite String.eqb_refl.
  - apply NoDup_cons_iff in ND as [Hn ND].
    destruct (String.eqb k0 k) eqn:E; [| now apply IH].
    apply String.eqb_eq in E. subst k0. exfalso. apply Hn.
    apply in_map_iff. now exists (k, e).
Qed.

Lemma dict_get_None d k : dict_get d k = None <-> ~ In k (keys d).
Proof.
  unfold keys. induction d as [| [k0 e0] tl IH]; cbn; [tauto |].
  destruct (String.eqb k0 k) eqn:E.
  - apply String.eqb_eq in E. split; [discriminate | intros H; exfalso; apply H; now left].
  - apply String.eqb_neq in E. rewrite IH. tauto.
Qed.

Lemma keys_dict_del d k k' : In k' (keys (dict_del d k)) <-> In k' (keys d) /\ k' <> k.
Proof.
  unfold keys, dict_del. rewrite !in_map_iff. split.
  - intros [[k0 e0] [<- H]]. apply filter_In in H as [H1 H2]. cbn in *.
    apply negb_true_iff, String.eqb_neq in H2. split; [| assumption].
    now exists (k0, e0).
  - intros [[[k0 e0] [<- H]] Hne]. exists (k0, e0). split; [reflexivity |].
    apply filter_In. split; [assumption |]. cbn in *.
    now apply negb_true_iff, String.eqb_neq.
Qed.

Lemma dict_get_del_eq d k : dict_get (dict_del d k) k = None.
Proof. apply dict_get_None. rewrite keys_dict_del. tauto. Qed.

Lemma dict_get_del_ne d k k' : k' <> k -> dict_get (dict_del d k) k' = dict_get d k'.
Proof.
  intros Hne. unfold dict_del. induction d as [| [k0 e0] tl IH]; cbn; [reflexivity |].
  destruct (String.eqb k0 k) eqn:E; cbn.
  - apply String.eqb_eq in E. subst k0.
    assert (String.eqb k k' = false) as -> by (apply String.eqb_neq; congruence).
    exact IH.
  - destruct (String.eqb k0 k'); [reflexivity | exact IH].
Qed.

Lemma wf_dict_del d k : wf d -> wf (dict_del d k).
Proof.
  unfold wf, keys, dict_del. induction d as [| [k0 e0] tl IH]; cbn; [trivial |].
  intros ND. apply NoDup_cons_iff in ND as [Hn ND].
  destruct (negb (String.eqb k0 k)); cbn; [| now apply IH].
  constructor; [| now apply IH].
  intros H. apply Hn. apply (keys_dict_del tl k k0) in H. tauto.
Qed.

Lemma length_dict_del_lt d k : In k (keys d) -> (length (dict_del d k) < length d)%nat.
Proof.
  unfold keys, dict_del. induction d as [| [k0 e0] tl IH]; cbn; [tauto |].
  intros [H | H].
  - subst k0. rewrite String.eqb_refl. cbn.
    pose proof (filter_length_le (fun ke => negb (String.eqb (fst ke) k)) tl). lia.
  - destruct (negb (String.eqb k0 k)); cbn.
    + specialize (IH H). lia.
    + pose proof (filter_length_le (fun ke => negb (String.eqb (fst ke) k)) tl). lia.
Qed.

Lemma dict_del_absent d k : ~ In k (keys d) -> dict_del d k = d.
Proof.
  unfold keys, dict_del. induction d as [| [k0 e0] tl IH]; cbn; [reflexivity |].
  intros H. destruct (String.eqb k0 k) eqn:E.
  - apply String.eqb_eq in E. tauto.
  - cbn. f_equal. apply IH. tauto.
Qed.

Lemma length_dict_del_wf d k :
  wf d -> In k (keys d) -> S (length (dict_del d k)) = length d.
Proof.
  unfold wf, keys. induction d as [| [k0 e0] tl IH]; cbn; [tauto |].
  intros ND H. apply NoDup_cons_iff in ND as [Hn ND].
  unfold dict_del. cbn. destruct (String.eqb k0 k) eqn:E; cbn.
  - apply String.eqb_eq in E. subst k0.
    fold (dict_del tl k). now rewrite dict_del_absent.
  - apply String.eqb_neq in E. destruct H as [H | H]; [congruence |].
    fold (dict_del tl k). now rewrite IH.
Qed.

Lemma keys_dict_set d k e k' : In k' (keys (dict_set d k e)) <-> In k' (keys d) \/ k' = k.
Proof.
  unfold keys. induction d as [| [k0 e0] tl IH]; cbn.
  - intuition.
  - destruct (String.eqb k0 k) eqn:E; cbn.
    + apply String.eqb_eq in E. subst. intuition.
    + rewrite IH. intuition.
Qed.

Lemma wf_dict_set d k e : wf d -> wf (dict_set d k e).
Proof.
  unfold wf, keys. induction d as [| [k0 e0] tl IH]; cbn.
  - intros _. constructor; [tauto | constructor].
  - intros ND. apply NoDup_cons_iff in ND as [Hn ND].
    destruct (String.eqb k0 k) eqn:E; cbn.
    + constructor; assumption.
    + apply String.eqb_neq in E. constructor; [| now apply IH].
      intros H. apply (keys_dict_set tl k e k0) in H. intuition.
Qed.

Lemma dict_set_new d k e : ~ In k (keys d) -> dict_set d k e = d ++ [(k, e)].
Proof.
  unfold keys. induction d as [| [k0 e0] tl IH]; cbn; [reflexivity |].
  intros H. destruct (String.eqb k0 k) eqn:E.
  - apply String.eqb_eq in E. tauto.
  - f_equal. apply IH. tauto.
Qed.

Lemma length_dict_set_le d k e : (length (dict_set d k e) <= S (length d))%nat.
Proof.
  induction d as [| [k0 e0] tl IH]; cbn; [lia |].
  destruct (String.eqb k0 k); cbn; lia.
Qed.

Lemma dict_get_set_eq d k e : dict_get (dict_set d k e) k = Some e.
Proof.
  induction d as [| [k0 e0] tl IH]; cbn.
  - now rewrite String.eqb_refl.
  - destruct (String.eqb k0 k) eqn:E; cbn; rewrite E; [reflexivity | exact IH].
Qed.

(** What [min] returns: the running best, or a strictly older entry of the
    rest; in both cases nothing in the rest is older. *)
Lemma min_from_spec d best bts :
  (min_from best bts d = best /\
     forall k p ts, In (k, (p, ts)) d -> (bts <= ts)%Z)
  \/ (exists p ts, In (min_from best bts d, (p, ts)) d /\ (ts < bts)%Z /\
        forall k' p' ts', In (k', (p', ts')) d -> (ts <= ts')%Z).
Proof.
  revert best bts. induction d as [| [k0 [p0 t0]] tl IH]; intros best bts; cbn.
  - left. split; [reflexivity | tauto].
  - destruct (t0 <? bts)%Z eqn:E.
    + apply Z.ltb_lt in E. right.
      destruct (IH k0 t0) as [[Hk Hall] | (p & ts & Hin & Hlt & Hall)].
      * exists p0, t0. rewrite Hk. split; [now left |]. split; [assumption |].
        intros k' p' ts' [H | H]; [injection H as _ _ <-; lia | eauto].
      * exists p, ts. split; [now right |]. split; [lia |].
        intros k' p' ts' [H | H]; [injection H as _ _ <-; lia | eauto].
    + apply Z.ltb_ge in E.
      destruct (IH best bts) as [[Hk Hall] | (p & ts & Hin & Hlt & Hall)].
      * left. split; [assumption |].
        intros k' p' ts' [H | H]; [injection H as _ _ <-; lia | eauto].
      * right. exists p, ts. split; [now right |]. split; [assumption |].
        intros k' p' ts' [H | H]; [injection H as _ _ <-; lia | eauto].
Qed.

Lemma oldest_key_spec d :
  d <> [] ->
  exists k p ts, oldest_key d = Some k /\ In (k, (p, ts)) d /\
    forall k' p' ts', In (k', (p', ts')) d -> (ts <= ts')%Z.
Proof.
  destruct d as [| [k0 [p0 t0]] tl]; [congruence |]. intros _. cbn.
  destruct (min_from_spec tl k0 t0) as [[Hk Hall] | (p & ts & Hin & Hlt & Hall)].
  - exists k0, p0, t0. rewrite Hk. split; [reflexivity |]. split; [now left |].
    intros k' p' ts' [H | H]; [injection H as _ _ <-; lia | eauto].
  - exists (min_from k0 t0 tl), p, ts. split; [reflexivity |]. split; [now right |].
    intros k' p' ts' [H | H]; [injection H as _ _ <-; lia | eauto].
Qed.

(** One [_cache_set] on a well-formed cache within its bound. *)
Lemma _cache_set_step d key (p : payload) (now max_size : Z) :
  wf d -> (0 <= max_size)%Z -> (Z.of_nat (length d) <= max_size)%Z ->
  let d1 := dict_set d key (p, now) in
  let d' := _cache_set d key p now max_size in
  wf d' /\ (Z.of_nat (length d') <= max_size)%Z /\
  (forall k, In k (keys d') -> In k (keys d) \/ k = key) /\
  ((Z.of_nat (length d1) <= max_size)%Z -> d' = d1) /\
  ((max_size < Z.of_nat (length d1))%Z ->
     exists ko eo,
       dict_get d1 ko = Some eo /\
       (forall k' e', dict_get d1 k' = Some e' -> (snd eo <= snd e')%Z) /\
       d' = dict_del d1 ko /\ dict_get d' ko = None /\
       S (length d') = length d1).
Proof.
  intros Hwf Hm Hlen d1 d'.
  assert (Hwf1 : wf d1) by (apply wf_dict_set; assumption).
  pose proof (length_dict_set_le d key (p, now)) as Hle1. fold d1 in Hle1.
  subst d'. unfold _cache_set. fold d1.
  destruct (max_size <? Z.of_nat (length d1))%Z eqn:E.
  - apply Z.ltb_lt in E.
    assert (Hne : d1 <> []) by (destruct d1; cbn in *; [lia | congruence]).
    destruct (oldest_key_spec d1 Hne) as (ko & po & to & Hold & Hin & Hmin).
    rewrite Hold.
    assert (Hko : In ko (keys d1)).
    { unfold keys. apply in_map_iff. now exists (ko, (po, to)). }
    pose proof (length_dict_del_wf d1 ko Hwf1 Hko) as Hlen'.
    split; [now apply wf_dict_del |]. split; [lia |]. split.
    { intros k Hk. apply keys_dict_del in Hk as [Hk _].
      now apply keys_dict_set in Hk. }
    split; [lia |]. intros _.
    exists ko, (po, to). split; [now apply In_dict_get |]. split.
    { intros k' [p' t'] Hg. cbn. apply (Hmin k' p' t'). now apply dict_get_In. }
    split; [reflexivity |]. split; [apply dict_get_del_eq | assumption].
  - apply Z.ltb_ge in E.
    split; [assumption |]. split; [assumption |]. split.
    { intros k Hk. now apply keys_dict_set in Hk. }
    split; [reflexivity | lia].
Qed.

Lemma run_sets_app (max_size : Z) d (xs ys : list (set_op payload)) :
  run_sets max_size d (xs ++ ys) = run_sets max_size (run_sets max_size d xs) ys.
Proof. unfold run_sets. apply fold_left_app. Qed.

(** Starting within the bound, every prefix of sets stays within it. *)
Lemma run_sets_inv (max_size : Z) (ops : list (set_op payload)) d :
  wf d -> (0 <= max_size)%Z -> (Z.of_nat (length d) <= max_size)%Z ->
  wf (run_sets max_size d ops) /\
  (Z.of_nat (length (run_sets max_size d ops)) <= max_size)%Z /\
  (forall k, In k (keys (run_sets max_size d ops)) ->
             In k (keys d) \/ In k (map op_key ops)).
Proof.
  intros Hwf Hm. revert d Hwf.
  induction ops as [| [[k p] now] tl IH]; intros d Hwf Hlen; cbn.
  - repeat split; auto.
  - destruct (_cache_set_step d k p now max_size Hwf Hm Hlen) as (W & L & K & _).
    destruct (IH _ W L) as (W' & L' & K').
    split; [exact W' |]. split; [exact L' |].
    intros k0 Hk0. destruct (K' k0 Hk0) as [H | H]; [| now right; right].
    destruct (K k0 H) as [H' | ->]; [now left | right; now left].
Qed.

(** With fresh keys the size grows by one per set until the bound. *)
Lemma run_sets_length (max_size : Z) (ops : list (set_op payload)) d :
  wf d -> (0 <= max_size)%Z -> (Z.of_nat (length d) <= max_size)%Z ->
  List.NoDup (map op_key ops) ->
  (forall k, In k (map op_key ops) -> ~ In k (keys d)) ->
  Z.of_nat (length (run_sets max_size d ops))
  = Z.min (Z.of_nat (length d + length ops)) max_size.
Proof.
  intros Hwf Hm. revert d Hwf.
  induction ops as [| [[k p] now] tl IH]; intros d Hwf Hlen ND Hfresh; cbn.
  - rewrite Nat.add_0_r. lia.
  - cbn in ND. apply NoDup_cons_iff in ND as [Hk ND].
    destruct (_cache_set_step d k p now max_size Hwf Hm Hlen) as (W & L & K & Hfit & Hev).
    assert (Hd1 : dict_set d k (p, now) = d ++ [(k, (p, now))]).
    { apply dict_set_new. apply Hfresh. now left. }
    assert (Hl1 : length (dict_set d k (p, now)) = S (length d)).
    { rewrite Hd1, length_app. cbn. lia. }
    change (fold_left (apply_set max_size) tl (apply_set max_size d (k, p, now)))
      with (run_sets max_size (_cache_set d k p now max_size) tl).
    rewrite IH; try assumption.
    + destruct (Z_le_gt_dec (Z.of_nat (length (dict_set d k (p, now)))) max_size) as [Hc | Hc].
      * rewrite (Hfit Hc), Hl1. lia.
      * destruct (Hev ltac:(lia)) as (ko & eo & _ & _ & _ & _ & Hs). lia.
    + intros k0 Hk0 Hin. destruct (K k0 Hin) as [H | ->].
      * apply (Hfresh k0); [now right | assumption].
      * contradiction.
Qed.

(** C2.  From an empty cache and for distinct keys: after each [_cache_set]
    the cache holds at most [max_size] entries; when the insertion exceeds
    the bound the entry removed has the earliest timestamp of all entries
    present; a run longer than the bound ends with exactly [max_size]
    entries.  A [_cache_get] on an entry whose age has reached the TTL
    returns a miss and removes that entry (and no other). *)
Theorem C2_cache_bound_eviction_ttl (max_size : Z) (ops : list (set_op payload)) :
  (0 <= max_size)%Z ->
  List.NoDup (map op_key ops) ->
  (forall pre o suf, ops = pre ++ o :: suf ->
     let d := run_sets max_size [] pre in
     let d1 := dict_set d (op_key o) (snd (fst o), snd o) in
     let d' := run_sets max_size [] (pre ++ [o]) in
     (Z.of_nat (length d') <= max_size)%Z /\
     ((max_size < Z.of_nat (length d1))%Z ->
        exists ko eo,
          dict_get d1 ko = Some eo /\
          (forall k' e', dict_get d1 k' = Some e' -> (snd eo <= snd e')%Z) /\
          d' = dict_del d1 ko /\ dict_get d' ko = None))
  /\ ((max_size < Z.of_nat (length ops))%Z ->
      Z.of_nat (length (run_sets max_size [] ops)) = max_size)
  /\ (forall d key p ts (ttl now : Z),
        dict_get d key = Some (p, ts) -> (ttl <= now - ts)%Z ->
        fst (_cache_get d key ttl now) = None /\
        dict_get (snd (_cache_get d key ttl now)) key = None /\
        forall k', k' <> key ->
          dict_get (snd (_cache_get d key ttl now)) k' = dict_get d k').
Proof.
  intros Hm ND. split; [| split].
  - intros pre o suf -> d d1 d'.
    assert (Hnil : wf ([] : cache_dict payload)) by constructor.
    destruct (run_sets_inv max_size pre [] Hnil Hm ltac:(cbn; lia)) as (W & L & _).
    fold d in W, L.
    destruct o as [[k p] now].
    destruct (_cache_set_step d k p now max_size W Hm L) as (_ & L' & _ & _ & Hev).
    assert (E : d' = _cache_set d k p now max_size).
    { subst d'. rewrite run_sets_app. reflexivity. }
    rewrite E. split; [exact L' |].
    intros Hgt. destruct (Hev Hgt) as (ko & eo & H1 & H2 & H3 & H4 & _).
    exists ko, eo. auto.
  - intros Hgt.
    assert (Hnil : wf ([] : cache_dict payload)) by constructor.
    rewrite (run_sets_length max_size ops [] Hnil Hm ltac:(cbn; lia) ND);
      [cbn; lia | intros k _ []].
  - intros d key p ts ttl now Hg Hold.
    unfold _cache_get. rewrite Hg.
    assert ((now - ts <? ttl)%Z = false) as -> by (apply Z.ltb_ge; lia).
    cbn. split; [reflexivity |]. split; [apply dict_get_del_eq |].
    intros k' Hne. now apply dict_get_del_ne.
Qed.

End WithPayload.

Example run_three_sets :
  run_sets 2 [] three_sets
  = [ ("AAPL:1d"%string, (1%nat, 100%Z)); ("ENI.MI:1w"%string, (3%nat, 200%Z)) ].
Proof. vm_compute. reflexivity. Qed.

Lemma C2_cache_bound_eviction_ttl_witness :
  Z.of_nat (length (run_sets 2 [] three_sets)) = 2%Z
  /\ dict_get (run_sets 2 [] three_sets) "MSFT:1d" = None
  /\ _cache_get (run_sets 2 [] three_sets) "AAPL:1d" 120 220
     = (None, [ ("ENI.MI:1w"%string, (3%nat, 200%Z)) ]).
Proof.
  assert (ND : List.NoDup (map op_key three_sets)).
  { repeat constructor; cbn; intuition discriminate. }
  destruct (C2_cache_bound_eviction_ttl 2 three_sets ltac:(lia) ND) as (Hstep & Hsize & Hget).
  split; [apply Hsize; cbn; lia |].
  split; [vm_compute; reflexivity |].
  destruct (Hget (run_sets 2 [] three_sets) "AAPL:1d"%string 1%nat 100%Z 120%Z 220%Z
              eq_refl ltac:(lia)) as (H1 & H2 & H3).
  vm_compute. reflexivity.
Defined.

End CacheFacts.

(** ** Ticker resolver *)

Module TickerFacts.
Import Ticker.

Example candidates_1abc :
  ticker_candidates (s " 1eni ") = [s "1ENI.MI"; s "1ENI"; s "ENI"].
Proof. vm_compute. reflexivity. Qed.

Example candidates_suffix :
  ticker_candidates (s "1eni.mi") = [s "1ENI.MI"; s "ENI.MI"].
Proof. vm_compute. reflexivity. Qed.

Example candidates_long :
  ticker_candidates (s "1ABCDEFG") = [s "1ABCDEFG"].
Proof. vm_compute. reflexivity. Qed.

(** *** Character classes *)

Ltac by_ascii c :=
  destruct c as [[] [] [] [] [] [] [] []]; vm_compute; intuition congruence.

Lemma digit_facts (c : ascii) :
  is_digit c = true ->
  is_space c = false /\ is_AZ c = false /\ upper_char c = c /\
  Ascii.eqb c " " = false /\ Ascii.eqb "." c = false.
Proof. by_ascii c. Qed.

Lemma AZ_facts (c : ascii) :
  is_AZ c = true ->
  is_space c = false /\ is_digit c = false /\ upper_char c = c /\
  Ascii.eqb c " " = false /\ Ascii.eqb "." c = false.
Proof. by_ascii c. Qed.

Lemma letter_facts (c : ascii) :
  is_letter c = true -> is_space c = false /\ is_AZ (upper_char c) = true.
Proof. by_ascii c. Qed.

(** *** Lists of characters *)

Lemma take_while_all f (xs rest : str) :
  all f xs -> take_while f rest = [] -> take_while f (xs ++ rest) = xs.
Proof.
  intros H Hr. induction H as [| c xs Hc _ IH]; cbn; [exact Hr |].
  now rewrite Hc, IH.
Qed.

Lemma drop_while_all f (xs rest : str) :
  all f xs -> drop_while f rest = rest -> drop_while f (xs ++ rest) = rest.
Proof.
  intros H Hr. induction H as [| c xs Hc _ IH]; cbn; [exact Hr |].
  now rewrite Hc.
Qed.

Lemma take_while_none f (t : str) : none f t -> take_while f t = [].
Proof. intros H. destruct H as [| c t Hc _]; cbn; [reflexivity | now rewrite Hc]. Qed.

Lemma drop_while_none f (t : str) : none f t -> drop_while f t = t.
Proof. intros H. destruct H as [| c t Hc _]; cbn; [reflexivity | now rewrite Hc]. Qed.

Lemma strip_none (t : str) : none is_space t -> strip t = t.
Proof.
  intros H. unfold strip, lstrip, rstrip.
  rewrite (drop_while_none _ t H).
  rewrite drop_while_none; [apply rev_involutive |].
  unfold none. apply List.Forall_forall. intros c Hc. apply in_rev in Hc.
  revert c Hc. now apply List.Forall_forall.
Qed.

Lemma remove_spaces_id (t : str) :
  Forall (fun c => Ascii.eqb c " " = false) t -> remove_spaces t = t.
Proof.
  intros H. unfold remove_spaces.
  induction H as [| c t Hc _ IH]; cbn [List.filter]; [reflexivity |].
  now rewrite Hc, IH.
Qed.

Lemma existsb_dot_false (t : str) :
  Forall (fun c => Ascii.eqb "." c = false) t -> existsb (Ascii.eqb ".") t = false.
Proof.
  intros H. induction H as [| c t Hc _ IH]; cbn [existsb]; [reflexivity |].
  now rewrite Hc, IH.
Qed.

Lemma str_eqb_eq (a b : str) : str_eqb a b = true <-> a = b.
Proof.
  revert b. induction a as [| x a IH]; intros [| y b]; cbn; try (split; congruence).
  rewrite andb_true_iff, Ascii.eqb_eq, IH. split; [intros [-> ->] | intros [= -> ->]]; auto.
Qed.

Lemma str_eqb_length (a b : str) : length a <> length b -> str_eqb a b = false.
Proof.
  intros H. destruct (str_eqb a b) eqn:E; [| reflexivity].
  apply str_eqb_eq in E. congruence.
Qed.

(** *** A canonical symbol: digits, then one to six capitals *)

Section Canonical.

Variables ds LS : str.
Hypothesis ds_digits : all is_digit ds.
Hypothesis ds_nonempty : ds <> [].
Hypothesis LS_caps : all is_AZ LS.
Hypothesis LS_len : (1 <= length LS <= 6)%nat.

Let T : str := ds ++ LS.

Lemma T_no_space : none is_space T.
Proof.
  unfold T, none. apply List.Forall_app. split.
  - eapply List.Forall_impl; [| exact ds_digits]. intros c H. now apply digit_facts.
  - eapply List.Forall_impl; [| exact LS_caps]. intros c H. now apply AZ_facts.
Qed.

Lemma T_upper : upper T = T.
Proof.
  unfold T, upper. rewrite <- (map_id (ds ++ LS)) at 2.
  apply map_ext_in. intros c Hc. apply in_app_or in Hc as [Hc | Hc].
  - unfold all in ds_digits. rewrite List.Forall_forall in ds_digits.
    now apply digit_facts, ds_digits.
  - unfold all in LS_caps. rewrite List.Forall_forall in LS_caps.
    now apply AZ_facts, LS_caps.
Qed.

Lemma T_remove_spaces : remove_spaces T = T.
Proof.
  apply remove_spaces_id. unfold T. apply List.Forall_app. split.
  - eapply List.Forall_impl; [| exact ds_digits]. intros c H. now apply digit_facts.
  - eapply List.Forall_impl; [| exact LS_caps]. intros c H. now apply AZ_facts.
Qed.

Lemma T_no_dot : existsb (Ascii.eqb ".") T = false.
Proof.
  apply existsb_dot_false. unfold T. apply List.Forall_app. split.
  - eapply List.Forall_impl; [| exact ds_digits]. intros c H. now apply digit_facts.
  - eapply List.Forall_impl; [| exact LS_caps]. intros c H. now apply AZ_facts.
Qed.

Lemma LS_not_digits : none is_digit LS.
Proof. eapply List.Forall_impl; [| exact LS_caps]. intros c H. now apply AZ_facts. Qed.

Lemma T_digits : take_while is_digit T = ds /\ drop_while is_digit T = LS.
Proof.
  unfold T. split.
  - apply take_while_all; [assumption | apply take_while_none, LS_not_digits].
  - apply drop_while_all; [assumption | apply drop_while_none, LS_not_digits].
Qed.

Lemma LS_letters : take_while is_AZ LS = LS /\ drop_while is_AZ LS = [].
Proof.
  rewrite <- (app_nil_r LS) at 1 3. split.
  - now apply take_while_all.
  - now apply drop_while_all.
Qed.

Lemma ds_length : (1 <= length ds)%nat.
Proof. destruct ds; cbn; [congruence | lia]. Qed.

Lemma T_match : match_digits_letters T = true.
Proof.
  unfold match_digits_letters.
  destruct T_digits as [-> ->]. destruct LS_letters as [-> ->].
  pose proof ds_length.
  repeat (apply andb_true_iff; split); try apply Nat.leb_le; try lia. reflexivity.
Qed.

Lemma T_match_suffix : match_digits_letters_suffix T = true.
Proof.
  unfold match_digits_letters_suffix.
  destruct T_digits as [-> ->]. destruct LS_letters as [-> ->].
  pose proof ds_length.
  repeat (apply andb_true_iff; split); try apply Nat.leb_le; try lia. reflexivity.
Qed.

Lemma T_nonempty : nonempty T = true.
Proof. unfold T. destruct ds; [congruence | reflexivity]. Qed.

Lemma T_normalize : normalize_ticker T = LS.
Proof.
  unfold normalize_ticker. rewrite T_nonempty. cbn [negb].
  rewrite (strip_none T T_no_space), T_upper, T_remove_spaces, T_match_suffix.
  apply T_digits.
Qed.

Lemma T_candidates : ticker_candidates T = [T ++ s ".MI"; T; LS].
Proof.
  unfold ticker_candidates.
  rewrite (strip_none T T_no_space), T_upper, T_remove_spaces, T_normalize.
  rewrite T_nonempty, T_no_dot, T_match. cbn [negb andb fold_left].
  pose proof ds_length as Hd.
  assert (E1 : str_eqb T (T ++ s ".MI") = false).
  { apply str_eqb_length. rewrite length_app. cbn. lia. }
  assert (E2 : str_eqb LS (T ++ s ".MI") = false).
  { apply str_eqb_length. unfold T. rewrite !length_app. cbn. lia. }
  assert (E3 : str_eqb LS T = false).
  { apply str_eqb_length. unfold T. rewrite length_app. lia. }
  unfold add_candidate at 2. rewrite T_nonempty. cbn [mem existsb]. rewrite E1.
  cbn [orb negb andb app].
  unfold add_candidate. cbn [mem existsb]. rewrite E2, E3.
  assert (nonempty LS = true) as -> by (destruct LS; cbn in *; [lia | reflexivity]).
  reflexivity.
Qed.

Lemma T_candidates_NoDup : List.NoDup [T ++ s ".MI"; T; LS].
Proof.
  pose proof ds_length as Hd.
  assert (L1 : length (T ++ s ".MI") = (length ds + length LS + 3)%nat).
  { unfold T. rewrite !length_app. reflexivity. }
  assert (L2 : length T = (length ds + length LS)%nat).
  { unfold T. now rewrite length_app. }
  assert (Hlen : forall a b : str, length a <> length b -> a <> b) by congruence.
  apply List.NoDup_cons; [| apply List.NoDup_cons; [| apply List.NoDup_cons; [| apply List.NoDup_nil]]];
    cbn [In]; intros H;
    repeat (destruct H as [H | H]; [revert H; apply Hlen; lia |]);
    exact H.
Qed.

End Canonical.

(** C3, as stated, fails: with seven letters after the digit the pattern
    [^\d+[A-Z]{1,6}$] does not match and the only candidate is the raw
    symbol, which has no suffix. *)
Lemma C3_counterexample_seven_letters :
  digits_then_letters (s "1ABCDEFG")
  /\ existsb (Ascii.eqb ".") (s "1ABCDEFG") = false
  /\ ticker_candidates (s "1ABCDEFG") = [s "1ABCDEFG"]
  /\ ~ exists c, In c (ticker_candidates (s "1ABCDEFG")) /\ has_suffix c.
Proof.
  split; [| split; [reflexivity | split; [vm_compute; reflexivity |]]].
  - exists (s "1"), (s "ABCDEFG"). split; [reflexivity |].
    split; [discriminate |]. split; [repeat constructor |].
    split; [discriminate | repeat constructor].
  - intros (c & Hin & base & sfx & -> & _).
    assert (E : ticker_candidates (s "1ABCDEFG") = [s "1ABCDEFG"]) by (vm_compute; reflexivity).
    rewrite E in Hin. destruct Hin as [Hin | []].
    assert (Hd : In "."%char (s "1ABCDEFG")).
    { rewrite Hin. apply in_or_app. right. now left. }
    cbn in Hd. intuition discriminate.
Qed.

(** C3, amended.  For an input made of a non-empty run of digits followed
    by one to six letters, the candidates are, in order, the uppercased
    input with the suffix [.MI], the uppercased input, and its
    digit-stripped normalized form; they are pairwise distinct. *)
Theorem C3_candidates_digits_then_up_to_six_letters (ds ls : str) :
  ds <> [] -> all is_digit ds -> all is_letter ls ->
  (1 <= length ls <= 6)%nat ->
  let raw := ds ++ ls in
  let raw_up := upper raw in
  let cands := ticker_candidates raw in
  cands = [raw_up ++ s ".MI"; raw_up; upper ls]
  /\ normalize_ticker raw_up = upper ls
  /\ (exists c, In c cands /\ has_suffix c)
  /\ In raw_up cands
  /\ In (normalize_ticker raw_up) cands
  /\ List.NoDup cands.
Proof.
  intros Hne Hds Hls Hlen raw raw_up cands.
  assert (HLS : all is_AZ (upper ls)).
  { unfold all, upper. apply List.Forall_map.
    eapply List.Forall_impl; [| exact Hls]. intros c H. now apply letter_facts. }
  assert (HLn : (1 <= length (upper ls) <= 6)%nat).
  { unfold upper. now rewrite length_map. }
  assert (Hup : raw_up = ds ++ upper ls).
  { subst raw_up raw. unfold upper. rewrite map_app. f_equal.
    rewrite <- (map_id ds) at 2. apply map_ext_in. intros c Hc.
    unfold all in Hds. rewrite List.Forall_forall in Hds. now apply digit_facts, Hds. }
  assert (Hsp : none is_space raw).
  { subst raw. apply List.Forall_app. split.
    - eapply List.Forall_impl; [| exact Hds]. intros c H. now apply digit_facts.
    - eapply List.Forall_impl; [| exact Hls]. intros c H. now apply letter_facts. }
  assert (Hc : cands = [raw_up ++ s ".MI"; raw_up; upper ls]).
  { subst cands. unfold ticker_candidates.
    rewrite (strip_none raw Hsp). fold raw_up. rewrite Hup.
    rewrite (T_remove_spaces ds (upper ls) Hds HLS).
    pose proof (T_candidates ds (upper ls) Hds Hne HLS HLn) as E.
    unfold ticker_candidates in E.
    rewrite (strip_none _ (T_no_space ds (upper ls) Hds HLS)) in E.
    rewrite (T_upper ds (upper ls) Hds HLS) in E.
    rewrite (T_remove_spaces ds (upper ls) Hds HLS) in E.
    exact E. }
  assert (Hn : normalize_ticker raw_up = upper ls).
  { rewrite Hup. now apply T_normalize. }
  split; [exact Hc |]. split; [exact Hn |]. rewrite Hn, Hc.
  split; [| split; [| split]].
  - exists (raw_up ++ s ".MI"). split; [now left |].
    exists raw_up, (s "MI"). split; [reflexivity | discriminate].
  - right. now left.
  - right. right. now left.
  - rewrite Hup. now apply T_candidates_NoDup.
Qed.

Lemma C3_candidates_digits_then_up_to_six_letters_witness :
  ticker_candidates (s "1eni") = [s "1ENI.MI"; s "1ENI"; s "ENI"].
Proof.
  assert (H1 : s "1" <> []) by discriminate.
  assert (H2 : all is_digit (s "1")) by (repeat constructor).
  assert (H3 : all is_letter (s "eni")) by (repeat constructor).
  assert (H4 : (1 <= length (s "eni") <= 6)%nat) by (cbn; lia).
  exact (proj1 (C3_candidates_digits_then_up_to_six_letters (s "1") (s "eni") H1 H2 H3 H4)).
Defined.

End TickerFacts.

(** ** Supply/demand zones *)

Module ZonesFacts.
Import Zones.

Lemma filter_none {A : Type} (f : A -> bool) (l : list A) :
  (forall x, In x l -> f x = false) -> List.filter f l = [].
Proof.
  induction l as [| x l IH]; cbn; [reflexivity |]. intros H.
  rewrite (H x (or_introl eq_refl)). apply IH. intros y Hy. apply H. now right.
Qed.

Example state_between :
  determine_market_state 100 [z 99 98 100] [z 110 109 111] (3 # 2)
  = Result IN_DEMAND (9899 # 100).
Proof. vm_compute. reflexivity. Qed.

Example state_no_resistance :
  determine_market_state 100 [z 99 98 100] [z 90 89 91] (3 # 2) = Result IN_NONE 0.
Proof. vm_compute. reflexivity. Qed.

(** C10.  When no support zone is priced at or below the current price, or
    no resistance zone at or above it, the market state is [IN_NONE] with
    strength 0, whatever the other side holds. *)
Theorem C10_market_state_one_side_missing
    (p : Q) (supports resistances : list zone) (proximity : Q) :
  (forall s, In s supports -> ~ price s <= p) \/
  (forall r, In r resistances -> ~ p <= price r) ->
  determine_market_state p supports resistances proximity = Result IN_NONE 0.
Proof.
  intros H. unfold determine_market_state.
  destruct H as [H | H].
  - rewrite (filter_none (fun z => Qleb (price z) p) supports).
    + reflexivity.
    + intros s Hs. specialize (H s Hs).
      destruct (Qleb (price s) p) eqn:E; [| reflexivity].
      apply Qleb_le in E. contradiction.
  - rewrite (filter_none (fun z => Qleb p (price z)) resistances).
    + cbn. now destruct (py_max _).
    + intros r Hr. specialize (H r Hr).
      destruct (Qleb p (price r)) eqn:E; [| reflexivity].
      apply Qleb_le in E. contradiction.
Qed.

Lemma C10_market_state_one_side_missing_witness :
  determine_market_state 100 [z 99 98 100] [z 90 89 91] (3 # 2) = Result IN_NONE 0.
Proof.
  apply C10_market_state_one_side_missing. right.
  intros r [<- | []]. cbn. intros H. apply Qle_bool_iff in H. discriminate.
Defined.

End ZonesFacts.

(** ** Fundamentals merge *)

Module FundamentalsFacts.
Import Ticker Fundamentals.

Section WithBuiltins.

Variable py_float : str -> option fval.
Variable py_str : pyval -> str.

Local Abbreviation merge_item := (merge_item py_float py_str).
Local Abbreviation _merge_missing_info := (_merge_missing_info py_float py_str).
Local Abbreviation fills := (fills py_float py_str).

Lemma merge_item_lookup (target : gmap string pyval) (kv : string * pyval) (k : string) :
  merge_item target kv !! k = target !! k
  \/ exists w, merge_item target kv !! k = Some w /\ fills target kv k w.
Proof.
  unfold merge_item, fills. destruct kv as [k0 v]. cbn [fst snd].
  destruct (not_none (target !! k0)) eqn:Hn; [now left |].
  destruct (is_none v) eqn:Hv; [now left |]. cbn [orb].
  destruct (decide (k0 = k)) as [-> | Hne].
  - destruct (existsb (String.eqb k) text_keys) eqn:Ht.
    + destruct (_to_text py_str v) as [txt |] eqn:Htx; [| now left].
      right. exists (PStr txt). rewrite lookup_insert_eq. eauto 10.
    + destruct (_to_float py_float v) as [num |] eqn:Hfl; [| now left].
      right. exists (PFloat (Finite num)). rewrite lookup_insert_eq. eauto 10.
  - left. destruct (existsb (String.eqb k0) text_keys).
    + destruct (_to_text py_str v); [now rewrite lookup_insert_ne | reflexivity].
    + destruct (_to_float py_float v); [now rewrite lookup_insert_ne | reflexivity].
Qed.

Lemma merge_item_keeps (target : gmap string pyval) (kv : string * pyval) (k : string) :
  not_none (target !! k) = true -> merge_item target kv !! k = target !! k.
Proof.
  intros H. destruct (merge_item_lookup target kv k) as [E | (w & _ & Hf)]; [exact E |].
  destruct Hf as (_ & Hn & _). congruence.
Qed.

Lemma fills_not_none (target : gmap string pyval) kv k w :
  fills target kv k w -> not_none (Some w) = true.
Proof.
  intros (_ & _ & _ & [[_ (txt & _ & ->)] | [_ (num & _ & ->)]]); reflexivity.
Qed.

Lemma fold_keeps (items : list (string * pyval)) (target : gmap string pyval) (k : string) :
  not_none (target !! k) = true -> fold_left merge_item items target !! k = target !! k.
Proof.
  revert target. induction items as [| kv tl IH]; intros target H; cbn; [reflexivity |].
  rewrite IH; rewrite merge_item_keeps; auto.
Qed.

Lemma fold_lookup (items : list (string * pyval)) (target : gmap string pyval) (k : string) :
  fold_left merge_item items target !! k = target !! k
  \/ exists v w,
       In (k, v) items /\ is_none v = false /\ not_none (target !! k) = false /\
       fold_left merge_item items target !! k = Some w /\
       ((existsb (String.eqb k) text_keys = true /\
           exists txt, _to_text py_str v = Some txt /\ w = PStr txt)
        \/ (existsb (String.eqb k) text_keys = false /\
           exists num, _to_float py_float v = Some num /\ w = PFloat (Finite num))).
Proof.
  revert target. induction items as [| kv tl IH]; intros target; cbn [fold_left].
  - now left.
  - destruct (merge_item_lookup target kv k) as [E | (w & Hw & Hf)].
    + destruct (IH (merge_item target kv)) as [E' | (v & w & Hin & Hv & Hn & Hr & Hc)].
      * left. congruence.
      * right. exists v, w. rewrite E in Hn. split; [now right |]. auto.
    + right. pose proof (fills_not_none _ _ _ _ Hf) as Hnn.
      destruct Hf as (Hk & Hn & Hv & Hc). destruct kv as [k0 v]. cbn [fst snd] in *.
      subst k0. exists v, w. split; [now left |]. split; [exact Hv |].
      split; [exact Hn |]. split; [| exact Hc].
      rewrite fold_keeps; [exact Hw |]. now rewrite Hw.
Qed.

(** C8.  [_merge_missing_info] leaves every field whose accumulator value is
    not [None] unchanged.  A field it changes was absent or [None] in the
    accumulator, and its new value is the coercion ([_to_text] for the text
    keys, [_to_float] otherwise) of a non-[None] value the source holds for
    that key. *)
Theorem C8_merge_only_fills_null_slots
    (target : gmap string pyval) (source : pyval) (k : string) :
  (forall v, target !! k = Some v -> v <> PNone ->
             _merge_missing_info target source !! k = Some v)
  /\ (_merge_missing_info target source !! k <> target !! k ->
      (target !! k = None \/ target !! k = Some PNone)
      /\ exists items v w,
           source = PDict items /\ In (k, v) items /\ v <> PNone /\
           _merge_missing_info target source !! k = Some w /\
           ((In k text_keys /\ exists txt, _to_text py_str v = Some txt /\ w = PStr txt)
            \/ (~ In k text_keys /\
                exists num, _to_float py_float v = Some num /\ w = PFloat (Finite num)))).
Proof.
  split.
  - intros v Hv Hnn. destruct source; cbn; try exact Hv.
    rewrite fold_keeps; [exact Hv |]. rewrite Hv. now destruct v.
  - intros Hch. destruct source as [| | | | | items |]; cbn in Hch; try congruence.
    destruct (fold_lookup items target k) as [E | (v & w & Hin & Hv & Hn & Hr & Hc)];
      [congruence |].
    split.
    { destruct (target !! k) as [[]|]; cbn in Hn; try discriminate; auto. }
    exists items, v, w. split; [reflexivity |]. split; [exact Hin |].
    split; [now destruct v |]. split; [exact Hr |].
    assert (Hmem : forall b, existsb (String.eqb k) text_keys = b ->
                             if b then In k text_keys else ~ In k text_keys).
    { intros b Hb. destruct b.
      - apply existsb_exists in Hb as (x & Hx & Hxe).
        apply String.eqb_eq in Hxe. now subst.
      - intros Hk. assert (existsb (String.eqb k) text_keys = true); [| congruence].
        apply existsb_exists. exists k. split; [exact Hk | apply String.eqb_refl]. }
    destruct Hc as [[Ht Hx] | [Ht Hx]]; [left | right]; (split; [exact (Hmem _ Ht) | exact Hx]).
Qed.

End WithBuiltins.

Example merge_sample :
  let r := _merge_missing_info (fun _ => None) (fun _ => []) sample_target sample_source in
  r !! "beta"%string = Some (PFloat (Finite (11 # 10)))
  /\ r !! "marketCap"%string = Some (PFloat (Finite 5000))
  /\ r !! "shortName"%string = Some (PStr (s "Eni"))
  /\ r !! "sector"%string = None
  /\ r !! "trailingPE"%string = None.
Proof. vm_compute. repeat split. Qed.

Lemma C8_merge_only_fills_null_slots_witness :
  let r := _merge_missing_info (fun _ => None) (fun _ => []) sample_target sample_source in
  r !! "beta"%string = Some (PFloat (Finite (11 # 10)))
  /\ (sample_target !! "marketCap"%string = None
      \/ sample_target !! "marketCap"%string = Some PNone).
Proof.
  cbv zeta. split.
  - apply (proj1 (C8_merge_only_fills_null_slots (fun _ => None) (fun _ => [])
                    sample_target sample_source "beta")).
    + vm_compute. reflexivity.
    + discriminate.
  - apply (proj2 (C8_merge_only_fills_null_slots (fun _ => None) (fun _ => [])
                    sample_target sample_source "marketCap")).
    vm_compute. discriminate.
Defined.

End FundamentalsFacts.

(** ** Seasonality *)

Module SeasonalityFacts.
Import Seasonality.

Lemma clip_notna (lo hi v : fval) : notna (clip lo hi v) = notna v.
Proof.
  destruct v; cbn [clip notna]; try reflexivity;
    match goal with
    | |- context [fval_ltb ?a lo] =>
        destruct (fval_ltb a lo) eqn:E1;
        [ destruct lo; try discriminate E1 | ];
        match goal with
        | |- context [fval_ltb hi ?b] =>
            destruct (fval_ltb hi b) eqn:E2;
            [ destruct hi; try discriminate E2 | ]; reflexivity
        end
    end.
Qed.

(** A column rewrite that keeps years and missingness keeps the month
    counts of every year. *)
Lemma valid_months_map (f : row -> row) (df : list row) (year : Z) :
  (forall r, Year (f r) = Year r) ->
  (forall r, notna (MonthlyReturnPct (f r)) = notna (MonthlyReturnPct r)) ->
  valid_months (group_of (map f df) year) = valid_months (group_of df year).
Proof.
  intros HY HN. unfold valid_months, group_of.
  induction df as [| r df IH]; cbn [map List.filter]; [reflexivity |].
  rewrite HY. destruct (Year r =? year)%Z; [| exact IH].
  cbn [map List.filter]. rewrite HN.
  destruct (notna (MonthlyReturnPct r)); cbn [length]; now rewrite IH.
Qed.

Lemma valid_months_winsorize nanquantile (df : list row) (year : Z) :
  valid_months (group_of (winsorize nanquantile df) year)
  = valid_months (group_of df year).
Proof.
  unfold winsorize.
  destruct (List.filter notna (map MonthlyReturnPct df)); [reflexivity |].
  apply valid_months_map; intros r; [reflexivity | apply clip_notna].
Qed.

(** A year that fails the inclusion test is never written. *)
Lemma year_step_excluded (df : list row) (current_year year : Z) (acc : curves) (y : Z) :
  year <> current_year -> (valid_months (group_of df year) < 6)%nat ->
  fst acc !! year = None -> snd acc !! year = None ->
  fst (year_step df current_year acc y) !! year = None
  /\ snd (year_step df current_year acc y) !! year = None.
Proof.
  intros Hne Hlt H1 H2. unfold year_step.
  destruct (Z.eq_dec y year) as [-> | Hy].
  - assert ((year =? current_year)%Z = false) as -> by (now apply Z.eqb_neq).
    assert ((valid_months (group_of df year) <? 6)%nat = true) as ->
        by (now apply Nat.ltb_lt).
    cbn. auto.
  - destruct (negb (y =? current_year)%Z && (valid_months (group_of df y) <? 6)%nat);
      [auto |].
    destruct (existsb is_some (monthly_curve_of (group_of df y))); [| auto].
    cbn [fst snd]. rewrite !lookup_insert_ne by assumption. auto.
Qed.

Lemma fold_year_step_excluded (df : list row) (current_year year : Z)
    (ys : list Z) (acc : curves) :
  year <> current_year -> (valid_months (group_of df year) < 6)%nat ->
  fst acc !! year = None -> snd acc !! year = None ->
  fst (fold_left (year_step df current_year) ys acc) !! year = None
  /\ snd (fold_left (year_step df current_year) ys acc) !! year = None.
Proof.
  intros Hne Hlt. revert acc.
  induction ys as [| y ys IH]; intros acc H1 H2; cbn [fold_left]; [auto |].
  destruct (year_step_excluded df current_year year acc y Hne Hlt H1 H2) as [H1' H2'].
  now apply IH.
Qed.

Example past_short_year_dropped :
  seasonal_curves (fun _ _ => NaN) (five_months_2020 ++ two_months) false 2024
  = ({[ 2024%Z := Some 10 :: Some (-5) :: repeat None 10 ]},
     {[ 2024%Z := Some 10 :: Some (9 # 2) :: repeat None 10 ]}).
Proof. vm_compute. reflexivity. Qed.

(** C6.  A year other than the current one with fewer than 6 populated
    monthly returns is absent from [seasonalCurveByYear] (and from the
    cumulative dict), with or without outlier clipping; compounding the
    monthly returns [10, -5] gives the cumulative values [10.0, 4.5]. *)
Theorem C6_seasonality_year_filter_and_compounding
    (nanquantile : list fval -> Q -> fval) :
  (forall (df : list row) (exclude_outliers : bool) (current_year year : Z),
      year <> current_year ->
      (valid_months (group_of df year) < 6)%nat ->
      seasonalCurveByYear (seasonal_curves nanquantile df exclude_outliers current_year)
        !! year = None
      /\ cumulativeCurveByYear (seasonal_curves nanquantile df exclude_outliers current_year)
        !! year = None)
  /\ cumulative_curve_of (Some 10 :: Some (-5) :: repeat None 10)
     = Some 10 :: Some (9 # 2) :: repeat None 10
  /\ cumulativeCurveByYear (seasonal_curves nanquantile two_months false 2024) !! 2024%Z
     = Some (Some 10 :: Some (9 # 2) :: repeat None 10).
Proof.
  split; [| split].
  - intros df exclude_outliers current_year year Hne Hlt.
    unfold seasonalCurveByYear, cumulativeCurveByYear, seasonal_curves.
    apply fold_year_step_excluded; try assumption; try apply lookup_empty.
    destruct exclude_outliers; [| exact Hlt].
    now rewrite valid_months_winsorize.
  - vm_compute. reflexivity.
  - vm_compute. reflexivity.
Qed.

Lemma C6_seasonality_year_filter_and_compounding_witness :
  seasonalCurveByYear
    (seasonal_curves (fun _ _ => NaN) (five_months_2020 ++ two_months) true 2024)
    !! 2020%Z = None.
Proof.
  apply (proj1 (C6_seasonality_year_filter_and_compounding (fun _ _ => NaN))
           (five_months_2020 ++ two_months) true 2024%Z 2020%Z).
  - discriminate.
  - vm_compute. lia.
Defined.

End SeasonalityFacts.

(** ** Normalizer and resampling *)

Module ResampleFacts.
Import Resample.

Example epoch : date 1970 1 1 = 0%Z.
Proof. reflexivity. Qed.

Example civil_round_trip : civil_from_days (date 2024 2 29) = (2024, 2, 29)%Z.
Proof. vm_compute. reflexivity. Qed.

Example january_2024_closes : bucket_end ME (bucket_of ME (date 2024 1 15)) = date 2024 1 31.
Proof. vm_compute. reflexivity. Qed.

Example december_closes : bucket_end ME (bucket_of ME (date 2023 12 1)) = date 2023 12 31.
Proof. vm_compute. reflexivity. Qed.

(** 2024-01-15 was a Monday; its week closes on Friday 2024-01-19. *)
Example week_closes : bucket_end W_FRI (bucket_of W_FRI (date 2024 1 15)) = date 2024 1 19.
Proof. vm_compute. reflexivity. Qed.

Example friday_is_closing_day :
  bucket_end W_FRI (bucket_of W_FRI (date 2024 1 19)) = date 2024 1 19
  /\ bucket_end W_FRI (bucket_of W_FRI (date 2024 1 20)) = date 2024 1 26.
Proof. vm_compute. split; reflexivity. Qed.

Example resample_two_months :
  _resample_ohlc
    [ ohlcv (date 2023 11 29) (Finite 10) (Finite 12) (Finite 9) (Finite 11) (Finite 100);
      ohlcv (date 2023 11 30) (Finite 11) (Finite 15) (Finite 10) (Finite 14) (Finite 50);
      ohlcv (date 2024 1 15) (Finite 20) (Finite 21) (Finite 19) NaN (Finite 5);
      ohlcv (date 2024 1 16) NaN (Finite 25) (Finite 18) (Finite 22) NaN ] ME
  = [ ohlcv (date 2023 11 30) (Finite 10) (Finite 15) (Finite 9) (Finite 14) (Finite 150);
      ohlcv (date 2024 1 31) (Finite 20) (Finite 25) (Finite 18) (Finite 22) (Finite 5) ].
Proof. vm_compute. reflexivity. Qed.

(** *** The aggregations *)

Lemma agg_first_head (v : fval) (l : list fval) : notna v = true -> agg_first (v :: l) = v.
Proof. intros H. cbn. now rewrite H. Qed.

Lemma agg_last_snoc (l : list fval) (v : fval) : notna v = true -> agg_last (l ++ [v]) = v.
Proof. intros H. unfold agg_last. rewrite rev_unit. now apply agg_first_head. Qed.

Lemma agg_first_notna (l : list fval) :
  notna (agg_first l) = true ->
  exists pre suf, l = pre ++ agg_first l :: suf /\ Forall (fun v => v = NaN) pre.
Proof.
  induction l as [| v l IH]; cbn; [discriminate |].
  destruct (notna v) eqn:E.
  - intros _. exists [], l. split; [reflexivity | constructor].
  - intros H. destruct (IH H) as (pre & suf & Hl & Hpre).
    exists (v :: pre), suf. split; [cbn; now rewrite <- Hl |].
    constructor; [now destruct v | exact Hpre].
Qed.

Lemma agg_last_notna (l : list fval) :
  notna (agg_last l) = true ->
  exists pre suf, l = pre ++ agg_last l :: suf /\ Forall (fun v => v = NaN) suf.
Proof.
  unfold agg_last. intros H.
  destruct (agg_first_notna (rev l) H) as (pre & suf & Hl & Hpre).
  exists (rev suf), (rev pre). split.
  - assert (E : l = rev (pre ++ agg_first (rev l) :: suf)).
    { rewrite <- Hl. symmetry. apply rev_involutive. }
    rewrite rev_app_distr in E. cbn [rev] in E. rewrite <- app_assoc in E. exact E.
  - apply List.Forall_forall. intros x Hx. apply in_rev in Hx.
    revert x Hx. now apply List.Forall_forall.
Qed.

(** *** The bucket range *)

Lemma fold_min_le (ks : list Z) (k0 : Z) :
  (fold_left Z.min ks k0 <= k0)%Z /\ forall k, In k ks -> (fold_left Z.min ks k0 <= k)%Z.
Proof.
  revert k0. induction ks as [| x ks IH]; intros k0; cbn; [split; [lia | tauto] |].
  destruct (IH (Z.min k0 x)) as [H1 H2]. split; [lia |].
  intros k [<- | Hk]; [lia | now apply H2].
Qed.

Lemma fold_max_ge (ks : list Z) (k0 : Z) :
  (k0 <= fold_left Z.max ks k0)%Z /\ forall k, In k ks -> (k <= fold_left Z.max ks k0)%Z.
Proof.
  revert k0. induction ks as [| x ks IH]; intros k0; cbn; [split; [lia | tauto] |].
  destruct (IH (Z.max k0 x)) as [H1 H2]. split; [lia |].
  intros k [<- | Hk]; [lia | now apply H2].
Qed.

Lemma In_zrange (lo hi k : Z) : (lo <= k <= hi)%Z -> In k (zrange lo hi).
Proof.
  intros H. unfold zrange. apply in_map_iff.
  exists (Z.to_nat (k - lo)). split; [lia |]. apply in_seq. lia.
Qed.

(** Every row of the result aggregates one bucket and has a Close. *)
Lemma resample_row (df : frame) (r : rule) (b : bar) :
  In b (_resample_ohlc df r) ->
  exists k, b = agg_row r df k /\ notna (Close b) = true.
Proof.
  unfold _resample_ohlc, dropna_close.
  destruct (map (fun b0 => bucket_of r (ts b0)) df) as [| k0 ks]; [intros [] |].
  intros H. apply filter_In in H as [H Hc].
  apply in_map_iff in H as (k & <- & _). now exists k.
Qed.

(** Every bucket that holds a row with a Close appears in the result. *)
Lemma resample_has_bucket (df : frame) (r : rule) (x : bar) :
  In x df -> notna (Close (agg_row r df (bucket_of r (ts x)))) = true ->
  In (agg_row r df (bucket_of r (ts x))) (_resample_ohlc df r).
Proof.
  intros Hx Hc. unfold _resample_ohlc, dropna_close.
  assert (Hk : In (bucket_of r (ts x)) (map (fun b0 => bucket_of r (ts b0)) df)).
  { apply in_map_iff. now exists x. }
  destruct (map (fun b0 => bucket_of r (ts b0)) df) as [| k0 ks]; [destruct Hk |].
  apply filter_In. split; [| exact Hc].
  apply in_map. apply In_zrange.
  destruct (fold_min_le ks k0) as [L1 L2]. destruct (fold_max_ge ks k0) as [U1 U2].
  destruct Hk as [<- | Hk]; [lia |]. split; [now apply L2 | now apply U2].
Qed.

(** C4, as stated, fails: [dropna] removes NaN only, so a bucket whose last
    Close is infinite stays in the resampled frame. *)
Lemma C4_counterexample_infinite_close :
  exists b,
    In b (_resample_ohlc
            [ ohlcv (date 2024 1 15) (Finite 10) (Finite 12) (Finite 9) PosInf (Finite 100) ]
            ME)
    /\ isfinite (Close b) = false.
Proof.
  exists (ohlcv (date 2024 1 31) (Finite 10) (Finite 12) (Finite 9) PosInf (Finite 100)).
  split; [vm_compute; now left | reflexivity].
Qed.

(** C4, amended.  Every bar of a resampled frame is the aggregate of one
    non-empty bucket [g] of the daily frame: labelled by the bucket's closing
    day, Open the first and Close the last non-missing value of [g] (so the
    first bar's Open and the last bar's Close when these are present),
    High the maximum, Low the minimum, Volume the sum; and its Close is
    never NaN (it may be infinite). *)
Theorem C4_resample_first_last_and_close_present (df : frame) (r : rule) (b : bar) :
  In b (_resample_ohlc df r) ->
  exists k,
    let g := bucket_rows r df k in
    g <> []
    /\ ts b = bucket_end r k
    /\ Open b = agg_first (map Open g)
    /\ Close b = agg_last (map Close g)
    /\ High b = agg_max (map High g)
    /\ Low b = agg_min (map Low g)
    /\ Volume b = agg_sum (map Volume g)
    /\ (forall x g', g = x :: g' -> notna (Open x) = true -> Open b = Open x)
    /\ (forall g' x, g = g' ++ [x] -> notna (Close x) = true -> Close b = Close x)
    /\ (exists g1 x g2, g = g1 ++ x :: g2 /\ Close b = Close x /\
                        Forall (fun y => Close y = NaN) g2)
    /\ notna (Close b) = true.
Proof.
  intros H. destruct (resample_row df r b H) as (k & -> & Hc).
  exists k. cbv zeta. cbn [agg_row ts Open High Low Close Volume] in *.
  set (g := bucket_rows r df k) in *.
  assert (Hg : g <> []).
  { intros E. rewrite E in Hc. discriminate. }
  repeat (split; [first [exact Hg | reflexivity] |]).
  split; [| split; [| split; [| exact Hc]]].
  - intros x g' -> Hx. now apply agg_first_head.
  - intros g' x -> Hx. rewrite map_app. now apply agg_last_snoc.
  - destruct (agg_last_notna _ Hc) as (pre & suf & Hl & Hs).
    apply map_eq_app in Hl as (g1 & g2' & Hg12 & Hp & Hl).
    apply map_eq_cons in Hl as (x & g2 & -> & Hx & <-).
    exists g1, x, g2. split; [exact Hg12 |]. split; [now symmetry |].
    apply List.Forall_map in Hs. exact Hs.
Qed.

Lemma C4_resample_first_last_and_close_present_witness :
  exists k, bucket_end ME k = date 2024 1 31.
Proof.
  set (df := [ ohlcv (date 2024 1 15) (Finite 20) (Finite 21) (Finite 19) NaN (Finite 5);
               ohlcv (date 2024 1 16) NaN (Finite 25) (Finite 18) (Finite 22) NaN ]).
  assert (Hin : In (ohlcv (date 2024 1 31) (Finite 20) (Finite 25) (Finite 18) (Finite 22)
                          (Finite 5)) (_resample_ohlc df ME)).
  { vm_compute. now left. }
  destruct (C4_resample_first_last_and_close_present df ME _ Hin) as (k & _ & Hts & _).
  exists k. symmetry. exact Hts.
Defined.

(** *** The trailing bucket *)

Example january_partial_monthly :
  _resample_ohlc january_partial ME
  = [ ohlcv (date 2024 1 31) (Finite 98) (Finite 100) (Finite 98) (Finite 100) (Finite 3) ].
Proof. vm_compute. reflexivity. Qed.

Example january_partial_weekly :
  _resample_ohlc january_partial W_FRI
  = [ ohlcv (date 2024 1 12) (Finite 98) (Finite 99) (Finite 98) (Finite 99) (Finite 2);
      ohlcv (date 2024 1 19) (Finite 100) (Finite 100) (Finite 100) (Finite 100) (Finite 1) ].
Proof. vm_compute. reflexivity. Qed.

(** C9, as stated, fails: the daily frame ends on 2024-01-15, before the
    month closes on 2024-01-31 and before the week closes on 2024-01-19,
    yet both reconstructed series contain that trailing bucket. *)
Lemma C9_counterexample_partial_bucket_kept :
  (forall x, In x january_partial -> (ts x <= date 2024 1 15)%Z)
  /\ (date 2024 1 15 < bucket_end ME (bucket_of ME (date 2024 1 15)))%Z
  /\ (date 2024 1 15 < bucket_end W_FRI (bucket_of W_FRI (date 2024 1 15)))%Z
  /\ (exists b, In b (_fetch_interval_history (only_daily january_partial) no_data no_data I_1mo)
                /\ ts b = bucket_end ME (bucket_of ME (date 2024 1 15)))
  /\ (exists b, In b (_fetch_interval_history (only_daily january_partial) no_data no_data I_1wk)
                /\ ts b = bucket_end W_FRI (bucket_of W_FRI (date 2024 1 15))).
Proof.
  split; [| split; [| split; [| split]]].
  - intros x [<- | [<- | [<- | []]]]; vm_compute; discriminate.
  - vm_compute. reflexivity.
  - vm_compute. reflexivity.
  - eexists. split; [vm_compute; left; reflexivity | vm_compute; reflexivity].
  - eexists. split; [vm_compute; right; left; reflexivity | vm_compute; reflexivity].
Qed.

(** Sorting keeps the rows. *)
Lemma In_insert_bar (x y : bar) (l : frame) : In y (insert_bar x l) <-> y = x \/ In y l.
Proof.
  induction l as [| h l IH]; cbn; [intuition |].
  destruct (ts h <? ts x)%Z; cbn; [rewrite IH |]; intuition.
Qed.

Lemma In_normalize (rows : frame) (y : bar) :
  In y (_normalize_ohlc_df (Some rows)) <-> In y rows.
Proof.
  cbn. induction rows as [| x rows IH]; cbn; [tauto |].
  rewrite In_insert_bar, IH. intuition.
Qed.

Lemma normalize_empty (rows : frame) :
  empty (_normalize_ohlc_df (Some rows)) = empty rows.
Proof.
  destruct rows as [| x rows]; [reflexivity |]. cbn.
  destruct (fold_right insert_bar [] rows) as [| h t]; cbn; [reflexivity |].
  now destruct (ts h <? ts x)%Z.
Qed.

(** The last non-missing Close of a bucket, when some row of it has one. *)
Lemma agg_last_present (l : list fval) (v : fval) :
  In v l -> notna v = true -> notna (agg_last l) = true.
Proof.
  unfold agg_last. intros Hin Hv. apply in_rev in Hin. revert Hin.
  induction (rev l) as [| w t IH]; cbn; [tauto |].
  destruct (notna w) eqn:E; [intros _; exact E |].
  intros [-> | H]; [congruence | now apply IH].
Qed.

Lemma resample_keeps_bucket (df : frame) (r : rule) (x : bar) :
  In x df -> notna (Close x) = true ->
  In (agg_row r df (bucket_of r (ts x))) (_resample_ohlc df r).
Proof.
  intros Hx Hc. apply resample_has_bucket; [exact Hx |].
  cbn [agg_row Close]. apply agg_last_present with (v := Close x); [| exact Hc].
  apply in_map. unfold bucket_rows. apply filter_In. split; [exact Hx |].
  apply Z.eqb_refl.
Qed.

(** When the native weekly or monthly requests come back empty and a daily
    frame is available, the result is the resampled daily frame. *)
Lemma fetch_reconstructs (sh sd ch : interval -> option frame) (i : interval) :
  sh i = None -> sd i = None -> is_weekly_or_monthly i = true ->
  empty (_normalize_ohlc_df (sh I_1d)) = false ->
  _fetch_interval_history sh sd ch i
  = let h := _resample_ohlc (_normalize_ohlc_df (sh I_1d))
               (match i with I_1wk => W_FRI | _ => ME end) in
    if empty h then _normalize_ohlc_df (ch i) else h.
Proof.
  intros H1 H2 H3 H4. unfold _fetch_interval_history. cbv zeta.
  rewrite H1, H2. cbn [_normalize_ohlc_df empty andb]. rewrite H3, !H4.
  cbn [negb]. reflexivity.
Qed.

(** C9, amended.  Resampling never drops a bucket for being incomplete: for
    a daily frame whose last row [x] has a Close, the weekly or monthly
    series contains the bucket of [x], labelled by its closing day (which
    may lie after [x]) and closing at [x]'s Close; so does the series
    [_fetch_interval_history] reconstructs when only the daily request is
    answered.  Only buckets without any Close are dropped. *)
Theorem C9_trailing_bucket_is_kept (pre : frame) (x : bar) (r : rule) :
  notna (Close x) = true ->
  let df := pre ++ [x] in
  let k := bucket_of r (ts x) in
  (exists b, In b (_resample_ohlc df r)
             /\ ts b = bucket_end r k /\ Close b = Close x)
  /\ (exists b,
        In b (_fetch_interval_history (only_daily df) no_data no_data
                (match r with W_FRI => I_1wk | ME => I_1mo end))
        /\ ts b = bucket_end r k)
  /\ (forall b, In b (_resample_ohlc df r) -> notna (Close b) = true).
Proof.
  intros Hc df k.
  assert (Hx : In x df) by (apply in_or_app; right; now left).
  split; [| split].
  - exists (agg_row r df k). split; [now apply resample_keeps_bucket |].
    split; [reflexivity |]. cbn [agg_row Close].
    unfold bucket_rows, df. rewrite List.filter_app. cbn [List.filter].
    unfold k. rewrite Z.eqb_refl. rewrite map_app. now apply agg_last_snoc.
  - set (daily := _normalize_ohlc_df (Some df)).
    assert (Hd : In x daily) by (now apply In_normalize).
    assert (He : empty daily = false).
    { unfold daily. rewrite normalize_empty. unfold df. now destruct pre. }
    exists (agg_row r daily k). split; [| reflexivity].
    assert (E : _fetch_interval_history (only_daily df) no_data no_data
                  (match r with W_FRI => I_1wk | ME => I_1mo end)
                = let h := _resample_ohlc daily r in
                  if empty h then [] else h).
    { rewrite (fetch_reconstructs (only_daily df) no_data no_data
                 (match r with W_FRI => I_1wk | ME => I_1mo end)
                 ltac:(destruct r; reflexivity) ltac:(destruct r; reflexivity)
                 ltac:(destruct r; reflexivity) He).
      destruct r; reflexivity. }
    rewrite E. cbv zeta.
    pose proof (resample_keeps_bucket daily r x Hd Hc) as Hin. fold k in Hin.
    destruct (_resample_ohlc daily r); [destruct Hin | exact Hin].
  - intros b Hb. now destruct (resample_row df r b Hb) as (k' & _ & H).
Qed.

Lemma C9_trailing_bucket_is_kept_witness :
  exists b, In b (_resample_ohlc january_partial ME)
            /\ ts b = date 2024 1 31 /\ Close b = Finite 100.
Proof.
  apply (proj1 (C9_trailing_bucket_is_kept
                  [flat (date 2024 1 11) 98; flat (date 2024 1 12) 99]
                  (flat (date 2024 1 15) 100) ME eq_refl)).
Defined.

End ResampleFacts.

(** ** Indicator engine *)

Module TechnicalsFacts.
Import Technicals.

(** *** Increasing series *)

Lemma incr_fromb_ok (l : list Q) (a : Q) : incr_fromb a l = true -> incr_from a l.
Proof.
  revert a. induction l as [| x l IH]; intros a; cbn; [trivial |].
  rewrite andb_true_iff, Qltb_lt. intros [H1 H2]. split; [exact H1 | now apply IH].
Qed.

Lemma increasingb_ok (l : list Q) : increasingb l = true -> increasing l.
Proof. destruct l; cbn; [trivial | apply incr_fromb_ok]. Qed.

Lemma incr_from_weaken (l : list Q) (a b : Q) : b <= a -> incr_from a l -> incr_from b l.
Proof.
  destruct l as [| x l]; cbn; [trivial |]. intros Hab [H1 H2].
  split; [| exact H2]. now apply Qle_lt_trans with a.
Qed.

(** A suffix of an increasing series is increasing. *)
Lemma increasing_skipn (n : nat) (l : list Q) : increasing l -> increasing (skipn n l).
Proof.
  revert l. induction n as [| n IH]; intros l H; [exact H |].
  destruct l as [| x l]; [exact H |]. cbn [skipn]. apply IH.
  destruct l as [| y l]; [exact I |]. cbn in *. tauto.
Qed.

(** Above [a], every value is at most the last one, which exceeds [a]. *)
Lemma incr_from_last (l : list Q) (a d : Q) :
  incr_from a l -> l <> [] ->
  a < List.last l d /\ forall x, In x l -> x <= List.last l d.
Proof.
  revert a. induction l as [| x l IH]; intros a H Hne; [congruence |].
  destruct H as [Hax Hl]. destruct l as [| y l].
  - cbn. split; [exact Hax |]. intros z [<- | []]. apply Qle_refl.
  - destruct (IH x Hl ltac:(discriminate)) as [H1 H2].
    change (List.last (x :: y :: l) d) with (List.last (y :: l) d).
    split; [now apply Qlt_trans with x |].
    intros z [<- | Hz]; [now apply Qlt_le_weak | now apply H2].
Qed.

(** *** Sums and weighted sums below the last value *)

Lemma qsum_le (l : list Q) (c : Q) :
  (forall x, In x l -> x <= c) -> qsum l <= inject_Z (Z.of_nat (length l)) * c.
Proof.
  induction l as [| x l IH]; intros H.
  - change (0 <= 0 * c). lra.
  - cbn [qsum fold_right length]. rewrite Nat2Z.inj_succ, <- Z.add_1_r, inject_Z_plus.
    specialize (IH (fun y Hy => H y (or_intror Hy))).
    pose proof (H x (or_introl eq_refl)). fold (qsum l).
    change (inject_Z 1) with 1. set (n := inject_Z (Z.of_nat (length l))) in *.
    assert (E : (n + 1) * c == n * c + c) by ring.
    rewrite E. lra.
Qed.

Lemma dot_le (xs ws : list Q) (c : Q) :
  (forall x, In x xs -> x <= c) -> (forall w, In w ws -> 0 <= w) ->
  length xs = length ws -> dot xs ws <= c * qsum ws.
Proof.
  revert ws. induction xs as [| x xs IH]; intros [| w ws] Hx Hw Hlen; try discriminate.
  - change (0 <= c * 0). lra.
  - cbn [dot qsum fold_right]. fold (qsum ws).
    assert (H1 : x <= c) by (apply Hx; now left).
    assert (H2 : 0 <= w) by (apply Hw; now left).
    assert (H3 : dot xs ws <= c * qsum ws).
    { apply IH; [intros; apply Hx; now right | intros; apply Hw; now right |].
      now injection Hlen. }
    assert (H4 : x * w <= c * w) by (apply Qmult_le_compat_r; assumption).
    lra.
Qed.

Lemma dot_lt (x0 v0 c : Q) (xs ws : list Q) :
  x0 < c -> 0 < v0 ->
  (forall x, In x xs -> x <= c) -> (forall w, In w ws -> 0 <= w) ->
  length xs = length ws ->
  dot (x0 :: xs) (v0 :: ws) < c * qsum (v0 :: ws).
Proof.
  intros Hx Hv Hxs Hws Hlen.
  pose proof (dot_le xs ws c Hxs Hws Hlen) as H.
  cbn [dot qsum fold_right]. fold (qsum ws).
  assert (H1 : x0 * v0 < c * v0) by (apply Qmult_lt_compat_r; assumption).
  lra.
Qed.

(** *** The last value of a rolling computation *)

Lemma all_some_map_Some (l : list Q) : all_some (map Some l) = Some l.
Proof. induction l as [| x l IH]; cbn; [reflexivity | now rewrite IH]. Qed.

Lemma window_last (w : nat) (l : list Q) :
  (1 <= w <= length l)%nat ->
  window w (map Some l) (length l - 1) = Some (skipn (length l - w) l).
Proof.
  intros H. unfold window.
  assert ((w <=? length l - 1 + 1)%nat = true) as -> by (apply Nat.leb_le; lia).
  replace (length l - 1 + 1 - w)%nat with (length l - w)%nat by lia.
  rewrite skipn_map, firstn_all2; [apply all_some_map_Some |].
  rewrite length_map, length_skipn. lia.
Qed.

Lemma iloc_last_rolling (w : nat) (f : list Q -> Q) (l : list Q) :
  (1 <= w <= length l)%nat ->
  iloc_last (rolling_apply w f (map Some l)) = Some (f (skipn (length l - w) l)).
Proof.
  intros H. unfold iloc_last, rolling_apply. rewrite length_map.
  replace (length l) with (S (length l - 1)) at 1 by lia.
  rewrite seq_S, map_app. cbn [map]. rewrite last_last. cbn [Nat.add].
  now rewrite window_last.
Qed.

Lemma bfill_cons (a : option Q) (l : series) : exists h, bfill (a :: l) = h :: bfill l.
Proof.
  destruct a as [x |]; cbn; [now exists (Some x) |].
  destruct (bfill l) as [| [y |] t]; eauto.
Qed.

Lemma bfill_nil (l : series) : bfill l = [] -> l = [].
Proof.
  destruct l as [| a l]; [reflexivity |].
  destruct (bfill_cons a l) as [h ->]. discriminate.
Qed.

Lemma iloc_last_bfill (l : series) (x : Q) :
  iloc_last l = Some x -> iloc_last (bfill l) = Some x.
Proof.
  unfold iloc_last. induction l as [| a l IH]; [discriminate |].
  destruct l as [| b l].
  - cbn. intros ->. reflexivity.
  - intros H. change (List.last (a :: b :: l) None) with (List.last (b :: l) None) in H.
    destruct (bfill_cons a (b :: l)) as [h ->].
    destruct (bfill (b :: l)) as [| c t] eqn:E; [now apply bfill_nil in E |].
    change (List.last (h :: c :: t) None) with (List.last (c :: t) None).
    now apply IH.
Qed.

Lemma last_skipn (k : nat) (l : list Q) (d : Q) :
  (k < length l)%nat -> List.last (skipn k l) d = List.last l d.
Proof.
  revert l. induction k as [| k IH]; intros l H; [reflexivity |].
  destruct l as [| x l]; [cbn in H; lia |]. cbn [skipn]. cbn in H.
  rewrite IH by lia. destruct l; [cbn in H; lia | reflexivity].
Qed.

(** The closing window of an increasing series: a first value below the
    last close and the other values at most equal to it. *)
Lemma closing_window (w : nat) (l : list Q) :
  increasing l -> (2 <= w <= length l)%nat ->
  exists x0 rest,
    skipn (length l - w) l = x0 :: rest /\ length rest = (w - 1)%nat /\
    x0 < List.last l 0 /\ forall x, In x rest -> x <= List.last l 0.
Proof.
  intros Hi Hw.
  pose proof (increasing_skipn (length l - w) l Hi) as Hs.
  pose proof (length_skipn (length l - w) l) as Hl.
  pose proof (last_skipn (length l - w) l 0 ltac:(lia)) as Hlast.
  destruct (skipn (length l - w) l) as [| x0 rest]; [cbn in Hl; lia |].
  exists x0, rest. split; [reflexivity |]. cbn in Hl. split; [lia |].
  assert (Hne : rest <> []) by (destruct rest; cbn in Hl; [lia | discriminate]).
  destruct (incr_from_last rest x0 0 Hs Hne) as [H1 H2].
  assert (E : List.last (x0 :: rest) 0 = List.last rest 0).
  { destruct rest; [congruence | reflexivity]. }
  rewrite <- Hlast, E. split; assumption.
Qed.

Lemma inject_nat_pos (n : nat) : (1 <= n)%nat -> 0 < inject_Z (Z.of_nat n).
Proof. intros H. change 0 with (inject_Z 0). rewrite <- Zlt_Qlt. lia. Qed.

Lemma mean_lt (x0 c : Q) (rest : list Q) :
  x0 < c -> (forall x, In x rest -> x <= c) -> mean (x0 :: rest) < c.
Proof.
  intros H0 Hr. unfold mean.
  apply Qlt_shift_div_r; [apply inject_nat_pos; cbn; lia |].
  pose proof (qsum_le rest c Hr) as H.
  cbn [qsum fold_right length]. fold (qsum rest).
  rewrite Nat2Z.inj_succ, <- Z.add_1_r, inject_Z_plus. change (inject_Z 1) with 1.
  set (n := inject_Z (Z.of_nat (length rest))) in *.
  assert (E : c * (n + 1) == n * c + c) by ring.
  rewrite E. lra.
Qed.

Lemma arange1_nonneg (n : nat) (w : Q) : In w (arange1 n) -> 0 < w.
Proof.
  unfold arange1. intros H. apply in_map_iff in H as (j & <- & Hj).
  apply in_seq in Hj. apply inject_nat_pos. lia.
Qed.

Lemma arange1_S (n : nat) :
  arange1 (S n) = 1 :: map (fun j => inject_Z (Z.of_nat j)) (seq 2 n).
Proof. reflexivity. Qed.

Lemma weighted_lt (x0 c : Q) (rest : list Q) :
  x0 < c -> (forall x, In x rest -> x <= c) ->
  weighted (S (length rest)) (x0 :: rest) < c.
Proof.
  intros H0 Hr. unfold weighted. rewrite arange1_S.
  set (ws := map (fun j => inject_Z (Z.of_nat j)) (seq 2 (length rest))).
  assert (Hws : forall w, In w ws -> 0 <= w).
  { intros w Hw. apply Qlt_le_weak. apply (arange1_nonneg (S (length rest))).
    rewrite arange1_S. now right. }
  assert (Hlen : length rest = length ws).
  { unfold ws. now rewrite length_map, length_seq. }
  assert (Hpos : 0 < qsum (1 :: ws)).
  { cbn [qsum fold_right]. fold (qsum ws).
    assert (0 <= qsum ws); [| lra].
    clear Hlen. induction ws as [| w ws IH]; [cbn; lra |].
    cbn [qsum fold_right]. fold (qsum ws).
    pose proof (Hws w (or_introl eq_refl)).
    assert (0 <= qsum ws) by (apply IH; intros; apply Hws; now right). lra. }
  apply Qlt_shift_div_r; [exact Hpos |].
  apply dot_lt; try assumption. reflexivity.
Qed.

(** *** Exponential averages *)

Lemma ewm_alpha_range (p : nat) : (2 <= p)%nat -> 0 < ewm_alpha p /\ ewm_alpha p < 1.
Proof.
  intros H. unfold ewm_alpha.
  pose proof (inject_nat_pos p ltac:(lia)) as Hp.
  assert (H2 : 2 <= inject_Z (Z.of_nat p)).
  { change 2 with (inject_Z 2). rewrite <- Zle_Qle. lia. }
  split.
  - apply Qlt_shift_div_l; lra.
  - apply Qlt_shift_div_r; lra.
Qed.

(** Fed values above the running average, the average stays below them. *)
Lemma ewm_from_lt (alpha : Q) (l : list Q) (a prev : Q) :
  0 < alpha -> alpha < 1 -> prev <= a -> incr_from a l -> l <> [] ->
  exists y, List.last (ewm_from alpha prev l) 0 = y /\ y < List.last l 0.
Proof.
  intros Ha0 Ha1. revert a prev.
  induction l as [| x l IH]; intros a prev Hp Hi Hne; [congruence |].
  destruct Hi as [Hax Hl].
  cbn [ewm_from]. set (y := Qred ((1 - alpha) * prev + alpha * x)).
  assert (Hy : y < x).
  { unfold y. rewrite Qred_correct.
    assert (prev < x) by (now apply Qle_lt_trans with a).
    assert ((1 - alpha) * prev < (1 - alpha) * x).
    { rewrite !(Qmult_comm (1 - alpha)). apply Qmult_lt_compat_r; lra. }
    lra. }
  destruct l as [| x' l].
  - exists y. split; [reflexivity | exact Hy].
  - destruct (IH x y (Qlt_le_weak _ _ Hy) Hl ltac:(discriminate)) as (z & Hz & Hlt).
    exists z. split; [| exact Hlt].
    cbn [ewm_from] in *. exact Hz.
Qed.

Lemma iloc_last_map_Some (l : list Q) :
  l <> [] -> iloc_last (map Some l) = Some (List.last l 0).
Proof.
  unfold iloc_last. induction l as [| x l IH]; [congruence |]. intros _.
  destruct l as [| y l]; [reflexivity |].
  change (List.last (map Some (x :: y :: l)) None)
    with (List.last (map Some (y :: l)) None).
  now rewrite IH.
Qed.

Lemma action_of_below (last v : Q) : v < last -> action_of last (Some v) = Buy.
Proof. intros H. cbn. apply Qltb_lt in H. now rewrite H. Qed.

(** *** The three averaging indicators on an increasing series *)

Lemma sma_buy (close : list Q) (p : nat) :
  increasing close -> (2 <= p <= length close)%nat ->
  action_of (close_last close) (sma close p) = Buy.
Proof.
  intros Hi Hp. unfold sma, rolling_mean, close_series.
  rewrite (iloc_last_bfill _ (mean (skipn (length close - p) close)))
    by (apply iloc_last_rolling; lia).
  destruct (closing_window p close Hi Hp) as (x0 & rest & -> & _ & H0 & Hr).
  apply action_of_below. now apply mean_lt.
Qed.

Lemma wma_buy (close : list Q) (p : nat) :
  increasing close -> (2 <= p <= length close)%nat ->
  action_of (close_last close) (wma close p) = Buy.
Proof.
  intros Hi Hp. unfold wma, rolling_wma, close_series.
  rewrite iloc_last_rolling by lia.
  destruct (closing_window p close Hi Hp) as (x0 & rest & -> & Hl & H0 & Hr).
  apply action_of_below.
  replace p with (S (length rest)) by lia. now apply weighted_lt.
Qed.

Lemma ema_buy (close : list Q) (p : nat) :
  increasing close -> (2 <= p)%nat -> (2 <= length close)%nat ->
  action_of (close_last close) (ema close p) = Buy.
Proof.
  intros Hi Hp Hn. unfold ema, close_last.
  destruct close as [| x0 [| x1 tl]]; cbn in Hn; try lia.
  destruct (ewm_alpha_range p Hp) as [Ha0 Ha1].
  destruct (ewm_from_lt (ewm_alpha p) (x1 :: tl) x0 x0 Ha0 Ha1 (Qle_refl _) Hi
              ltac:(discriminate)) as (y & Hy & Hlt).
  rewrite iloc_last_map_Some by discriminate.
  apply action_of_below.
  change (List.last (x0 :: x1 :: tl) 0) with (List.last (x1 :: tl) 0).
  unfold ewm_mean.
  assert (Hne : ewm_from (ewm_alpha p) x0 (x1 :: tl) <> []) by discriminate.
  destruct (ewm_from (ewm_alpha p) x0 (x1 :: tl)) as [| z t] eqn:Ez; [congruence |].
  change (List.last (x0 :: z :: t) 0) with (List.last (z :: t) 0).
  now rewrite Hy.
Qed.

(** *** Counting votes *)

Lemma count_app f (a b : list indicator) : count f (a ++ b) = (count f a + count f b)%nat.
Proof. unfold count. now rewrite List.filter_app, length_app. Qed.

Lemma count_flat_map_ge f (g : nat -> list indicator) (ps : list nat) (k : nat) :
  (forall p, In p ps -> (k <= count f (g p))%nat) ->
  (k * length ps <= count f (flat_map g ps))%nat.
Proof.
  induction ps as [| p ps IH]; intros H; cbn [flat_map length]; [lia |].
  rewrite count_app. specialize (IH (fun q Hq => H q (or_intror Hq))).
  pose proof (H p (or_introl eq_refl)). lia.
Qed.

Lemma count_flat_map_le f (g : nat -> list indicator) (ps : list nat) (k : nat) :
  (forall p, In p ps -> (count f (g p) <= k)%nat) ->
  (count f (flat_map g ps) <= k * length ps)%nat.
Proof.
  induction ps as [| p ps IH]; intros H; cbn [flat_map length]; [cbn; lia |].
  rewrite count_app. specialize (IH (fun q Hq => H q (or_intror Hq))).
  pose proof (H p (or_introl eq_refl)). lia.
Qed.

Lemma ma_periods_all (close : list Q) :
  (200 <= length close)%nat -> ma_periods close = [10; 20; 50; 100; 200]%nat.
Proof.
  intros H. unfold ma_periods. cbn [List.filter].
  repeat match goal with
         | |- context [(?p <=? length close)%nat] =>
             replace (p <=? length close)%nat with true by (symmetry; apply Nat.leb_le; lia)
         end.
  reflexivity.
Qed.

Lemma ma_periods_range (close : list Q) (p : nat) :
  In p (ma_periods close) -> (10 <= p <= length close)%nat.
Proof.
  unfold ma_periods. intros H. apply filter_In in H as [H1 H2].
  apply Nat.leb_le in H2. cbn in H1. lia.
Qed.

(** Every period in use contributes its five entries. *)
Lemma ma_summary_entries (close : list Q) (p : nat) :
  In p (ma_periods close) ->
  In (entry close SMA p (sma close p)) (ma_summary close)
  /\ In (entry close EMA p (ema close p)) (ma_summary close)
  /\ In (entry close WMA p (wma close p)) (ma_summary close)
  /\ In (entry close HMA p (hma close p)) (ma_summary close)
  /\ In (entry close TEMA p (tema close p)) (ma_summary close).
Proof.
  intros Hp. unfold ma_summary.
  repeat split; apply in_or_app; [left | left | right | right | right];
    apply in_flat_map; exists p; (split; [exact Hp |]); cbn; tauto.
Qed.

Lemma first_loop_counts (close : list Q) (p : nat) :
  increasing close -> In p (ma_periods close) ->
  let block := [entry close SMA p (sma close p); entry close EMA p (ema close p)] in
  count is_buy block = 2%nat /\ count is_sell block = 0%nat.
Proof.
  intros Hi Hp. apply ma_periods_range in Hp. cbv zeta. unfold count.
  cbn [List.filter vote entry].
  rewrite sma_buy, ema_buy by (assumption || lia). split; reflexivity.
Qed.

Lemma second_loop_counts (close : list Q) (p : nat) :
  increasing close -> In p (ma_periods close) ->
  let block := [entry close WMA p (wma close p); entry close HMA p (hma close p);
                entry close TEMA p (tema close p)] in
  (1 <= count is_buy block)%nat /\ (count is_sell block <= 2)%nat.
Proof.
  intros Hi Hp. apply ma_periods_range in Hp. cbv zeta. unfold count.
  cbn [List.filter vote entry].
  rewrite wma_buy by (assumption || lia).
  destruct (action_of (close_last close) (hma close p));
    destruct (action_of (close_last close) (tema close p)); cbn; lia.
Qed.

(** With exactly 200 closes the Hull average at lookback 200 has a single
    defined difference to smooth over 14: it is NaN and votes Neutral. *)
Example hma200_on_200_closes :
  hma (ramp 0 200) 200 = None
  /\ action_of (close_last (ramp 0 200)) (hma (ramp 0 200) 200) = Neutral.
Proof. vm_compute. split; reflexivity. Qed.

(** C5, as stated, fails: on a rising series that slows down at the end,
    the Hull and the triple-exponential averages at lookback 10 stand above
    the last close (419435) and vote Sell. *)
Lemma C5_counterexample_overshoot_when_slowing :
  increasing slowing_series
  /\ (200 <= length slowing_series)%nat
  /\ (exists x, In x (ma_summary slowing_series)
                /\ kind x = HMA /\ period x = 10%nat /\ vote x = Sell)
  /\ (exists x, In x (ma_summary slowing_series)
                /\ kind x = TEMA /\ period x = 10%nat /\ vote x = Sell)
  /\ tema slowing_series 10 = Some 420164.
Proof.
  assert (Hlen : (200 <= length slowing_series)%nat) by (vm_compute; lia).
  assert (Hp : In 10%nat (ma_periods slowing_series)).
  { rewrite ma_periods_all by exact Hlen. now left. }
  destruct (ma_summary_entries slowing_series 10 Hp) as (_ & _ & _ & Hh & Ht).
  split; [apply increasingb_ok; vm_compute; reflexivity |].
  split; [exact Hlen |]. split; [| split].
  - eexists. split; [exact Hh |]. split; [reflexivity |]. split; [reflexivity |].
    cbn [vote entry]. vm_compute. reflexivity.
  - eexists. split; [exact Ht |]. split; [reflexivity |]. split; [reflexivity |].
    cbn [vote entry]. vm_compute. reflexivity.
  - vm_compute. reflexivity.
Qed.

(** C5, amended.  On a strictly increasing close series with at least 200
    values, the simple, exponential and weighted moving averages vote Buy at
    each of the lookbacks 10, 20, 50, 100 and 200, and the aggregate
    moving-average signal is Buy (the Hull and triple-exponential averages
    may vote otherwise). *)
Theorem C5_sma_ema_wma_vote_buy (close : list Q) :
  increasing close -> (200 <= length close)%nat ->
  (forall p, In p [10; 20; 50; 100; 200]%nat ->
     In (entry close SMA p (sma close p)) (ma_summary close)
     /\ In (entry close EMA p (ema close p)) (ma_summary close)
     /\ In (entry close WMA p (wma close p)) (ma_summary close))
  /\ (forall x, In x (ma_summary close) ->
        kind x = SMA \/ kind x = EMA \/ kind x = WMA -> vote x = Buy)
  /\ ma_signal close = Buy.
Proof.
  intros Hi Hlen. pose proof (ma_periods_all close Hlen) as Hps.
  split; [| split].
  - intros p Hp. rewrite <- Hps in Hp.
    destruct (ma_summary_entries close p Hp) as (H1 & H2 & H3 & _). auto.
  - intros x Hx Hk. unfold ma_summary in Hx.
    apply in_app_or in Hx as [Hx | Hx]; apply in_flat_map in Hx as (p & Hp & Hx);
      pose proof (ma_periods_range close p Hp) as Hr; cbn [In] in Hx;
      repeat (destruct Hx as [<- | Hx]); try contradiction; cbn [vote kind entry] in *.
    + apply sma_buy; [assumption | lia].
    + apply ema_buy; [assumption | lia | lia].
    + apply wma_buy; [assumption | lia].
    + destruct Hk as [Hk | [Hk | Hk]]; discriminate.
    + destruct Hk as [Hk | [Hk | Hk]]; discriminate.
  - unfold ma_signal, ma_buy_count, ma_sell_count.
    fold (count is_buy (ma_summary close)). fold (count is_sell (ma_summary close)).
    unfold ma_summary. rewrite !count_app.
    pose proof (count_flat_map_ge is_buy
                  (fun p => [entry close SMA p (sma close p); entry close EMA p (ema close p)])
                  (ma_periods close) 2
                  (fun p Hp => eq_ind_r (fun n => (2 <= n)%nat) (le_n 2)
                                 (proj1 (first_loop_counts close p Hi Hp)))) as B1.
    pose proof (count_flat_map_le is_sell
                  (fun p => [entry close SMA p (sma close p); entry close EMA p (ema close p)])
                  (ma_periods close) 0
                  (fun p Hp => eq_ind_r (fun n => (n <= 0)%nat) (le_n 0)
                                 (proj2 (first_loop_counts close p Hi Hp)))) as S1.
    pose proof (count_flat_map_ge is_buy
                  (fun p => [entry close WMA p (wma close p); entry close HMA p (hma close p);
                             entry close TEMA p (tema close p)])
                  (ma_periods close) 1
                  (fun p Hp => proj1 (second_loop_counts close p Hi Hp))) as B2.
    pose proof (count_flat_map_le is_sell
                  (fun p => [entry close WMA p (wma close p); entry close HMA p (hma close p);
                             entry close TEMA p (tema close p)])
                  (ma_periods close) 2
                  (fun p Hp => proj2 (second_loop_counts close p Hi Hp))) as S2.
    assert (L : length (ma_periods close) = 5%nat) by (now rewrite Hps).
    rewrite L in B1, S1, B2, S2.
    match goal with
    | |- (if (?s <? ?b)%nat then _ else _) = _ =>
        assert ((s <? b)%nat = true) as -> by (apply Nat.ltb_lt; lia)
    end.
    reflexivity.
Qed.

Lemma C5_sma_ema_wma_vote_buy_witness : ma_signal (ramp 0 200) = Buy.
Proof.
  assert (Hi : increasing (ramp 0 200)) by (apply increasingb_ok; vm_compute; reflexivity).
  assert (Hn : (200 <= length (ramp 0 200))%nat) by (vm_compute; lia).
  exact (proj2 (proj2 (C5_sma_ema_wma_vote_buy (ramp 0 200) Hi Hn))).
Defined.

End TechnicalsFacts.

(** ** Rounding: order and bounds *)

Module NumMore.
Import Num NumFacts.

Lemma py_round_cases (x : Q) :
  py_round x = Qfloor x \/ py_round x = (Qfloor x + 1)%Z.
Proof.
  unfold py_round. destruct (Qcompare _ _); auto. destruct (Z.even _); auto.
Qed.

(** Rounding to an integer never crosses an integer. *)
Lemma py_round_le (x : Q) (n : Z) : x <= inject_Z n -> (py_round x <= n)%Z.
Proof.
  intros H. pose proof (Qfloor_le x) as Hf.
  assert (Hfn : (Qfloor x <= n)%Z).
  { rewrite <- (Qfloor_Z n). now apply Qfloor_resp_le. }
  destruct (Z.eq_dec (Qfloor x) n) as [E | E].
  - unfold py_round. rewrite E.
    assert (C : Qcompare (x - inject_Z n) (1 # 2) = Lt).
    { apply (proj1 (Qlt_alt _ _)). rewrite E in Hf. lra. }
    rewrite C. lia.
  - destruct (py_round_cases x) as [-> | ->]; lia.
Qed.

Lemma py_round_ge (x : Q) (n : Z) : inject_Z n <= x -> (n <= py_round x)%Z.
Proof.
  intros H.
  assert (Hfn : (n <= Qfloor x)%Z).
  { rewrite <- (Qfloor_Z n). now apply Qfloor_resp_le. }
  destruct (py_round_cases x) as [-> | ->]; lia.
Qed.

(** Rounding is monotone. *)
Lemma py_round_mono (x y : Q) : x <= y -> (py_round x <= py_round y)%Z.
Proof.
  intros H. pose proof (Qfloor_resp_le x y H) as Hf.
  destruct (Z.eq_dec (Qfloor x) (Qfloor y)) as [E | E].
  - unfold py_round. rewrite E.
    destruct (Qcompare (x - inject_Z (Qfloor y)) (1 # 2)) eqn:Cx;
      destruct (Qcompare (y - inject_Z (Qfloor y)) (1 # 2)) eqn:Cy;
      try (destruct (Z.even (Qfloor y))); try lia; exfalso;
      repeat match goal with
             | C : Qcompare _ _ = Eq |- _ => apply Qeq_alt in C
             | C : Qcompare _ _ = Lt |- _ => apply Qlt_alt in C
             | C : Qcompare _ _ = Gt |- _ => apply Qgt_alt in C
             end; lra.
  - destruct (py_round_cases x) as [-> | ->];
      destruct (py_round_cases y) as [-> | ->]; lia.
Qed.

Lemma py_round2_value (x : Q) : py_round2 x == inject_Z (py_round (x * 100)) / 100.
Proof. unfold py_round2. apply Qred_correct. Qed.

Lemma py_round2_mono (x y : Q) : x <= y -> py_round2 x <= py_round2 y.
Proof.
  intros H. rewrite !py_round2_value.
  assert (Hm : (py_round (x * 100) <= py_round (y * 100))%Z) by (apply py_round_mono; lra).
  rewrite Zle_Qle in Hm. unfold Qdiv.
  apply Qmult_le_compat_r; [exact Hm | discriminate].
Qed.

Lemma py_round2_le (x : Q) (n : Z) : x <= inject_Z n -> py_round2 x <= inject_Z n.
Proof.
  intros H. rewrite py_round2_value.
  assert (Hm : (py_round (x * 100) <= n * 100)%Z).
  { apply py_round_le. rewrite inject_Z_mult. change (inject_Z 100) with 100. lra. }
  rewrite Zle_Qle in Hm. rewrite inject_Z_mult in Hm. change (inject_Z 100) with 100 in Hm.
  apply Qle_shift_div_r; [reflexivity | exact Hm].
Qed.

Lemma py_round2_ge (x : Q) (n : Z) : inject_Z n <= x -> inject_Z n <= py_round2 x.
Proof.
  intros H. rewrite py_round2_value.
  assert (Hm : (n * 100 <= py_round (x * 100))%Z).
  { apply py_round_ge. rewrite inject_Z_mult. change (inject_Z 100) with 100. lra. }
  rewrite Zle_Qle in Hm. rewrite inject_Z_mult in Hm. change (inject_Z 100) with 100 in Hm.
  apply Qle_shift_div_l; [reflexivity | exact Hm].
Qed.

End NumMore.

(** ** Cache layer: reads, overwrites and the store-then-read round trip *)

Module CacheMore.
Import Cache CacheFacts.

Section WithPayload.

Context {payload : Type}.
Implicit Types (d : cache_dict payload) (k key : string) (p : payload).

(** X1.  [_cache_get] returns a payload exactly when the key holds an entry
    younger than the TTL, and such a hit leaves the cache as it was; a read
    of an absent key is a miss that changes nothing either. *)
Theorem X1_cache_get_hit_iff_fresh d key (ttl now : Z) :
  (forall p, fst (_cache_get d key ttl now) = Some p <->
             exists ts, dict_get d key = Some (p, ts) /\ (now - ts < ttl)%Z)
  /\ (forall p, fst (_cache_get d key ttl now) = Some p ->
                snd (_cache_get d key ttl now) = d)
  /\ (dict_get d key = None -> _cache_get d key ttl now = (None, d)).
Proof.
  unfold _cache_get. destruct (dict_get d key) as [[p0 ts] |] eqn:E.
  - destruct (now - ts <? ttl)%Z eqn:F; cbn [fst snd].
    + apply Z.ltb_lt in F. split; [| split; [reflexivity | discriminate]].
      intros p. split.
      * intros [= <-]. now exists ts.
      * intros (ts' & [= <- <-] & _). reflexivity.
    + apply Z.ltb_ge in F. split; [| split; [discriminate | discriminate]].
      intros p. split; [discriminate |].
      intros (ts' & [= <- <-] & H). lia.
  - cbn [fst snd]. split; [| split; [reflexivity | reflexivity]].
    intros p. split; [discriminate | intros (ts & H & _); discriminate].
Qed.

Lemma keys_dict_set_present d key (e : entry payload) :
  In key (keys d) -> keys (dict_set d key e) = keys d.
Proof.
  unfold keys. induction d as [| [k0 e0] tl IH]; cbn; [tauto |].
  intros H. destruct (String.eqb k0 key) eqn:E; cbn; [reflexivity |].
  apply String.eqb_neq in E. f_equal. apply IH. destruct H; [congruence | assumption].
Qed.

Lemma dict_get_set_ne d key k (e : entry payload) :
  k <> key -> dict_get (dict_set d key e) k = dict_get d k.
Proof.
  intros Hne. induction d as [| [k0 e0] tl IH]; cbn.
  - assert (String.eqb key k = false) as -> by (apply String.eqb_neq; congruence).
    reflexivity.
  - destruct (String.eqb k0 key) eqn:E; cbn.
    + apply String.eqb_eq in E. subst k0.
      assert (String.eqb key k = false) as -> by (apply String.eqb_neq; congruence).
      reflexivity.
    + destruct (String.eqb k0 k); [reflexivity | exact IH].
Qed.

Lemma length_keys d : length (keys d) = length d.
Proof. unfold keys. apply length_map. Qed.

(** X2.  Storing under a key the cache already holds never evicts: within
    the bound, the keys keep their order, the key reads back the new entry
    and every other key reads as before. *)
Theorem X2_cache_set_overwrite d key p (now max_size : Z) :
  (Z.of_nat (length d) <= max_size)%Z ->
  In key (keys d) ->
  let d' := _cache_set d key p now max_size in
  keys d' = keys d
  /\ dict_get d' key = Some (p, now)
  /\ forall k, k <> key -> dict_get d' k = dict_get d k.
Proof.
  intros Hlen Hin d'. subst d'. unfold _cache_set.
  pose proof (keys_dict_set_present d key (p, now) Hin) as Hk.
  assert (Hl : length (dict_set d key (p, now)) = length d).
  { rewrite <- !length_keys. now rewrite Hk. }
  rewrite Hl.
  assert ((max_size <? Z.of_nat (length d))%Z = false) as -> by (apply Z.ltb_ge; lia).
  split; [exact Hk |]. split; [apply dict_get_set_eq |].
  intros k Hne. now apply dict_get_set_ne.
Qed.

Lemma min_from_snoc (l : cache_dict payload) best (bts : Z) key p (now : Z) :
  (bts <= now)%Z ->
  In (min_from best bts (l ++ [(key, (p, now))])) (best :: keys l).
Proof.
  revert best bts. induction l as [| [k1 [p1 t1]] tl IH]; intros best bts H.
  - cbn. assert ((now <? bts)%Z = false) as -> by (apply Z.ltb_ge; lia). now left.
  - cbn [app min_from]. destruct (t1 <? bts)%Z eqn:E.
    + apply Z.ltb_lt in E. right. apply (IH k1 t1). lia.
    + destruct (IH best bts H) as [<- | Hin]; [now left | right; now right].
Qed.

Lemma dict_get_snoc_new d key (e : entry payload) :
  ~ In key (keys d) -> dict_get (d ++ [(key, e)]) key = Some e.
Proof.
  intros H. rewrite <- (dict_set_new d key e H). apply dict_get_set_eq.
Qed.

(** X3.  Store, then read: on a cache within its bound of at least one
    entry whose timestamps do not lie after the clock, the payload just
    stored is returned by any read made before its TTL elapses. *)
Theorem X3_cache_set_then_get d key p (now now' ttl max_size : Z) :
  wf d ->
  (1 <= max_size)%Z ->
  (Z.of_nat (length d) <= max_size)%Z ->
  (forall k e, dict_get d k = Some e -> (snd e <= now)%Z) ->
  (now' - now < ttl)%Z ->
  fst (_cache_get (_cache_set d key p now max_size) key ttl now') = Some p.
Proof.
  intros Hwf Hmax Hlen Hclock Hfresh.
  assert (Hget : dict_get (_cache_set d key p now max_size) key = Some (p, now)).
  { destruct (in_dec string_dec key (keys d)) as [Hin | Hnin].
    - now apply X2_cache_set_overwrite.
    - unfold _cache_set. cbv zeta. rewrite (dict_set_new d key (p, now) Hnin).
      match goal with
      | |- context [(?a <? ?b)%Z] => destruct (a <? b)%Z eqn:E
      end.
      + apply Z.ltb_lt in E. rewrite length_app in E. cbn in E.
        destruct d as [| [k0 [p0 t0]] tl]; [cbn in E; lia |].
        cbn [app]. unfold oldest_key.
        assert (Ht0 : (t0 <= now)%Z).
        { apply (Hclock k0 (p0, t0)). cbn. now rewrite String.eqb_refl. }
        pose proof (min_from_snoc tl k0 t0 key p now Ht0) as Hm.
        change (k0 :: keys tl) with (keys ((k0, (p0, t0)) :: tl)) in Hm.
        assert (Hne : key <> min_from k0 t0 (tl ++ [(key, (p, now))])).
        { intros Heq. apply Hnin. rewrite Heq. exact Hm. }
        rewrite (dict_get_del_ne _ _ _ Hne).
        apply (dict_get_snoc_new ((k0, (p0, t0)) :: tl) key (p, now) Hnin).
      + now apply dict_get_snoc_new. }
  unfold _cache_get. rewrite Hget.
  assert ((now' - now <? ttl)%Z = true) as -> by (apply Z.ltb_lt; lia).
  reflexivity.
Qed.

End WithPayload.

Lemma X2_cache_set_overwrite_witness :
  keys (_cache_set [("AAPL:1d"%string, (1%nat, 100%Z))] "AAPL:1d" 2%nat 150 1)
  = ["AAPL:1d"%string].
Proof.
  apply (proj1 (X2_cache_set_overwrite [("AAPL:1d"%string, (1%nat, 100%Z))]
                  "AAPL:1d"%string 2%nat 150%Z 1%Z
                  ltac:(apply Z.leb_le; reflexivity) ltac:(now left))).
Defined.

Lemma X3_cache_set_then_get_witness :
  fst (_cache_get (_cache_set (run_sets 2 [] three_sets) "MSFT:1d" 7%nat 300 2)
         "MSFT:1d" 240 500) = Some 7%nat.
Proof.
  apply X3_cache_set_then_get.
  - repeat constructor; cbn; intuition discriminate.
  - lia.
  - apply Z.leb_le. reflexivity.
  - intros k e H. apply dict_get_In in H.
    cbn in H. destruct H as [[= <- <-] | [[= <- <-] | []]]; cbn; lia.
  - lia.
Defined.

End CacheMore.

(** ** Ticker resolver: all inputs *)

Module TickerMore.
Import Ticker TickerFacts FundCandidates Shapes.

Lemma mem_In (t : str) (l : list str) : mem t l = true <-> In t l.
Proof.
  unfold mem. rewrite existsb_exists. split.
  - intros (x & Hx & E). apply str_eqb_eq in E. now subst.
  - intros H. exists t. split; [exact H | now apply str_eqb_eq].
Qed.

Lemma nonempty_true (t : str) : nonempty t = true <-> t <> [].
Proof. destruct t; cbn; split; congruence. Qed.

Lemma NoDup_snoc {A : Type} (l : list A) (x : A) :
  List.NoDup l -> ~ In x l -> List.NoDup (l ++ [x]).
Proof.
  induction l as [| y l IH]; intros ND Hx; cbn.
  - apply List.NoDup_cons; [tauto | apply List.NoDup_nil].
  - apply List.NoDup_cons_iff in ND as [Hy ND]. apply List.NoDup_cons.
    + intros H. apply in_app_or in H as [H | [<- | []]]; [tauto |].
      apply Hx. now left.
    + apply IH; [exact ND |]. intros H. apply Hx. now right.
Qed.

Lemma nonempty_false (t : str) : nonempty t = false -> t = [].
Proof. destruct t; cbn; congruence. Qed.

(** [add] keeps a duplicate-free list of non-empty strings that way. *)
Lemma add_candidate_spec (l : list str) (t : str) :
  List.NoDup l -> (forall c, In c l -> c <> []) ->
  List.NoDup (add_candidate l t)
  /\ (forall c, In c (add_candidate l t) -> c <> [])
  /\ (forall c, In c l -> In c (add_candidate l t))
  /\ (t <> [] -> In t (add_candidate l t))
  /\ (length (add_candidate l t) <= S (length l))%nat
  /\ (forall c, In c (add_candidate l t) -> In c l \/ c = t)
  /\ (forall h tl, l = h :: tl -> exists tl', add_candidate l t = h :: tl').
Proof.
  intros ND NE. unfold add_candidate.
  destruct (nonempty t) eqn:En; cbn [andb].
  - destruct (mem t l) eqn:Em; cbn [negb].
    + apply mem_In in Em. repeat split; auto. intros h tl ->. eauto.
    + assert (Hn : ~ In t l) by (intros H; apply mem_In in H; congruence).
      apply nonempty_true in En. split; [| split; [| split; [| split; [| split; [| split]]]]].
      * now apply NoDup_snoc.
      * intros c Hc. apply in_app_or in Hc as [Hc | [<- | []]]; auto.
      * intros c Hc. apply in_or_app. now left.
      * intros _. apply in_or_app. right. now left.
      * rewrite length_app. cbn. lia.
      * intros c Hc. apply in_app_or in Hc as [Hc | [<- | []]]; auto.
      * intros h tl ->. cbn. eauto.
  - repeat split; auto.
    + intros Ht. destruct t; [congruence | discriminate].
    + intros h tl ->. eauto.
Qed.

(** *** Canonical symbols: stripped, upper-case, space-free *)

Lemma upper_char_facts (c : ascii) :
  upper_char (upper_char c) = upper_char c
  /\ is_space (upper_char c) = is_space c
  /\ (is_space c = false -> Ascii.eqb c " " = false).
Proof. by_ascii c. Qed.

Lemma drop_while_head_ok (t : str) : head_ok (drop_while is_space t).
Proof.
  induction t as [| c t IH]; cbn; [exact I |].
  destruct (is_space c) eqn:E; [exact IH | exact E].
Qed.

Lemma drop_while_snoc (f : ascii -> bool) (l : str) (x : ascii) :
  f x = false -> drop_while f (l ++ [x]) = drop_while f l ++ [x].
Proof.
  intros Hx. induction l as [| c l IH]; cbn; [now rewrite Hx |].
  destruct (f c); [exact IH | reflexivity].
Qed.

Lemma drop_while_id (f : ascii -> bool) (t : str) :
  match t with [] => True | c :: _ => f c = false end -> drop_while f t = t.
Proof. destruct t as [| c t]; cbn; [reflexivity | now intros ->]. Qed.

Lemma rstrip_cons (c : ascii) (t : str) :
  is_space c = false -> rstrip (c :: t) = c :: rstrip t.
Proof.
  intros Hc. unfold rstrip. cbn [rev].
  rewrite drop_while_snoc by exact Hc. rewrite rev_app_distr. reflexivity.
Qed.

Lemma strip_ends (t : str) : head_ok (strip t) /\ head_ok (rev (strip t)).
Proof.
  unfold strip, lstrip. pose proof (drop_while_head_ok t) as H.
  destruct (drop_while is_space t) as [| c u].
  - cbn. split; exact I.
  - cbn in H. rewrite (rstrip_cons c u H). split; [exact H |].
    rewrite <- (rstrip_cons c u H). unfold rstrip. rewrite rev_involutive.
    apply drop_while_head_ok.
Qed.

Lemma strip_canonical_id (t : str) : head_ok t -> head_ok (rev t) -> strip t = t.
Proof.
  intros H1 H2. unfold strip, lstrip, rstrip.
  rewrite (drop_while_id is_space t) by (destruct t; assumption).
  rewrite (drop_while_id is_space (rev t)) by (destruct (rev t); assumption).
  apply rev_involutive.
Qed.

Lemma head_ok_map_upper (t : str) : head_ok t -> head_ok (upper t).
Proof.
  destruct t as [| c t]; cbn; [trivial |]. intros H.
  now rewrite (proj1 (proj2 (upper_char_facts c))).
Qed.

Lemma head_ok_remove_spaces (t : str) : head_ok t -> head_ok (remove_spaces t).
Proof.
  destruct t as [| c t]; cbn -[Ascii.eqb]; [trivial |]. intros H.
  rewrite (proj2 (proj2 (upper_char_facts c)) H). cbn. exact H.
Qed.

Lemma remove_spaces_rev (t : str) : rev (remove_spaces t) = remove_spaces (rev t).
Proof.
  unfold remove_spaces. induction t as [| c t IH]; [reflexivity |].
  cbn [rev List.filter]. rewrite List.filter_app, <- IH. cbn [List.filter].
  destruct (negb (Ascii.eqb c " ")); cbn [rev]; [reflexivity | now rewrite app_nil_r].
Qed.

Lemma upper_rev (t : str) : rev (upper t) = upper (rev t).
Proof. unfold upper. now rewrite map_rev. Qed.

(** Cleaning always lands on a canonical symbol. *)
Lemma clean_canonical (t : str) : canonical (remove_spaces (upper (strip t))).
Proof.
  destruct (strip_ends t) as [H1 H2]. repeat split.
  - apply head_ok_remove_spaces, head_ok_map_upper, H1.
  - rewrite remove_spaces_rev, upper_rev.
    apply head_ok_remove_spaces, head_ok_map_upper, H2.
  - apply List.Forall_forall. intros c Hc. unfold remove_spaces in Hc.
    apply filter_In in Hc as [Hc _]. unfold upper in Hc.
    apply in_map_iff in Hc as (c0 & <- & _). apply upper_char_facts.
  - apply List.Forall_forall. intros c Hc. unfold remove_spaces in Hc.
    apply filter_In in Hc as [_ Hc]. now apply negb_true_iff in Hc.
Qed.

(** On a canonical symbol cleaning does nothing. *)
Lemma clean_id (t : str) : canonical t -> remove_spaces (upper (strip t)) = t.
Proof.
  intros (H1 & H2 & H3 & H4). rewrite strip_canonical_id by assumption.
  assert (E : upper t = t).
  { unfold upper. rewrite <- (map_id t) at 2. apply map_ext_in.
    intros c Hc. rewrite List.Forall_forall in H3. now apply H3. }
  rewrite E. now apply remove_spaces_id.
Qed.

Lemma canonical_suffix (a b : str) :
  canonical (a ++ b) -> head_ok b -> canonical b.
Proof.
  intros (H1 & H2 & H3 & H4) Hb.
  apply List.Forall_app in H3 as [_ H3]. apply List.Forall_app in H4 as [_ H4].
  repeat split; try assumption.
  rewrite rev_app_distr in H2. destruct (rev b); [exact I | exact H2].
Qed.

Lemma take_drop_while (f : ascii -> bool) (t : str) :
  take_while f t ++ drop_while f t = t.
Proof.
  induction t as [| c t IH]; cbn; [reflexivity |].
  destruct (f c); cbn; [now rewrite IH | reflexivity].
Qed.

(** X5.  [normalize_ticker] is idempotent: normalizing a normalized symbol
    changes nothing (digits are stripped at most once). *)
Theorem X5_normalize_ticker_idempotent (value : str) :
  normalize_ticker (normalize_ticker value) = normalize_ticker value.
Proof.
  remember (normalize_ticker value) as n eqn:Hn.
  unfold normalize_ticker in Hn.
  destruct (nonempty value) eqn:Ev; cbn [negb] in Hn.
  2: { subst n. unfold normalize_ticker. now rewrite Ev. }
  set (t := remove_spaces (upper (strip value))) in Hn.
  pose proof (clean_canonical value) as Hc. fold t in Hc.
  destruct (match_digits_letters_suffix t) eqn:Em.
  - unfold match_digits_letters_suffix in Em.
    apply andb_true_iff in Em as [Em _]. apply andb_true_iff in Em as [Em _].
    apply andb_true_iff in Em as [_ Em]. apply Nat.leb_le in Em.
    rewrite <- Hn in Em.
    destruct n as [| c r']; [cbn in Em; lia |].
    cbn [take_while] in Em. destruct (is_AZ c) eqn:Ec; [| cbn in Em; lia].
    destruct (AZ_facts c Ec) as (Hsp & Hdg & _).
    assert (Hr : canonical (c :: r')).
    { apply (canonical_suffix (take_while is_digit t)).
      - rewrite Hn. now rewrite take_drop_while.
      - exact Hsp. }
    unfold normalize_ticker. cbn [nonempty negb].
    rewrite (clean_id _ Hr).
    unfold match_digits_letters_suffix. cbn [take_while]. rewrite Hdg. reflexivity.
  - subst n. unfold normalize_ticker. destruct (nonempty t); cbn [negb]; [| reflexivity].
    rewrite (clean_id _ Hc), Em. reflexivity.
Qed.

(** X4.  For every input, [ticker_candidates] returns at most three
    candidates, all non-empty and pairwise distinct; the list is empty
    exactly when the cleaned input is empty, and otherwise it contains the
    cleaned input and its normalized form. *)
Theorem X4_ticker_candidates_shape (raw : str) :
  let raw_up := remove_spaces (upper (strip raw)) in
  let cands := ticker_candidates raw in
  List.NoDup cands
  /\ (forall c, In c cands -> c <> [])
  /\ (length cands <= 3)%nat
  /\ (cands = [] <-> raw_up = [])
  /\ (raw_up <> [] -> In raw_up cands /\ In (normalize_ticker raw_up) cands).
Proof.
  intros raw_up cands. subst cands. unfold ticker_candidates. cbv zeta. fold raw_up.
  set (init := if nonempty raw_up && negb (existsb (Ascii.eqb ".") raw_up)
                  && match_digits_letters raw_up
               then [raw_up ++ s ".MI"] else []).
  assert (Hi : List.NoDup init /\ (forall c, In c init -> c <> [])
               /\ (length init <= 1)%nat /\ (raw_up = [] -> init = [])).
  { unfold init. destruct raw_up as [| c0 r0] eqn:E.
    - cbn. split; [apply List.NoDup_nil |]. split; [intros c [] |]. split; [lia | reflexivity].
    - destruct (_ && _ && _).
      + split; [apply List.NoDup_cons; [intros [] | apply List.NoDup_nil] |].
        split; [intros c [<- | []]; discriminate |]. split; [cbn [length]; lia | discriminate].
      + split; [apply List.NoDup_nil |]. split; [intros c [] |].
        split; [cbn [length]; lia | discriminate]. }
  destruct Hi as (ND0 & NE0 & L0 & Z0).
  cbn [fold_left].
  destruct (add_candidate_spec init raw_up ND0 NE0) as (ND1 & NE1 & M1 & A1 & L1 & O1 & _).
  destruct (add_candidate_spec _ (normalize_ticker raw_up) ND1 NE1)
    as (ND2 & NE2 & M2 & A2 & L2 & O2 & _).
  split; [exact ND2 |]. split; [exact NE2 |]. split; [unfold str in *; lia |].
  split; [split |].
  - intros E. destruct (nonempty raw_up) eqn:En; [| now apply nonempty_false].
    apply nonempty_true in En. pose proof (M2 _ (A1 En)) as H.
    rewrite E in H. destruct H.
  - intros E. rewrite E in *. rewrite (Z0 eq_refl). reflexivity.
  - intros Hne. split; [apply M2, A1, Hne |].
    apply A2. pose proof (clean_canonical raw) as Hc. fold raw_up in Hc.
    unfold normalize_ticker. apply nonempty_true in Hne. rewrite Hne. cbn [negb].
    rewrite (clean_id _ Hc). apply nonempty_true in Hne.
    destruct (match_digits_letters_suffix raw_up) eqn:Em; [| exact Hne].
    unfold match_digits_letters_suffix in Em.
    apply andb_true_iff in Em as [Em _]. apply andb_true_iff in Em as [Em _].
    apply andb_true_iff in Em as [_ Em]. apply Nat.leb_le in Em.
    destruct (drop_while is_digit raw_up); [cbn in Em; lia | discriminate].
Qed.

Example fundamentals_intc :
  fundamentals_candidates (s " 1intc.mi ") = [s "1INTC.MI"; s "INTC.MI"; s "INTC"].
Proof. vm_compute. reflexivity. Qed.

(** X6.  For every input, [fundamentals_candidates] returns at most five
    candidates, all non-empty and pairwise distinct; when the cleaned input
    is non-empty it comes first (no regional variant is put before it), and
    the normalized form is always listed when it is non-empty. *)
Theorem X6_fundamentals_candidates_shape (raw : str) :
  let raw_up := remove_spaces (upper (strip raw)) in
  let cands := fundamentals_candidates raw in
  List.NoDup cands
  /\ (forall c, In c cands -> c <> [])
  /\ (length cands <= 5)%nat
  /\ (raw_up <> [] -> exists tl, cands = raw_up :: tl)
  /\ (normalize_ticker raw_up <> [] -> In (normalize_ticker raw_up) cands)
  /\ (raw_up = [] -> cands = []).
Proof.
  intros raw_up cands. subst cands. unfold fundamentals_candidates. cbv zeta. fold raw_up.
  set (norm := normalize_ticker raw_up).
  set (no_digits := if nonempty raw_up then drop_while is_digit raw_up else raw_up).
  destruct (add_candidate_spec [] raw_up (List.NoDup_nil _) ltac:(intros c []))
    as (ND1 & NE1 & M1 & A1 & L1 & O1 & _).
  destruct (add_candidate_spec _ norm ND1 NE1) as (ND2 & NE2 & M2 & A2 & L2 & O2 & H2).
  set (c2 := add_candidate (add_candidate [] raw_up) norm) in *.
  set (c3 := if nonempty norm && has_dot norm
             then add_candidate c2 (before_dot norm) else c2).
  assert (P3 : List.NoDup c3 /\ (forall c, In c c3 -> c <> [])
               /\ (forall c, In c c2 -> In c c3) /\ (length c3 <= S (length c2))%nat
               /\ (forall h tl, c2 = h :: tl -> exists tl', c3 = h :: tl')
               /\ (c2 = [] -> norm = [] -> c3 = [])).
  { unfold c3. destruct (nonempty norm && has_dot norm) eqn:E.
    - destruct (add_candidate_spec c2 (before_dot norm) ND2 NE2)
        as (N & E' & M & _ & L & _ & H).
      repeat split; auto. intros _ Hn. rewrite Hn in E. discriminate.
    - repeat split; auto. intros h tl ->. eauto. }
  destruct P3 as (ND3 & NE3 & M3 & L3 & H3 & Z3).
  destruct (add_candidate_spec c3 no_digits ND3 NE3) as (ND4 & NE4 & M4 & A4 & L4 & O4 & H4).
  set (c4 := add_candidate c3 no_digits) in *.
  set (c5 := if nonempty no_digits && has_dot no_digits
             then add_candidate c4 (before_dot no_digits) else c4).
  assert (P5 : List.NoDup c5 /\ (forall c, In c c5 -> c <> [])
               /\ (forall c, In c c4 -> In c c5) /\ (length c5 <= S (length c4))%nat
               /\ (forall h tl, c4 = h :: tl -> exists tl', c5 = h :: tl')
               /\ (c4 = [] -> no_digits = [] -> c5 = [])).
  { unfold c5. destruct (nonempty no_digits && has_dot no_digits) eqn:E.
    - destruct (add_candidate_spec c4 (before_dot no_digits) ND4 NE4)
        as (N & E' & M & _ & L & _ & H).
      repeat split; auto. intros _ Hn. rewrite Hn in E. discriminate.
    - repeat split; auto. intros h tl ->. eauto. }
  destruct P5 as (ND5 & NE5 & M5 & L5 & H5 & Z5).
  split; [exact ND5 |]. split; [exact NE5 |].
  split; [cbn [length] in L1; unfold str in *; lia |].
  split; [| split].
  - intros Hne.
    assert (E1 : add_candidate [] raw_up = [raw_up]).
    { unfold add_candidate. apply nonempty_true in Hne. now rewrite Hne. }
    destruct (H2 raw_up [] E1) as [t2 E2]. fold c2 in E2.
    destruct (H3 _ _ E2) as [t3 E3]. destruct (H4 _ _ E3) as [t4 E4]. fold c4 in E4.
    destruct (H5 _ _ E4) as [t5 E5]. now exists t5.
  - intros Hn. apply M5, M4, M3, A2, Hn.
  - intros Hr.
    assert (En : norm = []) by (unfold norm; now rewrite Hr).
    assert (Ed : no_digits = []) by (unfold no_digits; now rewrite Hr).
    assert (E2 : c2 = []) by (unfold c2; now rewrite Hr, En).
    assert (E4 : c4 = []) by (unfold c4; now rewrite (Z3 E2 En), Ed).
    now apply Z5.
Qed.

End TickerMore.

(** ** Supply/demand zones: filtering, merging and the state's strength *)

Module ZonesMore.
Import Num NumFacts NumMore Zones ZonesFacts.

(** X7.  [filter_zones_by_distance] only ever removes zones, never leaves
    a side empty that had zones (it falls back to the unfiltered side), and
    returns its input when the price or the percentage is not positive. *)
Theorem X7_filter_zones_keeps_sides_populated (zs : zones) (p min_pct : Q) :
  let r := filter_zones_by_distance zs p min_pct in
  (forall z, In z (support r) -> In z (support zs))
  /\ (forall z, In z (resistance r) -> In z (resistance zs))
  /\ (support zs <> [] -> support r <> [])
  /\ (resistance zs <> [] -> resistance r <> [])
  /\ (p <= 0 \/ min_pct <= 0 -> r = zs)
  /\ ((length (support r) < length (support zs))%nat ->
      forall z, In z (support r) -> p * (min_pct / 100) <= p - price z).
Proof.
  intros r. subst r. unfold filter_zones_by_distance.
  destruct (Qleb p 0 || Qleb min_pct 0) eqn:G.
  - repeat split; auto. intros H. lia.
  - apply orb_false_iff in G as [G1 G2].
    apply Qleb_gt in G1. apply Qleb_gt in G2. cbn [support resistance].
    set (fs := List.filter _ (support zs)). set (fr := List.filter _ (resistance zs)).
    split; [| split; [| split; [| split; [| split]]]].
    + intros z Hz. destruct fs eqn:E; [exact Hz |].
      rewrite <- E in Hz. unfold fs in Hz. now apply filter_In in Hz.
    + intros z Hz. destruct fr eqn:E; [exact Hz |].
      rewrite <- E in Hz. unfold fr in Hz. now apply filter_In in Hz.
    + intros Hne. destruct fs; [exact Hne | discriminate].
    + intros Hne. destruct fr; [exact Hne | discriminate].
    + intros [H | H]; exfalso; lra.
    + intros Hlt z Hz. destruct fs eqn:E; [lia |].
      rewrite <- E in Hz. unfold fs in Hz. apply filter_In in Hz as [_ Hz].
      now apply Qleb_le in Hz.
Qed.

(** *** [max] and [min] with a default *)

Lemma fold_max_spec (l : list Q) (x : Q) :
  let m := fold_left (fun best y => if Qltb best y then y else best) l x in
  In m (x :: l) /\ forall y, In y (x :: l) -> y <= m.
Proof.
  revert x. induction l as [| a l IH]; intros x; cbn [fold_left].
  - split; [now left |]. intros y [<- | []]. apply Qle_refl.
  - destruct (Qltb x a) eqn:E.
    + apply Qltb_lt in E. destruct (IH a) as [H1 H2]. split.
      * right. exact H1.
      * intros y [<- | Hy]; [| now apply H2].
        apply Qle_trans with a; [now apply Qlt_le_weak | apply H2; now left].
    + apply Qltb_ge in E. destruct (IH x) as [H1 H2]. split.
      * destruct H1 as [H1 | H1]; [now left | right; now right].
      * intros y [<- | [<- | Hy]]; [apply H2; now left | | apply H2; now right].
        apply Qle_trans with x; [exact E | apply H2; now left].
Qed.

Lemma fold_min_spec (l : list Q) (x : Q) :
  let m := fold_left (fun best y => if Qltb y best then y else best) l x in
  In m (x :: l) /\ forall y, In y (x :: l) -> m <= y.
Proof.
  revert x. induction l as [| a l IH]; intros x; cbn [fold_left].
  - split; [now left |]. intros y [<- | []]. apply Qle_refl.
  - destruct (Qltb a x) eqn:E.
    + apply Qltb_lt in E. destruct (IH a) as [H1 H2]. split.
      * right. exact H1.
      * intros y [<- | Hy]; [| now apply H2].
        apply Qle_trans with a; [apply H2; now left | now apply Qlt_le_weak].
    + apply Qltb_ge in E. destruct (IH x) as [H1 H2]. split.
      * destruct H1 as [H1 | H1]; [now left | right; now right].
      * intros y [<- | [<- | Hy]]; [apply H2; now left | | apply H2; now right].
        apply Qle_trans with x; [apply H2; now left | exact E].
Qed.

Lemma py_max_spec (l : list Q) (m : Q) :
  py_max l = Some m -> In m l /\ forall y, In y l -> y <= m.
Proof.
  destruct l as [| x l]; [discriminate |]. cbn [py_max]. intros [= <-].
  apply fold_max_spec.
Qed.

Lemma py_min_spec (l : list Q) (m : Q) :
  py_min l = Some m -> In m l /\ forall y, In y l -> m <= y.
Proof.
  destruct l as [| x l]; [discriminate |]. cbn [py_min]. intros [= <-].
  apply fold_min_spec.
Qed.

(** X8.  With a positive current price and positive zone prices,
    [determine_market_state] never divides by zero, its strength lies
    between 0 and 100, and a state other than [IN_NONE] is backed by a zone:
    [IN_DEMAND] by a support at or below the price and nearer than
    [proximity] percent, [IN_SUPPLY] by such a resistance at or above it. *)
Theorem X8_market_state_strength_and_backing
    (p : Q) (supports resistances : list zone) (proximity : Q) :
  0 < p ->
  (forall z, In z supports -> 0 < price z) ->
  (forall z, In z resistances -> 0 < price z) ->
  exists st strength,
    determine_market_state p supports resistances proximity = Result st strength
    /\ 0 <= strength <= 100
    /\ (st = IN_DEMAND ->
        exists z, In z supports /\ price z <= p
                  /\ ((p - price z) / price z) * 100 < proximity)
    /\ (st = IN_SUPPLY ->
        exists z, In z resistances /\ p <= price z
                  /\ ((price z - p) / price z) * 100 < proximity).
Proof.
  intros Hp Hs Hr. unfold determine_market_state.
  destruct (py_max _) as [ns |] eqn:Ens.
  2: { exists IN_NONE, 0. repeat split; try discriminate; lra. }
  destruct (py_min _) as [nr |] eqn:Enr.
  2: { exists IN_NONE, 0. repeat split; try discriminate; lra. }
  apply py_max_spec in Ens as [Ens _]. apply py_min_spec in Enr as [Enr _].
  apply in_map_iff in Ens as (zs & Ezs & Hzs). apply filter_In in Hzs as [Hzs1 Hzs2].
  apply in_map_iff in Enr as (zr & Ezr & Hzr). apply filter_In in Hzr as [Hzr1 Hzr2].
  apply Qleb_le in Hzs2. apply Qleb_le in Hzr2.
  pose proof (Hs zs Hzs1) as Pns. pose proof (Hr zr Hzr1) as Pnr.
  rewrite Ezs in Hzs2, Pns. rewrite Ezr in Hzr2, Pnr.
  assert (Qeq_bool ns 0 = false) as ->.
  { destruct (Qeq_bool ns 0) eqn:E; [| reflexivity]. apply Qeq_bool_eq in E. lra. }
  assert (Qeq_bool nr 0 = false) as ->.
  { destruct (Qeq_bool nr 0) eqn:E; [| reflexivity]. apply Qeq_bool_eq in E. lra. }
  cbn [orb].
  set (ds := (p - ns) / ns * 100). set (dr := (nr - p) / nr * 100).
  assert (Hds : 0 <= ds).
  { unfold ds. apply Qmult_le_0_compat; [| lra].
    apply Qle_shift_div_l; [exact Pns | lra]. }
  assert (Hdr : 0 <= dr /\ dr < 100).
  { unfold dr. split.
    - apply Qmult_le_0_compat; [| lra]. apply Qle_shift_div_l; [exact Pnr | lra].
    - assert ((nr - p) / nr < 1) by (apply Qlt_shift_div_r; [exact Pnr | lra]). lra. }
  assert (Hstr : 0 <= py_round2 (100 - Qmin ds dr) <= 100).
  { assert (M1 : 0 <= Qmin ds dr) by (apply Q.min_glb; tauto).
    assert (M2 : Qmin ds dr <= dr) by apply Q.le_min_r.
    split.
    - apply (py_round2_ge _ 0). change (inject_Z 0) with 0. lra.
    - apply (py_round2_le _ 100). change (inject_Z 100) with 100. lra. }
  destruct (Qltb ds dr && Qltb ds proximity) eqn:C1.
  - apply andb_true_iff in C1 as [_ C1]. apply Qltb_lt in C1.
    exists IN_DEMAND, (py_round2 (100 - Qmin ds dr)).
    split; [reflexivity |]. split; [exact Hstr |]. split; [| discriminate].
    intros _. exists zs. rewrite Ezs. auto.
  - destruct (Qltb dr ds && Qltb dr proximity) eqn:C2.
    + apply andb_true_iff in C2 as [_ C2]. apply Qltb_lt in C2.
      exists IN_SUPPLY, (py_round2 (100 - Qmin ds dr)).
      split; [reflexivity |]. split; [exact Hstr |]. split; [discriminate |].
      intros _. exists zr. rewrite Ezr. auto.
    + exists IN_NONE, (py_round2 (100 - Qmin ds dr)).
      split; [reflexivity |]. split; [exact Hstr |]. split; discriminate.
Qed.

Lemma X8_market_state_strength_and_backing_witness :
  exists st strength,
    determine_market_state 100 [z 99 98 100] [z 110 109 111] (3 # 2) = Result st strength
    /\ 0 <= strength <= 100.
Proof.
  destruct (X8_market_state_strength_and_backing 100 [z 99 98 100] [z 110 109 111] (3 # 2))
    as (st & strength & H1 & H2 & _).
  - reflexivity.
  - intros z0 [<- | []]. reflexivity.
  - intros z0 [<- | []]. reflexivity.
  - exists st, strength. split; assumption.
Defined.

(** *** Merging never adds zones *)

Lemma length_insert_by_price (x : zone) (l : list zone) :
  length (insert_by_price x l) = S (length l).
Proof.
  induction l as [| y l IH]; cbn; [reflexivity |].
  destruct (Qltb (price y) (price x)); cbn; [now rewrite IH | reflexivity].
Qed.

Lemma length_sorted_by_price (l : list zone) : length (sorted_by_price l) = length l.
Proof.
  unfold sorted_by_price. induction l as [| x l IH]; cbn; [reflexivity |].
  now rewrite length_insert_by_price, IH.
Qed.

Lemma length_merge_loop (pct : Q) (items front : list zone) (last : zone) :
  (length front < length (merge_loop pct front last items)
   <= length front + S (length items))%nat.
Proof.
  revert front last. induction items as [| item tl IH]; intros front last; cbn [merge_loop].
  - rewrite length_app. cbn. lia.
  - cbv zeta. destruct (Qleb _ _).
    + specialize (IH front {| price := py_round2 ((price last + price item) / 2);
                              zmin := py_round2 (Qmin (zmin last) (zmin item));
                              zmax := py_round2 (Qmax (zmax last) (zmax item)) |}).
      cbn [length]. lia.
    + specialize (IH (front ++ [last]) item). rewrite length_app in IH. cbn in IH.
      cbn [length]. lia.
Qed.

(** X9.  [merge_close_zones] never adds a zone and never empties a side:
    each side of the result has at least one zone when it had one, and at
    most as many as before; with a gap percentage that is not positive the
    zones are returned untouched. *)
Theorem X9_merge_close_zones_counts (zs : zones) (min_gap_pct : Q) :
  let r := merge_close_zones zs min_gap_pct in
  (length (support r) <= length (support zs))%nat
  /\ (length (resistance r) <= length (resistance zs))%nat
  /\ (support zs <> [] -> support r <> [])
  /\ (resistance zs <> [] -> resistance r <> [])
  /\ (min_gap_pct <= 0 -> r = zs).
Proof.
  intros r. subst r. unfold merge_close_zones.
  assert (H : forall items,
             (length (merge_list min_gap_pct items) <= length items)%nat
             /\ (items <> [] -> merge_list min_gap_pct items <> [])).
  { intros items. unfold merge_list.
    pose proof (length_sorted_by_price items) as L.
    destruct (sorted_by_price items) as [| first rest]; [split; [lia | tauto] |].
    pose proof (length_merge_loop min_gap_pct rest [] first) as B. cbn in B, L.
    split; [lia |]. intros _ E. rewrite E in B. cbn in B. lia. }
  destruct (Qleb min_gap_pct 0) eqn:G.
  - repeat split; auto.
  - cbn [support resistance].
    destruct (H (support zs)) as [S1 S2]. destruct (H (resistance zs)) as [R1 R2].
    repeat split; auto. intros Hle. apply Qleb_gt in G. lra.
Qed.

End ZonesMore.

(** ** Risk composite: the range of the index *)

Module RiskMore.
Import Num NumFacts NumMore Risk RiskFacts.

(** A score, when present, lies in the unit interval. *)
Local Abbreviation unit_score o := (forall v : Q, o = Some v -> 0 <= v <= 1).

Lemma unit_option_map (f : Q -> Q) (o : option Q) :
  unit_score (option_map (fun v => _clamp01 (f v)) o).
Proof. intros v. destruct o; cbn; [intros [= <-]; apply _clamp01_range | discriminate]. Qed.

Lemma parts_all_unit (log10 : Q -> Q) (r : inputs) :
  Forall (fun p => unit_score (fst p) /\ 0 < snd p) (parts_all log10 r).
Proof.
  unfold parts_all.
  repeat (apply List.Forall_cons; [split; [| reflexivity] |]); try apply List.Forall_nil;
    cbn [fst]; try apply unit_option_map.
  - unfold liquidity_score. intros v.
    destruct (match avg_dollar_volume r with Some d => Some d | None => avg_volume_num r end);
      [| discriminate].
    destruct (_log10 log10 q); [| discriminate]. intros [= <-]. apply _clamp01_range.
  - unfold size_score. intros v. destruct (market_cap_num r); [| discriminate].
    destruct (_log10 log10 q); [| discriminate]. intros [= <-]. apply _clamp01_range.
Qed.

Lemma present_unit (ps : list (option Q * Q)) :
  Forall (fun p => unit_score (fst p) /\ 0 < snd p) ps ->
  Forall (fun p => 0 <= fst p <= 1 /\ 0 < snd p) (present ps).
Proof.
  induction 1 as [| [[v |] w] ps [H1 H2] _ IH]; cbn; [constructor | | exact IH].
  constructor; [| exact IH]. cbn in *. split; [now apply H1 | exact H2].
Qed.

(** Running sums of weighted scores stay below the running sums of weights. *)
Lemma weighted_sums (ps : list (Q * Q)) (a b : Q) :
  Forall (fun p => 0 <= fst p <= 1 /\ 0 < snd p) ps ->
  0 <= a <= b ->
  let A := fold_left Qplus (map (fun p => fst p * snd p) ps) a in
  let B := fold_left Qplus (map snd ps) b in
  0 <= A <= B /\ b <= B /\ (ps <> [] -> b < B).
Proof.
  intros H. revert a b. induction H as [| [v w] ps [Hv Hw] _ IH]; intros a b Hab; cbn.
  - repeat split; try tauto; lra.
  - cbn in Hv, Hw.
    assert (H0 : 0 <= v * w) by (apply Qmult_le_0_compat; lra).
    assert (H1 : v * w <= 1 * w) by (apply Qmult_le_compat_r; lra).
    destruct (IH (a + v * w) (b + w) ltac:(lra)) as (I1 & I2 & _).
    repeat split; try tauto; lra.
Qed.

Lemma risk_index_of_range (ps : list (Q * Q)) (i : Z) :
  Forall (fun p => 0 <= fst p <= 1 /\ 0 < snd p) ps ->
  risk_index_of ps = Some i -> (0 <= i <= 100)%Z.
Proof.
  intros H Hi.
  assert (Hne : ps <> []) by (intros ->; discriminate).
  destruct (weighted_sums _ 0 0 H ltac:(lra)) as (HA & _ & HB).
  specialize (HB Hne).
  fold (qsum (map (fun p => fst p * snd p) ps)) in HA.
  fold (qsum (map snd ps)) in HA, HB.
  assert (Hi' : i = py_round (qsum (map (fun p => fst p * snd p) ps) / qsum (map snd ps) * 100)).
  { destruct ps; [congruence |]. unfold risk_index_of in Hi. congruence. }
  rewrite Hi'. clear Hi Hi'.
  set (A := qsum (map (fun p => fst p * snd p) ps)) in *.
  set (B := qsum (map snd ps)) in *.
  assert (H1 : 0 <= A / B) by (apply Qle_shift_div_l; lra).
  assert (H2 : A / B <= 1) by (apply Qle_shift_div_r; lra).
  generalize dependent (A / B). intros x H1 H2.
  split.
  - apply py_round_ge. change (inject_Z 0) with 0. lra.
  - apply py_round_le. change (inject_Z 100) with 100. lra.
Qed.

(** X10.  Whenever the risk index is defined it lies between 0 and 100,
    whatever the inputs and the logarithm. *)
Theorem X10_risk_index_between_0_and_100 (log10 : Q -> Q) (r : inputs) (i : Z) :
  risk_index log10 r = Some i -> (0 <= i <= 100)%Z.
Proof.
  unfold risk_index. apply risk_index_of_range, present_unit, parts_all_unit.
Qed.

Lemma X10_risk_index_between_0_and_100_witness : (0 <= 50 <= 100)%Z.
Proof.
  apply (X10_risk_index_between_0_and_100 (fun _ => 0) sample_vol_dd 50).
  vm_compute. reflexivity.
Defined.

End RiskMore.

(** ** Provider payloads: coercion of strings, repeated merges *)

Module FundamentalsMore.
Import Num Ticker TickerFacts Shapes TickerMore Fundamentals FundamentalsFacts.






Section WithBuiltins.

Variable py_float : str -> option fval.
Variable py_str : pyval -> str.

Local Abbreviation str_to_float := (str_to_float py_float).
Local Abbreviation _to_float := (_to_float py_float).
Local Abbreviation merge_item := (merge_item py_float py_str).
Local Abbreviation _merge_missing_info := (_merge_missing_info py_float py_str).

(** The cleaned text [value.strip().replace(",", "")]. *)
Local Abbreviation cleaned t := (List.filter (fun c => negb (Ascii.eqb c ",")) (strip t)).






(** *** Merging the same payload again *)

Lemma merge_item_not_none (target : gmap string pyval) (kv : string * pyval) :
  merge_item target kv = target \/ not_none (merge_item target kv !! fst kv) = true.
Proof.
  unfold Fundamentals.merge_item. destruct kv as [k v]. cbn [fst snd].
  destruct (not_none (target !! k) || is_none v); [now left |].
  destruct (existsb (String.eqb k) text_keys).
  - destruct (Fundamentals._to_text py_str v); [| now left].
    right. now rewrite lookup_insert_eq.
  - destruct (Fundamentals._to_float py_float v); [| now left].
    right. now rewrite lookup_insert_eq.
Qed.

(** An item that changes nothing now changes nothing later, as long as its
    slot is still empty. *)
Lemma merge_item_stable (t1 t2 : gmap string pyval) (kv : string * pyval) :
  merge_item t1 kv = t1 -> not_none (t1 !! fst kv) = false ->
  merge_item t2 kv = t2.
Proof.
  unfold Fundamentals.merge_item. destruct kv as [k v]. cbn [fst snd]. intros H Hn.
  rewrite Hn in H. cbn [orb] in H.
  destruct (not_none (t2 !! k)); [reflexivity |]. cbn [orb].
  destruct (is_none v); [reflexivity |].
  destruct (existsb (String.eqb k) text_keys).
  - destruct (Fundamentals._to_text py_str v) as [txt |]; [| reflexivity].
    exfalso. apply (f_equal (fun m => m !! k)) in H. rewrite lookup_insert_eq in H.
    rewrite <- H in Hn. discriminate.
  - destruct (Fundamentals._to_float py_float v) as [num |]; [| reflexivity].
    exfalso. apply (f_equal (fun m => m !! k)) in H. rewrite lookup_insert_eq in H.
    rewrite <- H in Hn. discriminate.
Qed.

Lemma merge_item_filled (target : gmap string pyval) (kv : string * pyval) :
  not_none (target !! fst kv) = true -> merge_item target kv = target.
Proof. unfold Fundamentals.merge_item. intros ->. reflexivity. Qed.

Lemma fold_settled (items : list (string * pyval)) (target : gmap string pyval)
    (kv : string * pyval) :
  In kv items -> merge_item (fold_left merge_item items target) kv
                 = fold_left merge_item items target.
Proof.
  revert target. induction items as [| x tl IH]; intros target; [intros [] |].
  intros [-> | Hin]; [| apply IH, Hin]. cbn [fold_left].
  destruct (not_none (fold_left merge_item tl (merge_item target kv) !! fst kv)) eqn:Hf.
  - apply merge_item_filled, Hf.
  - assert (Hs : merge_item target kv = target).
    { destruct (merge_item_not_none target kv) as [E | N]; [exact E |].
      rewrite (fold_keeps _ _ tl _ _ N) in Hf. congruence. }
    rewrite Hs in *.
    destruct (not_none (target !! fst kv)) eqn:Ht.
    + rewrite (fold_keeps _ _ tl _ _ Ht) in Hf. congruence.
    + apply (merge_item_stable target); assumption.
Qed.

Lemma fold_fixed (items : list (string * pyval)) (target : gmap string pyval) :
  (forall kv, In kv items -> merge_item target kv = target) ->
  fold_left merge_item items target = target.
Proof.
  revert target. induction items as [| x tl IH]; intros target H; [reflexivity |].
  cbn [fold_left]. rewrite (H x (or_introl eq_refl)). apply IH.
  intros kv Hin. apply H. now right.
Qed.

(** X12.  Merging the same source a second time changes nothing: what the
    first pass could fill is filled, and what it could not coerce it still
    cannot. *)
Theorem X12_merge_missing_info_idempotent (target : gmap string pyval) (source : pyval) :
  _merge_missing_info (_merge_missing_info target source) source
  = _merge_missing_info target source.
Proof.
  destruct source; try reflexivity. cbn [Fundamentals._merge_missing_info].
  apply fold_fixed. intros kv Hin. apply fold_settled, Hin.
Qed.

(** *** Text coercion *)

Lemma nonempty_or_none_Some (x t : str) :
  nonempty_or_none x = Some t -> t = x /\ t <> [].
Proof.
  unfold nonempty_or_none. destruct (nonempty x) eqn:E; [| discriminate].
  intros [= <-]. split; [reflexivity |]. now apply nonempty_true.
Qed.

(** X25.  A text that [_to_text] returns has no white space at either end.
    For a value that is not a dict it is never empty; the dict branches skip
    that test, so a blank ["fmt"] string comes back as the empty text. *)
Theorem X25_to_text_is_stripped (v : pyval) (t : str) :
  (Fundamentals._to_text py_str v = Some t ->
   head_ok t /\ head_ok (rev t) /\ ((forall items, v <> PDict items) -> t <> []))
  /\ Fundamentals._to_text py_str (PDict [("fmt"%string, PStr (s " "))]) = Some [].
Proof.
  split; [| reflexivity].
  assert (Hs : forall x, nonempty_or_none (strip x) = Some t ->
                         head_ok t /\ head_ok (rev t) /\ t <> []).
  { intros x H. apply nonempty_or_none_Some in H as [-> Hne].
    destruct (strip_ends x). auto. }
  assert (Hd : forall x, Some (strip x) = Some t -> head_ok t /\ head_ok (rev t)).
  { intros x [= <-]. apply strip_ends. }
  destruct v as [| b | n | f | x | items | tag]; cbn [Fundamentals._to_text];
    try discriminate;
    try (intros H; apply Hs in H as (H1 & H2 & H3); auto).
  intros H.
  assert (Hh : head_ok t /\ head_ok (rev t)).
  { destruct (items_get items "fmt") as [f |].
    - destruct (truthy f); [now apply (Hd (text_of py_str f)) |].
      destruct (items_get items "raw") as [r |]; [| discriminate].
      destruct (is_none r); [discriminate | now apply (Hd (text_of py_str r))].
    - destruct (items_get items "raw") as [r |]; [| discriminate].
      destruct (is_none r); [discriminate | now apply (Hd (text_of py_str r))]. }
  destruct Hh as [H1 H2]. split; [exact H1 |]. split; [exact H2 |].
  intros Hn. now destruct (Hn items).
Qed.

End WithBuiltins.

Lemma X25_to_text_is_stripped_witness :
  head_ok (s "Eni") /\ head_ok (rev (s "Eni"))
  /\ ((forall items, PStr (s " Eni ") <> PDict items) -> s "Eni" <> []).
Proof.
  apply (proj1 (X25_to_text_is_stripped (fun _ => []) (PStr (s " Eni ")) (s "Eni"))).
  reflexivity.
Defined.


End FundamentalsMore.

(** ** Seasonality: the stored curves and their percentile bands *)

Module SeasonalityMore.
Import Num NumFacts NumMore Seasonality SeasonalityFacts Percentiles.

Lemma length_monthly_curve_of (group : list row) : length (monthly_curve_of group) = 12%nat.
Proof.
  unfold monthly_curve_of.
  assert (H : forall (g : list row) (c : list (option Q)),
             length (fold_left
                       (fun curve r =>
                          match MonthlyReturnPct r with
                          | Finite q => <[Z.to_nat (Month r - 1) := Some (py_round2 q)]> curve
                          | _ => curve
                          end) g c) = length c).
  { induction g as [| r g IH]; intros c; cbn [fold_left]; [reflexivity |].
    rewrite IH. destruct (MonthlyReturnPct r); try reflexivity. apply length_insert. }
  rewrite H. reflexivity.
Qed.

(** *** The two dicts *)

(** The invariant of the loop over the years. *)
Local Abbreviation curves_ok c :=
  (forall y : Z,
     snd c !! y = cumulative_curve_of <$> (fst c !! y)
     /\ forall m, fst c !! y = Some m -> length m = 12%nat /\ existsb is_some m = true).

Lemma year_step_ok (df : list row) (current_year : Z) (acc : curves) (year : Z) :
  curves_ok acc -> curves_ok (year_step df current_year acc year).
Proof.
  intros H. unfold year_step.
  destruct (negb (year =? current_year)%Z && (valid_months (group_of df year) <? 6)%nat);
    [exact H |].
  destruct (existsb is_some (monthly_curve_of (group_of df year))) eqn:E; [| exact H].
  intros y. cbn [fst snd]. destruct (decide (year = y)) as [-> | Hne].
  - rewrite !lookup_insert_eq. split; [reflexivity |].
    intros m [= <-]. split; [apply length_monthly_curve_of | exact E].
  - rewrite !lookup_insert_ne by exact Hne. apply H.
Qed.

Lemma fold_year_step_ok (df : list row) (current_year : Z) (ys : list Z) (acc : curves) :
  curves_ok acc -> curves_ok (fold_left (year_step df current_year) ys acc).
Proof.
  revert acc. induction ys as [| y ys IH]; intros acc H; cbn [fold_left]; [exact H |].
  apply IH, year_step_ok, H.
Qed.

(** X14.  The two result dicts hold the same years; a stored monthly curve
    has twelve slots, at least one of them populated, and the cumulative
    dict holds its compounded curve under the same year. *)
Theorem X14_seasonal_dicts_agree (nanquantile : list fval -> Q -> fval)
    (df : list row) (exclude_outliers : bool) (current_year year : Z) :
  let c := seasonal_curves nanquantile df exclude_outliers current_year in
  cumulativeCurveByYear c !! year = cumulative_curve_of <$> (seasonalCurveByYear c !! year)
  /\ forall m, seasonalCurveByYear c !! year = Some m ->
               length m = 12%nat /\ existsb is_some m = true.
Proof.
  cbv zeta. unfold seasonalCurveByYear, cumulativeCurveByYear, seasonal_curves.
  apply fold_year_step_ok. intros y. cbn [fst snd]. rewrite !lookup_empty.
  split; [reflexivity | discriminate].
Qed.

(** *** Percentile bands *)

Lemma insert_sorted_ascending (v : Q) (l : list Q) :
  ascending l -> ascending (insert_sorted v l).
Proof.
  induction 1 as [| x | x y l Hxy Hl IH]; cbn [insert_sorted].
  - constructor.
  - destruct (Qleb v x) eqn:E.
    + constructor; [now apply Qleb_le | constructor].
    + constructor; [apply Qleb_gt in E; lra | constructor].
  - destruct (Qleb v x) eqn:E.
    + constructor; [now apply Qleb_le | now constructor].
    + cbn [insert_sorted] in IH. destruct (Qleb v y) eqn:E2.
      * constructor; [apply Qleb_gt in E; lra |]. exact IH.
      * constructor; [exact Hxy | exact IH].
Qed.

Lemma sorted_ascending (vals : list Q) : ascending (sorted vals).
Proof.
  induction vals as [| v vals IH]; cbn; [constructor | now apply insert_sorted_ascending].
Qed.

Lemma In_insert_sorted (v x : Q) (l : list Q) :
  In x (insert_sorted v l) <-> x = v \/ In x l.
Proof.
  induction l as [| y l IH]; cbn [insert_sorted]; [cbn; intuition |].
  destruct (Qleb v y); cbn [In]; [intuition | rewrite IH; cbn [In]; intuition].
Qed.

Lemma In_sorted (x : Q) (vals : list Q) : In x (sorted vals) <-> In x vals.
Proof.
  induction vals as [| v vals IH]; cbn [sorted fold_right]; [reflexivity |].
  fold (sorted vals). rewrite In_insert_sorted, IH. cbn [In]. intuition.
Qed.

Lemma length_insert_sorted (v : Q) (l : list Q) :
  length (insert_sorted v l) = S (length l).
Proof.
  induction l as [| y l IH]; cbn [insert_sorted]; [reflexivity |].
  destruct (Qleb v y); cbn [length]; [reflexivity | now rewrite IH].
Qed.

Lemma length_sorted (vals : list Q) : length (sorted vals) = length vals.
Proof.
  induction vals as [| v vals IH]; cbn [sorted fold_right]; [reflexivity |].
  fold (sorted vals). rewrite length_insert_sorted, IH. reflexivity.
Qed.

Lemma ascending_head (x : Q) (l : list Q) (y : Q) :
  ascending (x :: l) -> In y l -> x <= y.
Proof.
  revert x. induction l as [| z l IH]; intros x H Hin; [destruct Hin |].
  inversion H as [| | ? ? ? Hxz Hl]; subst. destruct Hin as [<- | Hin]; [exact Hxz |].
  specialize (IH z Hl Hin). lra.
Qed.

Lemma ascending_tail (x : Q) (l : list Q) : ascending (x :: l) -> ascending l.
Proof. inversion 1; subst; [constructor | assumption]. Qed.

Lemma ascending_nth (l : list Q) (i j : nat) :
  ascending l -> (i <= j < length l)%nat -> nth i l 0 <= nth j l 0.
Proof.
  revert i j. induction l as [| x l IH]; intros i j H Hij; [cbn in Hij; lia |].
  destruct j as [| j].
  - assert (i = 0%nat) as -> by lia. lra.
  - destruct i as [| i].
    + cbn [nth]. apply (ascending_head x l); [exact H |].
      apply nth_In. cbn in Hij. lia.
    + cbn [nth]. apply IH; [now apply ascending_tail in H | cbn in Hij; lia].
Qed.

Lemma band_indices (k : nat) :
  (k / 10 <= k / 2 /\ k / 2 <= 9 * k / 10 /\ 9 * k / 10 <= k)%nat.
Proof.
  pose proof (Nat.div_mod_eq k 10). pose proof (Nat.mod_upper_bound k 10).
  pose proof (Nat.div_mod_eq k 2). pose proof (Nat.mod_upper_bound k 2).
  pose proof (Nat.div_mod_eq (9 * k) 10). pose proof (Nat.mod_upper_bound (9 * k) 10).
  lia.
Qed.

Lemma band_of_ordered (vals : list Q) :
  p10 (band_of vals) <= median (band_of vals) <= p90 (band_of vals).
Proof.
  destruct vals as [| v vals]; [cbn; lra |].
  unfold band_of. cbv zeta. cbn [p10 median p90].
  pose proof (sorted_ascending (v :: vals)) as Ha.
  pose proof (length_sorted (v :: vals)) as Hl. cbn [length] in Hl.
  set (l := sorted (v :: vals)) in *. set (n := length l) in *.
  destruct (band_indices (n - 1)) as (H1 & H2 & H3).
  split; apply py_round2_mono, ascending_nth; try exact Ha; fold n;
    generalize dependent ((n - 1) / 10)%nat; generalize dependent ((n - 1) / 2)%nat;
    generalize dependent (9 * (n - 1) / 10)%nat; intros; clearbody n; lia.
Qed.

Lemma band_of_members (vals : list Q) :
  vals <> [] ->
  exists a b c, In a vals /\ In b vals /\ In c vals /\
    band_of vals = {| p10 := py_round2 a; median := py_round2 b; p90 := py_round2 c |}.
Proof.
  destruct vals as [| v vals]; [congruence |]. intros _.
  unfold band_of. cbv zeta.
  pose proof (length_sorted (v :: vals)) as Hl. cbn [length] in Hl.
  set (l := sorted (v :: vals)) in *. set (n := length l) in *.
  destruct (band_indices (n - 1)) as (H1 & H2 & H3).
  exists (nth ((n - 1) / 10) l 0), (nth ((n - 1) / 2) l 0), (nth (9 * (n - 1) / 10) l 0).
  repeat split; apply (In_sorted _ (v :: vals)); apply nth_In; fold l; fold n;
    generalize dependent ((n - 1) / 10)%nat; generalize dependent ((n - 1) / 2)%nat;
    generalize dependent (9 * (n - 1) / 10)%nat; intros; clearbody n; lia.
Qed.

Lemma month_vals_defined (i : nat) (curves : list (list (option Q))) :
  Forall (fun c => (i < length c)%nat) curves -> exists vals, month_vals i curves = Some vals.
Proof.
  induction 1 as [| c curves Hc _ [vals IH]]; cbn [month_vals]; [eauto |].
  destruct (lookup_lt_is_Some_2 c i Hc) as [o ->]. rewrite IH. eauto.
Qed.

Lemma month_vals_populated (i : nat) (curves : list (list (option Q))) (vals : list Q) (v : Q) :
  month_vals i curves = Some vals ->
  In v vals <-> exists c, In c curves /\ c !! i = Some (Some v).
Proof.
  revert vals. induction curves as [| c curves IH]; intros vals; cbn [month_vals].
  - intros [= <-]. split; [intros [] | intros (c & [] & _)].
  - destruct (c !! i) as [o |] eqn:Ec; [| discriminate].
    destruct (month_vals i curves) as [l |]; [| discriminate]. intros [= <-].
    specialize (IH l eq_refl). split.
    + destruct o as [x |].
      * intros [<- | Hin]; [exists c; split; [now left | exact Ec] |].
        apply IH in Hin as (c' & Hc' & E'). exists c'. split; [now right | exact E'].
      * intros Hin. apply IH in Hin as (c' & Hc' & E'). exists c'. split; [now right | exact E'].
    + intros (c' & [<- | Hc'] & E').
      * rewrite Ec in E'. injection E' as ->. now left.
      * assert (Hin : In v l) by (apply IH; eauto). destruct o; [now right | exact Hin].
Qed.

Lemma bands_for_spec (months : list nat) (curves : list (list (option Q))) (bs : list band) :
  bands_for months curves = Some bs ->
  length bs = length months
  /\ forall (j : nat) (b : band),
       bs !! j = Some b ->
       exists i vals, months !! j = Some i /\ month_vals i curves = Some vals /\ b = band_of vals.
Proof.
  revert bs. induction months as [| i months IH]; intros bs; cbn [bands_for fold_right].
  - intros [= <-]. split; [reflexivity | intros j b H; discriminate].
  - fold (bands_for months curves).
    destruct (month_vals i curves) as [vals |] eqn:Ev; [| discriminate].
    destruct (bands_for months curves) as [l |]; [| discriminate]. intros [= <-].
    destruct (IH l eq_refl) as [Hl Hb]. split; [cbn; now rewrite Hl |].
    intros [| j] b H.
    + injection H as <-. exists i, vals. auto.
    + apply (Hb j b H).
Qed.

Lemma bands_for_defined (months : list nat) (curves : list (list (option Q))) :
  (forall i, In i months -> Forall (fun c => (i < length c)%nat) curves) ->
  exists bs, bands_for months curves = Some bs.
Proof.
  induction months as [| i months IH]; intros H; cbn [bands_for fold_right]; [eauto |].
  fold (bands_for months curves).
  destruct (month_vals_defined i curves (H i (or_introl eq_refl))) as [vals ->].
  destruct IH as [bs ->]; [intros j Hj; apply H; now right | eauto].
Qed.

(** X15.  On curves of twelve slots [compute_percentiles] returns twelve
    bands.  In each band p10 <= median <= p90; a month no year populates
    gets three zeros, and otherwise each of the three numbers is the
    two-decimal rounding of a value some year holds for that month (nothing
    is interpolated). *)
Theorem X15_compute_percentiles_bands (curves : list (list (option Q))) :
  (Forall (fun c => length c = 12%nat) curves ->
   exists bs, compute_percentiles curves = Some bs)
  /\ forall bs, compute_percentiles curves = Some bs ->
       length bs = 12%nat
       /\ forall (i : nat) (b : band),
            bs !! i = Some b ->
            p10 b <= median b <= p90 b
            /\ ((forall c, In c curves -> c !! i = Some None)
                -> b = {| p10 := 0; median := 0; p90 := 0 |})
            /\ ((exists c v, In c curves /\ c !! i = Some (Some v))
                -> exists v1 v2 v3 c1 c2 c3,
                     In c1 curves /\ c1 !! i = Some (Some v1) /\
                     In c2 curves /\ c2 !! i = Some (Some v2) /\
                     In c3 curves /\ c3 !! i = Some (Some v3) /\
                     b = {| p10 := py_round2 v1; median := py_round2 v2;
                            p90 := py_round2 v3 |}).
Proof.
  unfold compute_percentiles. split.
  - intros H. apply bands_for_defined. intros i Hi. apply in_seq in Hi.
    eapply List.Forall_impl; [| exact H]. cbn. intros c ->. lia.
  - intros bs Hbs. destruct (bands_for_spec _ _ _ Hbs) as [Hl Hb].
    split; [now rewrite Hl, length_seq |].
    intros i b Hi. destruct (Hb i b Hi) as (i' & vals & Hi' & Hv & ->).
    assert (i' = i) as ->.
    { apply lookup_seq in Hi'. lia. }
    split; [apply band_of_ordered |]. split.
    + intros Hnone. destruct vals as [| v vals]; [reflexivity |].
      destruct (proj1 (month_vals_populated i curves _ v Hv) (or_introl eq_refl))
        as (c & Hc & E).
      rewrite (Hnone c Hc) in E. discriminate.
    + intros (c & v & Hc & E).
      assert (Hin : In v vals) by (apply (month_vals_populated i curves _ v Hv); eauto).
      destruct (band_of_members vals) as (a1 & a2 & a3 & I1 & I2 & I3 & Eb).
      { intros ->. destruct Hin. }
      apply (month_vals_populated i curves _ _ Hv) in I1 as (c1 & ? & ?).
      apply (month_vals_populated i curves _ _ Hv) in I2 as (c2 & ? & ?).
      apply (month_vals_populated i curves _ _ Hv) in I3 as (c3 & ? & ?).
      exists a1, a2, a3, c1, c2, c3. auto 10.
Qed.

Lemma X15_compute_percentiles_bands_witness :
  exists bs, compute_percentiles three_years = Some bs.
Proof.
  apply (proj1 (X15_compute_percentiles_bands three_years)).
  repeat constructor.
Defined.

End SeasonalityMore.

(** ** Normalizer, resampling and provider fallback: further properties *)

Module ResampleMore.
Import Num Resample ResampleFacts Order.

(** *** Ordered lists *)

Lemma above_weaken (strict : bool) (a b : Z) (l : list Z) :
  (b <= a)%Z -> above strict a l -> above strict b l.
Proof.
  destruct l as [| x l]; [trivial |]. cbn. intros H [H1 H2]. split; [| exact H2].
  destruct strict; lia.
Qed.

Lemma above_filter (strict : bool) (p : Z -> bool) (a : Z) (l : list Z) :
  above strict a l -> above strict a (List.filter p l).
Proof.
  revert a. induction l as [| x l IH]; intros a; [trivial |].
  cbn [above List.filter]. intros [H1 H2]. destruct (p x).
  - split; [exact H1 | now apply IH].
  - apply IH. apply (above_weaken strict x a); [destruct strict; lia | exact H2].
Qed.

Lemma ordered_filter (strict : bool) (p : Z -> bool) (l : list Z) :
  ordered strict l -> ordered strict (List.filter p l).
Proof.
  induction l as [| x l IH]; [trivial |]. cbn [ordered List.filter]. intros H.
  destruct (p x).
  - cbn [ordered]. now apply above_filter.
  - apply IH. destruct l as [| y l]; [trivial |]. cbn in H |- *. tauto.
Qed.

Lemma above_zrange (lo : Z) (a n : nat) (prev : Z) :
  (prev < lo + Z.of_nat a)%Z ->
  above true prev (map (fun i => (lo + Z.of_nat i)%Z) (seq a n)).
Proof.
  revert a prev. induction n as [| n IH]; intros a prev H; [exact I |].
  cbn [seq map above]. split; [exact H |]. apply IH. lia.
Qed.

Lemma ordered_zrange (lo hi : Z) : ordered true (zrange lo hi).
Proof.
  unfold zrange. destruct (Z.to_nat (hi - lo + 1)) as [| n]; [exact I |].
  cbn [seq map ordered]. apply above_zrange. lia.
Qed.

Lemma zrange_In (lo hi k : Z) : In k (zrange lo hi) -> (lo <= k <= hi)%Z.
Proof.
  unfold zrange. intros H. apply in_map_iff in H as (i & <- & Hi). apply in_seq in Hi. lia.
Qed.

Lemma filter_map_swap {A B : Type} (p : B -> bool) (f : A -> B) (l : list A) :
  List.filter p (map f l) = map f (List.filter (fun x => p (f x)) l).
Proof.
  induction l as [| x l IH]; [reflexivity |]. cbn. destruct (p (f x)); cbn; now rewrite IH.
Qed.

(** *** Sorting *)

Lemma insert_bar_head (x : bar) (l : frame) :
  above false (ts x) (map ts l) -> insert_bar x l = x :: l.
Proof.
  destruct l as [| y l]; [reflexivity |]. cbn. intros [H _].
  destruct (Z.ltb_spec (ts y) (ts x)); [lia | reflexivity].
Qed.

Lemma insert_bar_above (x : bar) (l : frame) (a : Z) :
  (a <= ts x)%Z -> above false a (map ts l) -> above false a (map ts (insert_bar x l)).
Proof.
  revert a. induction l as [| y l IH]; intros a Ha H; cbn.
  - split; [exact Ha | exact I].
  - cbn in H. destruct H as [H1 H2]. destruct (Z.ltb_spec (ts y) (ts x)); cbn.
    + split; [exact H1 |]. apply IH; [lia | exact H2].
    + split; [exact Ha |]. split; [lia | exact H2].
Qed.

Lemma insert_bar_ordered (x : bar) (l : frame) :
  ordered false (map ts l) -> ordered false (map ts (insert_bar x l)).
Proof.
  destruct l as [| y l]; [trivial |]. cbn [map ordered insert_bar]. intros H.
  destruct (Z.ltb_spec (ts y) (ts x)); cbn [map ordered].
  - apply insert_bar_above; [lia | exact H].
  - split; [lia | exact H].
Qed.

Lemma insert_bar_perm (x : bar) (l : frame) : Permutation (x :: l) (insert_bar x l).
Proof.
  induction l as [| y l IH]; cbn; [reflexivity |].
  destruct (ts y <? ts x)%Z; [| reflexivity].
  rewrite <- IH. apply perm_swap.
Qed.

Lemma sort_fixed (l : frame) : ordered false (map ts l) -> fold_right insert_bar [] l = l.
Proof.
  induction l as [| x l IH]; [reflexivity |]. cbn [map ordered fold_right]. intros H.
  rewrite IH.
  - apply insert_bar_head. exact H.
  - destruct l as [| y l]; [exact I |]. cbn in H |- *. tauto.
Qed.

(** X16.  [_normalize_ohlc_df] returns the rows it is given, each as often as
    before, in non-decreasing index order; a missing frame gives the empty
    frame, and normalizing a normalized frame changes nothing. *)
Theorem X16_normalize_sorts_and_keeps_rows (rows : frame) :
  let out := _normalize_ohlc_df (Some rows) in
  Permutation rows out
  /\ ordered false (map ts out)
  /\ _normalize_ohlc_df (Some out) = out
  /\ _normalize_ohlc_df None = [].
Proof.
  cbv zeta. cbn [_normalize_ohlc_df].
  assert (Hp : Permutation rows (fold_right insert_bar [] rows)).
  { induction rows as [| x rows IH]; cbn; [reflexivity |].
    rewrite <- insert_bar_perm. now constructor. }
  assert (Ho : ordered false (map ts (fold_right insert_bar [] rows))).
  { clear Hp. induction rows as [| x rows IH]; cbn [fold_right]; [exact I |].
    apply insert_bar_ordered, IH. }
  repeat split; [exact Hp | exact Ho | now apply sort_fixed].
Qed.

(** *** Buckets of the resampled frame *)

Lemma agg_last_witness (l : list fval) :
  notna (agg_last l) = true -> exists v, In v l /\ notna v = true.
Proof.
  intros H. destruct (agg_last_notna l H) as (pre & suf & Hl & _).
  exists (agg_last l). split; [| exact H].
  rewrite Hl at 2. apply in_or_app. right. now left.
Qed.

Lemma bucket_has_close (df : frame) (r : rule) (k : Z) :
  notna (Close (agg_row r df k)) = true <->
  exists x, In x df /\ bucket_of r (ts x) = k /\ notna (Close x) = true.
Proof.
  cbn [agg_row Close]. split.
  - intros H. apply agg_last_witness in H as (v & Hv & Hn).
    apply in_map_iff in Hv as (x & <- & Hx). unfold bucket_rows in Hx.
    apply filter_In in Hx as [Hx Hk]. apply Z.eqb_eq in Hk. eauto.
  - intros (x & Hx & Hk & Hn). apply agg_last_present with (v := Close x); [| exact Hn].
    apply in_map. unfold bucket_rows. apply filter_In. split; [exact Hx |].
    now apply Z.eqb_eq.
Qed.

(** X17.  The resampled frame has one row for each bucket in which some row
    of the input has a Close, and no other row; the rows follow the calendar
    order of their buckets, and a bucket without data is left out, not
    filled. *)
Theorem X17_resample_rows_are_the_buckets_with_a_close (df : frame) (r : rule) :
  exists ks : list Z,
    _resample_ohlc df r = map (agg_row r df) ks
    /\ ordered true ks
    /\ forall k, In k ks <->
         exists x, In x df /\ bucket_of r (ts x) = k /\ notna (Close x) = true.
Proof.
  unfold _resample_ohlc, dropna_close.
  destruct (map (fun b => bucket_of r (ts b)) df) as [| k0 ks0] eqn:E.
  - exists []. split; [reflexivity |]. split; [exact I |].
    intros k. split; [intros [] |]. intros (x & Hx & _).
    destruct df; [destruct Hx | discriminate].
  - cbv zeta. set (lo := fold_left Z.min ks0 k0). set (hi := fold_left Z.max ks0 k0).
    exists (List.filter (fun k => notna (Close (agg_row r df k))) (zrange lo hi)).
    split; [apply (filter_map_swap (fun b => notna (Close b)) (agg_row r df)) |].
    split; [apply ordered_filter, ordered_zrange |].
    intros k. rewrite filter_In, bucket_has_close. split; [tauto |].
    intros H. split; [| exact H]. destruct H as (x & Hx & Hk & _).
    apply In_zrange.
    assert (Hin : In k (k0 :: ks0)).
    { rewrite <- E, <- Hk. apply in_map_iff. now exists x. }
    destruct (fold_min_le ks0 k0) as [L1 L2]. destruct (fold_max_ge ks0 k0) as [U1 U2].
    unfold lo, hi. destruct Hin as [<- | Hin]; [lia |].
    split; [now apply L2 | now apply U2].
Qed.

(** A weekly label is the Friday that closes the week of the day. *)
Lemma weekly_label (day : Z) :
  (day <= bucket_end W_FRI (bucket_of W_FRI day) <= day + 6)%Z
  /\ ((bucket_end W_FRI (bucket_of W_FRI day) - 1) mod 7 = 0)%Z.
Proof.
  cbn [bucket_end bucket_of].
  pose proof (Z.div_mod (day + 5) 7 ltac:(lia)) as H.
  pose proof (Z.mod_pos_bound (day + 5) 7 ltac:(lia)) as Hb.
  split; [lia |].
  replace (7 * ((day + 5) / 7) + 1 - 1)%Z with (((day + 5) / 7) * 7)%Z by lia.
  apply Z.mod_mul. lia.
Qed.

(** X18.  Every row of a weekly resampling is labelled with a Friday (day 1
    of the day count was one), and every input row with a Close is covered
    by the row labelled with the first Friday on or after its day. *)
Theorem X18_weekly_rows_are_labelled_by_fridays (df : frame) :
  (forall b, In b (_resample_ohlc df W_FRI) -> ((ts b - 1) mod 7 = 0)%Z)
  /\ forall x, In x df -> notna (Close x) = true ->
       exists b, In b (_resample_ohlc df W_FRI)
                 /\ (ts x <= ts b <= ts x + 6)%Z
                 /\ notna (Close b) = true.
Proof.
  split.
  - intros b Hb. apply resample_row in Hb as (k & -> & _). cbn [agg_row ts bucket_end].
    replace (7 * k + 1 - 1)%Z with (k * 7)%Z by lia. apply Z.mod_mul. lia.
  - intros x Hx Hc. exists (agg_row W_FRI df (bucket_of W_FRI (ts x))).
    split; [now apply resample_keeps_bucket |]. split.
    + change (ts (agg_row W_FRI df (bucket_of W_FRI (ts x))))
        with (bucket_end W_FRI (bucket_of W_FRI (ts x))).
      apply weekly_label.
    + apply bucket_has_close. eauto.
Qed.

Lemma X18_weekly_rows_are_labelled_by_fridays_witness :
  exists b, In b (_resample_ohlc january_partial W_FRI)
            /\ (date 2024 1 15 <= ts b <= date 2024 1 15 + 6)%Z
            /\ notna (Close b) = true.
Proof.
  apply (proj2 (X18_weekly_rows_are_labelled_by_fridays january_partial)
           (flat (date 2024 1 15) 100)).
  - right. right. left. reflexivity.
  - reflexivity.
Defined.

(** *** Provider order *)

Section WithProviders.

Variable safe_history safe_download _fetch_chart_data : interval -> option frame.

Local Abbreviation fetch := (_fetch_interval_history safe_history safe_download _fetch_chart_data).

(** X19.  [_fetch_interval_history] returns the normalized answer of
    [safe_history] whenever it has rows, whatever the other providers hold;
    for intraday and daily intervals the answer is the first non-empty one of
    history, download and chart, and nothing is reconstructed; and an empty
    result means that all three providers had nothing for the interval. *)
Theorem X19_fetch_provider_order (i : interval) :
  (empty (_normalize_ohlc_df (safe_history i)) = false ->
   fetch i = _normalize_ohlc_df (safe_history i))
  /\ (is_weekly_or_monthly i = false ->
      fetch i =
        if negb (empty (_normalize_ohlc_df (safe_history i)))
        then _normalize_ohlc_df (safe_history i)
        else if negb (empty (_normalize_ohlc_df (safe_download i)))
        then _normalize_ohlc_df (safe_download i)
        else _normalize_ohlc_df (_fetch_chart_data i))
  /\ (empty (fetch i) = true ->
      empty (_normalize_ohlc_df (safe_history i)) = true
      /\ empty (_normalize_ohlc_df (safe_download i)) = true
      /\ empty (_normalize_ohlc_df (_fetch_chart_data i)) = true).
Proof.
  unfold _fetch_interval_history. cbv zeta.
  generalize (_normalize_ohlc_df (safe_history i)) as h.
  generalize (_normalize_ohlc_df (safe_download i)) as d.
  generalize (_normalize_ohlc_df (_fetch_chart_data i)) as c.
  generalize (_normalize_ohlc_df (safe_history I_1d)) as h1.
  generalize (_normalize_ohlc_df (safe_download I_1d)) as d1.
  generalize (_normalize_ohlc_df (_fetch_chart_data I_1d)) as c1.
  intros c1 d1 h1 c d h.
  destruct h as [| hx h]; cbn [empty andb negb];
    [| split; [reflexivity |]; split; [reflexivity | discriminate]].
  split; [discriminate |].
  destruct d as [| dx d]; cbn [empty andb negb].
  - destruct (is_weekly_or_monthly i); cbn [empty andb negb];
      [| split; [reflexivity | auto]].
    split; [discriminate |].
    destruct h1 as [| ? h1]; [destruct d1 as [| ? d1]; [destruct c1 as [| ? c1] |] |];
      cbn [empty andb negb]; auto;
      match goal with
      | |- context [empty (_resample_ohlc ?a ?b)] =>
          destruct (_resample_ohlc a b); cbn [empty]; [auto | discriminate]
      end.
  - split; [reflexivity | discriminate].
Qed.

End WithProviders.

Lemma X19_fetch_provider_order_witness :
  _fetch_interval_history (only_daily january_partial) no_data no_data I_1d
  = _normalize_ohlc_df (only_daily january_partial I_1d).
Proof.
  apply (proj1 (X19_fetch_provider_order (only_daily january_partial) no_data no_data I_1d)).
  reflexivity.
Defined.

End ResampleMore.

(** ** Indicator engine: the summary and the warm-up of the Hull average *)

Module TechnicalsMore.
Import Num NumFacts Technicals TechnicalsFacts.

Lemma length_flat_map_const {A B : Type} (g : A -> list B) (k : nat) (l : list A) :
  (forall x, length (g x) = k) -> length (flat_map g l) = (k * length l)%nat.
Proof.
  intros H. induction l as [| x l IH]; cbn [flat_map length]; [lia |].
  rewrite length_app, H, IH. lia.
Qed.

Lemma count_le f (l : list indicator) : (count f l <= length l)%nat.
Proof.
  unfold count. induction l as [| x l IH]; cbn; [lia |].
  destruct (f (vote x)); cbn; lia.
Qed.

Lemma buy_sell_disjoint (l : list indicator) :
  (count is_buy l + count is_sell l <= length l)%nat.
Proof.
  unfold count. induction l as [| x l IH]; cbn; [lia |].
  destruct (vote x); cbn; lia.
Qed.

(** X20.  The summary holds five entries for each lookback among 10, 20,
    50, 100 and 200 that the series is long enough for, and none for the
    others; with fewer than 10 closes it is empty and the signal is Neutral.
    Buy and Sell votes together never exceed the number of entries. *)
Theorem X20_ma_summary_skips_long_lookbacks (close : list Q) :
  length (ma_summary close) = (5 * length (ma_periods close))%nat
  /\ (forall x, In x (ma_summary close) ->
        In (period x) [10; 20; 50; 100; 200]%nat /\ (period x <= length close)%nat)
  /\ ((length close < 10)%nat -> ma_summary close = [] /\ ma_signal close = Neutral)
  /\ (ma_buy_count close + ma_sell_count close <= length (ma_summary close))%nat.
Proof.
  split; [| split; [| split]].
  - unfold ma_summary. rewrite length_app.
    rewrite (length_flat_map_const _ 2), (length_flat_map_const _ 3); [lia | |];
      reflexivity.
  - intros x Hx. unfold ma_summary in Hx.
    assert (Hp : In (period x) (ma_periods close)).
    { apply in_app_or in Hx as [Hx | Hx]; apply in_flat_map in Hx as (p & Hp & Hx);
        cbn in Hx; intuition (subst; exact Hp). }
    unfold ma_periods in Hp. apply filter_In in Hp as [H1 H2].
    apply Nat.leb_le in H2. tauto.
  - intros Hlt.
    assert (E : ma_periods close = []).
    { unfold ma_periods. cbn [List.filter].
      repeat match goal with
             | |- context [(?p <=? length close)%nat] =>
                 replace (p <=? length close)%nat with false
                   by (symmetry; apply Nat.leb_gt; lia)
             end.
      reflexivity. }
    assert (E' : ma_summary close = []) by (unfold ma_summary; now rewrite E).
    split; [exact E' |].
    unfold ma_signal, ma_buy_count, ma_sell_count. now rewrite E'.
  - apply buy_sell_disjoint.
Qed.

Lemma X20_ma_summary_skips_long_lookbacks_witness :
  ma_summary (ramp 0 9) = [] /\ ma_signal (ramp 0 9) = Neutral.
Proof.
  apply (proj1 (proj2 (proj2 (X20_ma_summary_skips_long_lookbacks (ramp 0 9))))).
  cbn. lia.
Defined.

(** *** Positions of a rolling computation *)

Lemma length_rolling_apply (w : nat) (f : list Q -> Q) (l : series) :
  length (rolling_apply w f l) = length l.
Proof. unfold rolling_apply. now rewrite length_map, length_seq. Qed.

Lemma lookup_map {A B : Type} (f : A -> B) (l : list A) (t : nat) :
  map f l !! t = option_map f (l !! t).
Proof.
  revert t. induction l as [| x l IH]; intros [| t]; cbn; try reflexivity. apply IH.
Qed.

Lemma rolling_lookup (w : nat) (f : list Q -> Q) (l : series) (t : nat) :
  (t < length l)%nat -> rolling_apply w f l !! t = Some (option_map f (window w l t)).
Proof.
  intros H. unfold rolling_apply, series. rewrite lookup_map.
  rewrite lookup_seq_lt by exact H. reflexivity.
Qed.

Lemma iloc_last_rolling_apply (w : nat) (f : list Q -> Q) (l : series) :
  iloc_last (rolling_apply w f l)
  = match length l with
    | O => None
    | S m => option_map f (window w l m)
    end.
Proof.
  unfold iloc_last, rolling_apply. destruct (length l) as [| m]; [reflexivity |].
  rewrite seq_S, map_app. cbn [map]. now rewrite last_last.
Qed.

Lemma window_short (w : nat) (l : series) (t : nat) : (t + 1 < w)%nat -> window w l t = None.
Proof.
  intros H. unfold window.
  now replace (w <=? t + 1)%nat with false by (symmetry; apply Nat.leb_gt; lia).
Qed.

Lemma window_full (w : nat) (c : list Q) (t : nat) :
  (w <= t + 1)%nat -> exists xs, window w (map Some c) t = Some xs.
Proof.
  intros H. unfold window.
  replace (w <=? t + 1)%nat with true by (symmetry; apply Nat.leb_le; lia).
  rewrite skipn_map, firstn_map, all_some_map_Some. eauto.
Qed.

Lemma all_some_None (l : list (option Q)) (k : nat) : l !! k = Some None -> all_some l = None.
Proof.
  revert k. induction l as [| [x |] l IH]; intros k H; [discriminate | | reflexivity].
  destruct k as [| k]; [discriminate |]. cbn. now rewrite (IH k H).
Qed.

Lemma all_some_Some (l : list (option Q)) :
  (forall k o, l !! k = Some o -> o <> None) -> exists xs, all_some l = Some xs.
Proof.
  induction l as [| [x |] l IH]; intros H; [cbn; eauto | |].
  - destruct IH as [xs E]; [intros k o Hk; apply (H (S k) o Hk) |].
    cbn. rewrite E. cbn. eauto.
  - now destruct (H 0%nat None eq_refl).
Qed.

Lemma lookup_combine {A B : Type} (a : list A) (b : list B) (t : nat) (x : A) (y : B) :
  a !! t = Some x -> b !! t = Some y -> combine a b !! t = Some (x, y).
Proof.
  revert b t. induction a as [| u a IH]; intros [| v b] [| t]; cbn; try discriminate.
  - now intros [= ->] [= ->].
  - apply IH.
Qed.

Section Hull.

Variable close : list Q.
Variable p : nat.

(** The series [2 * wma_half - wma_full] that the Hull average smooths. *)
Local Abbreviation diff :=
  (map (fun ab : option Q * option Q => lift2 (fun a b => 2 * a - b) (fst ab) (snd ab))
       (combine (rolling_wma (p / 2) (close_series close))
                (rolling_wma p (close_series close)))).

Lemma length_diff : length diff = length close.
Proof.
  rewrite length_map, length_combine. unfold rolling_wma.
  rewrite !length_rolling_apply. unfold close_series. rewrite length_map. lia.
Qed.

Lemma diff_lookup (t : nat) :
  (t < length close)%nat ->
  diff !! t
  = Some (lift2 (fun a b => 2 * a - b)
            (option_map (weighted (p / 2)) (window (p / 2) (close_series close) t))
            (option_map (weighted p) (window p (close_series close) t))).
Proof.
  intros H. rewrite lookup_map.
  rewrite (lookup_combine _ _ t
             (option_map (weighted (p / 2)) (window (p / 2) (close_series close) t))
             (option_map (weighted p) (window p (close_series close) t)));
    [reflexivity | |]; apply rolling_lookup; unfold close_series; now rewrite length_map.
Qed.

Lemma diff_early (t : nat) : (t < length close)%nat -> (t + 1 < p)%nat -> diff !! t = Some None.
Proof.
  intros H1 H2. rewrite diff_lookup by exact H1. rewrite (window_short p) by exact H2.
  cbn. now destruct (option_map _ _).
Qed.

Lemma diff_late (t : nat) (o : option Q) :
  (2 <= p)%nat -> (p <= t + 1)%nat -> diff !! t = Some o -> o <> None.
Proof.
  intros Hp H2 H.
  assert (Ht : (t < length close)%nat).
  { apply lookup_lt_Some in H. now rewrite length_diff in H. }
  rewrite diff_lookup in H by exact Ht.
  assert (Hh : (p / 2 <= p)%nat) by (apply Nat.Div0.div_le_upper_bound; lia).
  unfold close_series in H.
  destruct (window_full (p / 2) close t ltac:(lia)) as [xs Ex]. rewrite Ex in H.
  destruct (window_full p close t H2) as [ys Ey]. rewrite Ey in H.
  cbn [option_map lift2] in H. intros ->. discriminate H.
Qed.

(** X21.  The Hull average at lookback [p] takes [p + isqrt(p) - 1] closes
    to warm up: on a shorter series (even one of [p] closes or more, which
    the summary admits) it is NaN and votes Neutral, and from that length on
    it is a number. *)
Theorem X21_hma_warm_up :
  (2 <= p)%nat ->
  ((length close < p + Nat.sqrt p - 1)%nat ->
   hma close p = None /\ vote (entry close HMA p (hma close p)) = Neutral)
  /\ ((p + Nat.sqrt p - 1 <= length close)%nat -> exists v, hma close p = Some v).
Proof.
  intros Hp.
  assert (Hs : (1 <= Nat.sqrt p)%nat).
  { change 1%nat with (Nat.sqrt 1). apply Nat.sqrt_le_mono. lia. }
  assert (E : hma close p
              = match length close with
                | O => None
                | S m => option_map mean (window (Nat.sqrt p) diff m)
                end).
  { unfold hma. cbv zeta. unfold rolling_mean.
    rewrite iloc_last_rolling_apply, length_diff. reflexivity. }
  split.
  - intros Hlt.
    assert (Hn : hma close p = None).
    { rewrite E. destruct (length close) as [| m] eqn:En; [reflexivity |].
      unfold window. destruct (Nat.leb_spec (Nat.sqrt p) (m + 1)) as [Hle |]; [| reflexivity].
      rewrite (all_some_None _ 0%nat); [reflexivity |].
      rewrite lookup_take_lt by lia. rewrite lookup_drop.
      apply diff_early; lia. }
    split; [exact Hn |]. cbn [entry vote]. now rewrite Hn.
  - intros Hge. rewrite E. destruct (length close) as [| m] eqn:En; [lia |].
    unfold window. destruct (Nat.leb_spec (Nat.sqrt p) (m + 1)) as [Hle | Hgt]; [| lia].
    destruct (all_some_Some (firstn (Nat.sqrt p) (skipn (m + 1 - Nat.sqrt p) diff)))
      as [xs ->]; [| cbn; eauto].
    intros k o Hk.
    assert (Hks : (k < Nat.sqrt p)%nat).
    { apply lookup_lt_Some in Hk. rewrite length_take in Hk. lia. }
    rewrite lookup_take_lt in Hk by exact Hks. rewrite lookup_drop in Hk.
    apply (diff_late _ _ Hp) in Hk; [exact Hk | lia].
Qed.

End Hull.

Lemma X21_hma_warm_up_witness :
  hma (ramp 0 11) 10 = None
  /\ vote (entry (ramp 0 11) HMA 10 (hma (ramp 0 11) 10)) = Neutral.
Proof.
  apply (proj1 (X21_hma_warm_up (ramp 0 11) 10 ltac:(lia))).
  apply Nat.ltb_lt. reflexivity.
Defined.

End TechnicalsMore.

(** ** Accounts *)

Module AccountsFacts.
Import Ticker TickerFacts Shapes TickerMore Accounts.

(** *** User names *)

Lemma username_char_facts (c : ascii) :
  username_char c = true ->
  is_space c = false /\ lower_char c = c /\ Ascii.eqb c "@" = false.
Proof. by_ascii c. Qed.

Lemma lower_char_idem (c : ascii) : lower_char (lower_char c) = lower_char c.
Proof. by_ascii c. Qed.

Lemma lower_char_space (c : ascii) : is_space (lower_char c) = is_space c.
Proof. by_ascii c. Qed.

Lemma Forall_drop_while (P : ascii -> Prop) (f : ascii -> bool) (t : str) :
  Forall P t -> Forall P (drop_while f t).
Proof.
  induction 1 as [| c t Hc Ht IH]; cbn; [constructor |].
  destruct (f c); [exact IH | now constructor].
Qed.

Lemma drop_while_head (f : ascii -> bool) (t : str) :
  match drop_while f t with [] => True | c :: _ => f c = false end.
Proof.
  induction t as [| c t IH]; cbn; [exact I |].
  destruct (f c) eqn:E; [exact IH | exact E].
Qed.

Lemma plain_head_ok (t : str) : Forall (fun c => is_space c = false) t -> head_ok t.
Proof. intros H. destruct t; [exact I |]. now inversion H. Qed.

Lemma filter_all {A : Type} (f : A -> bool) (l : list A) :
  Forall (fun x => f x = true) l -> List.filter f l = l.
Proof.
  induction 1 as [| x l Hx _ IH]; cbn; [reflexivity |]. now rewrite Hx, IH.
Qed.

Lemma normalize_plain (value : option str) : plain_name (_normalize_username value).
Proof.
  unfold _normalize_username. cbv zeta.
  set (t := strip (or_empty value)). split; [| split].
  - apply Forall_drop_while. apply List.Forall_forall. intros c Hc.
    unfold remove_whitespace in Hc. apply filter_In in Hc as [_ Hc].
    now apply negb_true_iff in Hc.
  - apply Forall_drop_while. apply List.Forall_forall. intros c Hc.
    unfold remove_whitespace in Hc. apply filter_In in Hc as [Hc _].
    unfold lower in Hc. apply in_map_iff in Hc as (c0 & <- & _). apply lower_char_idem.
  - apply (drop_while_head (fun c => Ascii.eqb c "@")).
Qed.

Lemma plain_fixed (t : str) : plain_name t -> _normalize_username (Some t) = t.
Proof.
  intros (H1 & H2 & H3). unfold _normalize_username. cbv zeta. cbn [or_empty].
  rewrite strip_canonical_id.
  - assert (E : lower t = t).
    { unfold lower. rewrite <- (map_id t) at 2. apply map_ext_in.
      intros c Hc. rewrite List.Forall_forall in H2. now apply H2. }
    rewrite E. unfold remove_whitespace. rewrite filter_all.
    + apply drop_while_id. exact H3.
    + eapply List.Forall_impl; [| exact H1]. cbn. now intros c ->.
  - now apply plain_head_ok.
  - apply plain_head_ok. apply List.Forall_forall. intros c Hc. apply in_rev in Hc.
    rewrite List.Forall_forall in H1. now apply H1.
Qed.

(** X22.  A normalized user name holds no white space and no capital letter
    and does not start with an at sign; normalizing it again changes nothing,
    and a name that passes [_is_valid_username] is stored as it was typed.
    A valid name has between 3 and 30 characters. *)
Theorem X22_username_normal_form (value : option str) (u : str) :
  plain_name (_normalize_username value)
  /\ _normalize_username (Some (_normalize_username value)) = _normalize_username value
  /\ (_is_valid_username (Some u) = true ->
      _normalize_username (Some u) = u /\ (3 <= length u <= 30)%nat).
Proof.
  split; [apply normalize_plain |]. split; [apply plain_fixed, normalize_plain |].
  unfold _is_valid_username. cbv zeta. cbn [or_empty]. intros H.
  apply andb_true_iff in H as [H H30]. apply andb_true_iff in H as [Hc H3].
  apply Nat.leb_le in H3, H30. split; [| lia].
  apply plain_fixed. rewrite forallb_forall in Hc.
  split; [| split].
  - apply List.Forall_forall. intros c Hin. apply username_char_facts. now apply Hc.
  - apply List.Forall_forall. intros c Hin. apply username_char_facts. now apply Hc.
  - destruct u as [| c u]; [exact I |]. apply username_char_facts. apply Hc. now left.
Qed.

Lemma X22_username_normal_form_witness :
  _normalize_username (Some (s "mario.rossi")) = s "mario.rossi"
  /\ (3 <= length (s "mario.rossi") <= 30)%nat.
Proof.
  apply (proj2 (proj2 (X22_username_normal_form None (s "mario.rossi")))).
  reflexivity.
Defined.

(** *** Watchlists *)

Local Abbreviation step := (fun (out : list str) (item : str) => add_candidate out (clean_symbol item)).

Lemma mem_ext (t : str) (a b : list str) :
  (forall c, In c a <-> In c b) -> mem t a = mem t b.
Proof.
  intros H. destruct (mem t a) eqn:Ea, (mem t b) eqn:Eb; try reflexivity.
  - apply mem_In in Ea. apply H in Ea. apply mem_In in Ea. congruence.
  - apply mem_In in Eb. apply H in Eb. apply mem_In in Eb. congruence.
Qed.

Lemma same_members_snoc (t : str) (out seen : list str) :
  (forall c, In c seen <-> In c out) ->
  forall c, In c (t :: seen) <-> In c (out ++ [t]).
Proof.
  intros H c. rewrite in_app_iff. cbn [In]. rewrite H. tauto.
Qed.

(** The set [seen] mirrors the list [out]: the loop is a fold of
    [add_candidate]. *)
Lemma watchlist_loop_fold (items out seen : list str) :
  (forall c, In c seen <-> In c out) ->
  watchlist_loop items out seen = fold_left step items out.
Proof.
  revert out seen. induction items as [| item tl IH]; intros out seen H; [reflexivity |].
  cbn [watchlist_loop fold_left]. cbv zeta. unfold add_candidate.
  rewrite (mem_ext _ seen out H).
  destruct (nonempty (clean_symbol item)); cbn [negb orb andb]; [| now apply IH].
  destruct (mem (clean_symbol item) out); cbn [negb]; [now apply IH |].
  apply IH. now apply same_members_snoc.
Qed.

Lemma fold_step_spec (items out : list str) :
  List.NoDup out -> (forall c, In c out -> c <> []) ->
  let res := fold_left step items out in
  List.NoDup res
  /\ (forall c, In c res -> c <> [])
  /\ (exists ext, res = out ++ ext)
  /\ (forall c, In c res <->
        In c out \/ (c <> [] /\ exists item, In item items /\ clean_symbol item = c)).
Proof.
  revert out. induction items as [| item tl IH]; intros out ND NE; cbn [fold_left].
  - repeat split; auto.
    + exists []. now rewrite app_nil_r.
    + intros [H | (_ & i & [] & _)]; exact H.
  - destruct (add_candidate_spec out (clean_symbol item) ND NE)
      as (ND' & NE' & Hkeep & Hadd & _ & Hfrom & _).
    destruct (IH _ ND' NE') as (R1 & R2 & (ext & R3) & R4).
    split; [exact R1 |]. split; [exact R2 |]. split.
    + unfold add_candidate in R3 |- *.
      destruct (nonempty (clean_symbol item) && negb (mem (clean_symbol item) out)).
      * exists ([clean_symbol item] ++ ext). now rewrite app_assoc.
      * now exists ext.
    + intros c. rewrite R4. split.
      * intros [H | (Hc & i & Hi & E)].
        -- destruct (Hfrom c H) as [H' | ->]; [now left |]. right.
           split; [apply NE', H |]. exists item. split; [now left | reflexivity].
        -- right. split; [exact Hc |]. exists i. split; [now right | exact E].
      * intros [H | (Hc & i & [<- | Hi] & E)].
        -- left. now apply Hkeep.
        -- left. rewrite <- E in Hc |- *. apply Hadd. exact Hc.
        -- right. split; [exact Hc |]. eauto.
Qed.

Lemma fold_step_fixed (l out : list str) :
  List.NoDup (out ++ l) -> (forall c, In c l -> c <> [] /\ canonical c) ->
  fold_left step l out = out ++ l.
Proof.
  revert out. induction l as [| x l IH]; intros out ND H; cbn [fold_left].
  - now rewrite app_nil_r.
  - destruct (H x (or_introl eq_refl)) as [Hx Hc].
    unfold clean_symbol. rewrite (clean_id x Hc).
    assert (Hn : ~ In x out).
    { apply NoDup_remove_2 in ND. intros Hin. apply ND. apply in_or_app. now left. }
    unfold add_candidate.
    replace (nonempty x) with true by (symmetry; now apply nonempty_true).
    replace (mem x out) with false.
    2:{ destruct (mem x out) eqn:E; [| reflexivity]. apply mem_In in E. tauto. }
    cbn [andb negb]. rewrite IH.
    + now rewrite <- app_assoc.
    + now rewrite <- app_assoc.
    + intros c Hin. apply H. now right.
Qed.

Lemma fold_step_canonical (items out : list str) (c : str) :
  (forall c, In c out -> canonical c) ->
  In c (fold_left step items out) -> canonical c.
Proof.
  revert out. induction items as [| item tl IH]; intros out H; cbn [fold_left]; [apply H |].
  apply IH. intros x Hx. unfold add_candidate in Hx.
  destruct (nonempty (clean_symbol item) && negb (mem (clean_symbol item) out));
    [| now apply H].
  apply in_app_or in Hx as [Hx | [<- | []]]; [now apply H | apply clean_canonical].
Qed.

(** X23.  The normalized watchlist lists every non-empty cleaned symbol of
    the input once, and nothing else; its entries are stripped, upper-case
    and free of blanks, and normalizing it again returns it unchanged. *)
Theorem X23_watchlist_normal_form (items : list str) :
  let out := _normalize_watchlist_items items in
  List.NoDup out
  /\ (forall c, In c out <->
        c <> [] /\ exists item, In item items /\ clean_symbol item = c)
  /\ (forall c, In c out -> clean_symbol c = c)
  /\ _normalize_watchlist_items out = out.
Proof.
  cbv zeta. unfold _normalize_watchlist_items.
  rewrite !watchlist_loop_fold by (intros c; reflexivity).
  destruct (fold_step_spec items [] (List.NoDup_nil _) ltac:(intros c []))
    as (R1 & R2 & _ & R4).
  split; [exact R1 |]. split; [| split].
  - intros c. rewrite R4. cbn [In]. tauto.
  - intros c Hc. apply clean_id. apply (fold_step_canonical items [] c); [intros ? [] | exact Hc].
  - rewrite fold_step_fixed; [reflexivity | exact R1 |].
    intros c Hc. split; [now apply R2 |].
    apply (fold_step_canonical items [] c); [intros ? [] | exact Hc].
Qed.

(** *** Shared tickers *)

Lemma social_loop_take (limit : Z) (items out seen : list str) :
  (forall c, In c seen <-> In c out) ->
  List.NoDup out -> (forall c, In c out -> c <> []) ->
  (length out < Z.to_nat (Z.max 1 limit))%nat ->
  social_loop limit items out seen
  = firstn (Z.to_nat (Z.max 1 limit)) (fold_left step items out).
Proof.
  revert out seen. induction items as [| item tl IH]; intros out seen H ND NE Hlen.
  - cbn. symmetry. apply firstn_all2. lia.
  - cbn [social_loop fold_left]. cbv zeta. cbn beta.
    destruct (add_candidate_spec out (clean_symbol item) ND NE) as (ND' & NE' & _).
    rewrite (mem_ext _ seen out H).
    assert (Ha : add_candidate out (clean_symbol item)
                 = if nonempty (clean_symbol item) && negb (mem (clean_symbol item) out)
                   then out ++ [clean_symbol item] else out) by reflexivity.
    destruct (nonempty (clean_symbol item)); cbn [negb orb andb] in Ha |- *;
      [| rewrite Ha; now apply IH].
    destruct (mem (clean_symbol item) out); cbn [negb] in Ha |- *;
      [rewrite Ha; now apply IH |].
    rewrite Ha in *. clear Ha.
    destruct (Z.leb_spec limit (Z.of_nat (length (out ++ [clean_symbol item])))) as [Hb | Hb].
    + destruct (fold_step_spec tl _ ND' NE') as (_ & _ & (ext & ->) & _).
      rewrite length_app in Hb. cbn [length] in Hb.
      assert (El : length (out ++ [clean_symbol item]) = Z.to_nat (Z.max 1 limit)).
      { rewrite length_app. cbn [length]. lia. }
      rewrite <- El. rewrite firstn_app, firstn_all, Nat.sub_diag. cbn [firstn].
      now rewrite app_nil_r.
    + apply IH; try assumption.
      * now apply same_members_snoc.
      * rewrite length_app in Hb |- *. cbn [length] in Hb |- *. lia.
Qed.

(** X24.  The shared tickers are the first [limit] entries of the normalized
    watchlist of the same items; the limit is tested only after an append, so
    a limit of zero or less still lets one ticker through. *)
Theorem X24_social_tickers_prefix_of_watchlist (items : list str) (limit : Z) :
  _normalize_social_tickers items limit
  = firstn (Z.to_nat (Z.max 1 limit)) (_normalize_watchlist_items items)
  /\ (length (_normalize_social_tickers items limit) <= Z.to_nat (Z.max 1 limit))%nat.
Proof.
  assert (E : _normalize_social_tickers items limit
              = firstn (Z.to_nat (Z.max 1 limit)) (_normalize_watchlist_items items)).
  { unfold _normalize_social_tickers, _normalize_watchlist_items.
    rewrite watchlist_loop_fold by (intros c; reflexivity).
    apply social_loop_take.
    - intros c. reflexivity.
    - constructor.
    - intros c [].
    - cbn [length]. lia. }
  split; [exact E |]. rewrite E. apply firstn_le_length.
Qed.

Example social_limit_zero :
  _normalize_social_tickers [s " eni "; s "isp"] 0 = [s "ENI"].
Proof. vm_compute. reflexivity. Qed.

End AccountsFacts.

(** ** Binary64 arithmetic *)

Module F64Facts.
Import PrimFloat FloatOps FloatAxioms SpecFloat.
Import Num F64.

#[local] Set Warnings "-inexact-float".
Local Open Scope float_scope.

Example exact_quarter : exact (-18.75) = Some (- (75 # 4))%Q.
Proof. vm_compute. reflexivity. Qed.

Example round2_examples :
  round2 1.075 = 1.07 /\ round2 1.0049999999999999 = 1.0 /\ round2 100.5 = 100.5
  /\ round2 0.125 = 0.12 /\ round2 (-0.001) = neg_zero.
Proof. vm_compute. repeat split; reflexivity. Qed.

Lemma ltb_leb (x y : float) : (x <? y) = true -> (x <=? y) = true.
Proof.
  rewrite ltb_spec, leb_spec. unfold SFltb, SFleb.
  now destruct (SFcompare (Prim2SF x) (Prim2SF y)) as [[] |].
Qed.

End F64Facts.

(** ** Risk composite in doubles *)

Module Risk64Facts.
Import PrimFloat.
Import Num F64 F64Facts Risk64.

#[local] Set Warnings "-inexact-float".
Local Open Scope float_scope.

(** The clamp lands in the unit interval, whatever it is given (a NaN is
    clamped to 1). *)
Lemma _clamp01_unit (v : float) : unit_interval (_clamp01 v).
Proof.
  unfold _clamp01, pymin, pymax, unit_interval.
  destruct (v <? 1) eqn:E1.
  - destruct (0 <? v) eqn:E0.
    + split; now apply ltb_leb.
    + split; reflexivity.
  - split; reflexivity.
Qed.

Example risk_index_half : risk_index (fun x => x) (vol_and_drawdown 27.5 (-22.5)) = Index 50.
Proof. vm_compute. reflexivity. Qed.

(** C1, as stated, fails on ties.  With volatility 15.0 and drawdown -18.75
    the sub-scores are 0 and 0.35 and the formula is worth 17.5, which rounds
    to 18, while the program's doubles give 17.499999999999996 and the index
    17.  With volatility 15.25 and drawdown -12.0 the formula evaluated in
    doubles as it is written gives 4.5 and rounds to 4, while the program's
    order of operations gives 4.500000000000001 and the index 5. *)
Lemma C1_counterexample_double_rounding :
  (exact 15 = Some 15%Q /\ exact (-18.75) = Some (- (75 # 4))%Q
   /\ risk_index (fun x => x) (vol_and_drawdown 15 (-18.75)) = Index 17
   /\ Risk.risk_index (fun x => x) (vol_and_drawdown_exact 15 (- (75 # 4))) = Some 18%Z)
  /\ (risk_index (fun x => x) (vol_and_drawdown 15.25 (-12)) = Index 5
      /\ let volScore := _clamp01 ((15.25 - 15) / 25) in
         let ddScore := _clamp01 ((abs (-12) - 10) / 25) in
         round_float (100 * (0.20 * volScore + 0.20 * ddScore) / 0.40) = Some 4%Z).
Proof. vm_compute. repeat split; reflexivity. Qed.

(** C1, amended.  When the volatility and drawdown sub-scores are the only
    ones present, the risk index is the rounding of
    [((0.20*volScore + 0.20*ddScore) / 0.40) * 100] evaluated in doubles in
    this order (the sums start from 0), each sub-score being the linear clamp
    of its metric to [0,1]; when no sub-score is present the index is
    [None]. *)
Theorem C1_risk_index_vol_drawdown (log10 : float -> float) (r : inputs) :
  vol30_score r = None ->
  beta_score r = None ->
  sharpe_score r = None ->
  sortino_score r = None ->
  liquidity_score log10 r = None ->
  size_score log10 r = None ->
  regime_score r = None ->
  (forall v d : float,
      volatility r = Some v -> maxDrawdown1Y r = Some d ->
      let volScore := pymax 0 (pymin 1 ((v - 15) / 25)) in
      let ddScore := pymax 0 (pymin 1 ((abs d - 10) / 25)) in
      unit_interval volScore /\ unit_interval ddScore /\
      risk_index log10 r
      = match round_float (((0 + volScore * 0.20 + ddScore * 0.20) / 0.40) * 100) with
        | Some i => Index i
        | None => RoundError
        end)
  /\ (volatility r = None -> maxDrawdown1Y r = None -> risk_index log10 r = Null).
Proof.
  intros H30 Hb Hsh Hso Hl Hsz Hrg. split.
  - intros v d Hv Hd volScore ddScore.
    split; [apply _clamp01_unit |]. split; [apply _clamp01_unit |].
    unfold risk_index, parts_all.
    rewrite H30, Hb, Hsh, Hso, Hl, Hsz, Hrg.
    unfold vol_score, dd_score, vol1y, drawdown, _to_num. rewrite Hv, Hd.
    reflexivity.
  - intros Hv Hd.
    unfold risk_index, parts_all.
    rewrite H30, Hb, Hsh, Hso, Hl, Hsz, Hrg.
    unfold vol_score, dd_score, vol1y, drawdown, _to_num. rewrite Hv, Hd.
    reflexivity.
Qed.

Lemma C1_risk_index_vol_drawdown_witness :
  risk_index (fun x => x) (vol_and_drawdown 27.5 (-22.5)) = Index 50
  /\ risk_index (fun x => x) no_metric = Null.
Proof.
  split.
  - destruct (C1_risk_index_vol_drawdown (fun x => x) (vol_and_drawdown 27.5 (-22.5))
                eq_refl eq_refl eq_refl eq_refl eq_refl eq_refl eq_refl) as [H _].
    destruct (H 27.5 (-22.5) eq_refl eq_refl) as (_ & _ & E).
    rewrite E. vm_compute. reflexivity.
  - destruct (C1_risk_index_vol_drawdown (fun x => x) no_metric
                eq_refl eq_refl eq_refl eq_refl eq_refl eq_refl eq_refl) as [_ H].
    apply H; reflexivity.
Defined.

End Risk64Facts.

(** ** Zone merging in doubles *)

Module Zones64Facts.
Import PrimFloat.
Import Num F64 F64Facts Zones64.

#[local] Set Warnings "-inexact-float".
Local Open Scope float_scope.

Lemma merge_loop_pair (pct : float) (a b : zone) :
  (abs (price b - price a) <=? price a * (pct / 100)) = true ->
  merge_loop pct [] a [b] = [merged_zone a b].
Proof. intros H. cbn [merge_loop]. rewrite H. reflexivity. Qed.

Example merge_example :
  merge_list 2 [z 101 100 102; z 100 99 101] = [z 100.5 99 102].
Proof. vm_compute. reflexivity. Qed.

(** Prices 1.00 and 1.15: the mean of the two doubles lies just below 1.075
    and is stored as 1.07. *)
Example merge_below_the_tie :
  merge_list 20 [z 1 1 1; z 1.15 1.15 1.15] = [z 1.07 1 1.15].
Proof. vm_compute. reflexivity. Qed.

(** Prices 1.00 and 1.02 at 2%: the difference of the doubles,
    0.020000000000000018, exceeds 0.02 and the zones stay apart. *)
Example no_merge_at_the_limit :
  merge_list 2 [z 1 1 1; z 1.02 1.02 1.02] = [z 1 1 1; z 1.02 1.02 1.02].
Proof. vm_compute. reflexivity. Qed.

Example no_merge_without_gap :
  merge_close_zones {| support := [z 1 1 1; z 1 1 1]; resistance := [] |} 0
  = {| support := [z 1 1 1; z 1 1 1]; resistance := [] |}.
Proof. vm_compute. reflexivity. Qed.

(** C7, as stated, fails: zones priced 1.00 and 1.01 with a 2% gap are
    merged into one zone priced 1.00, which is neither the mean of the two
    doubles, 1.0049999999999999, nor the mean of their exact values. *)
Lemma C7_counterexample_rounded_mean :
  let a := z 1 0.99 1.01 in
  let b := z 1.01 1 1.02 in
  (abs (price b - price a) <=? price a * (2 / 100)) = true
  /\ support (merge_close_zones {| support := [a; b]; resistance := [] |} 2)
     = [z 1 0.99 1.02]
  /\ ((price a + price b) / 2 =? 1) = false
  /\ (exists pa pb, exact (price a) = Some pa /\ exact (price b) = Some pb
                    /\ exact 1 = Some 1%Q /\ ~ (1 == (pa + pb) / 2)%Q).
Proof.
  cbv zeta. split; [reflexivity |]. split; [vm_compute; reflexivity |].
  split; [reflexivity |].
  eexists. eexists. split; [vm_compute; reflexivity |].
  split; [vm_compute; reflexivity |]. split; [reflexivity |].
  vm_compute. discriminate.
Qed.

(** C7, amended.  With a gap percentage that is not 0 or less, two zones of
    one side whose prices, the lower one first, pass the gap test of the code
    ([abs(hi - lo) <= lo * (pct / 100)] in doubles) are merged into exactly
    one zone: its bounds are the smaller lower bound and the larger upper
    bound, and its price the mean [(lo + hi) / 2] computed in doubles, each
    of the three rounded to 2 decimals. *)
Theorem C7_merge_two_close_zones (a b : zone) (other : list zone) (pct : float) :
  (pct <=? 0) = false ->
  let lo := if price b <? price a then b else a in
  let hi := if price b <? price a then a else b in
  (abs (price hi - price lo) <=? price lo * (pct / 100)) = true ->
  let m := {| price := round2 ((price lo + price hi) / 2);
              zmin := round2 (pymin (zmin lo) (zmin hi));
              zmax := round2 (pymax (zmax lo) (zmax hi)) |} in
  merge_list pct [a; b] = [m]
  /\ support (merge_close_zones {| support := [a; b]; resistance := other |} pct) = [m]
  /\ resistance (merge_close_zones {| support := other; resistance := [a; b] |} pct) = [m].
Proof.
  intros Hpct lo hi Hgap m.
  assert (Hm : merge_list pct [a; b] = [m]).
  { unfold merge_list, sorted_by_price. cbn [fold_right insert_by_price].
    subst lo hi m. destruct (price b <? price a); now rewrite merge_loop_pair. }
  split; [exact Hm |].
  split; unfold merge_close_zones; rewrite Hpct; exact Hm.
Qed.

Lemma C7_merge_two_close_zones_witness :
  merge_list 2 [z 101 100 102; z 100 99 101] = [z 100.5 99 102].
Proof.
  destruct (C7_merge_two_close_zones (z 101 100 102) (z 100 99 101) [] 2
              eq_refl eq_refl) as [H _].
  rewrite H. vm_compute. reflexivity.
Defined.

End Zones64Facts.

(** ** Compounding in doubles *)

Module Seasonality64Facts.
Import PrimFloat.
Import Num F64 F64Facts Seasonality Seasonality64.

#[local] Set Warnings "-inexact-float".
Local Open Scope float_scope.

(** Monthly returns of -3.0 and -2.5: the running return in doubles is worth
    -5.425000000000002 percent and is stored as -5.43. *)
Example compounding_in_doubles :
  cumulative_curve_of [Some (-3); Some (-2.5)] = [Some (-3); Some (-5.43)].
Proof. vm_compute. reflexivity. Qed.

Lemma cumulative_from_nulls (cum : float) (m : list (option float)) :
  map is_some (cumulative_from cum m) = map is_some m.
Proof.
  revert cum. induction m as [| [v |] m IH]; intros cum; cbn; [reflexivity | |];
    now rewrite IH.
Qed.

Lemma cumulative_from_lookup (m : list (option float)) (cum : float) (i : nat) (v : float) :
  m !! i = Some (Some v) ->
  cumulative_from cum m !! i
  = Some (Some (round2 (compound cum (populated (take (S i) m)) * 100))).
Proof.
  revert cum i. induction m as [| [x |] m IH]; intros cum i H; [discriminate | |].
  - destruct i as [| i].
    + cbn. rewrite take_0. reflexivity.
    + cbn [cumulative_from]. cbn [lookup list_lookup] in H |- *.
      change (take (S (S i)) (Some x :: m)) with (Some x :: take (S i) m).
      cbn [populated]. rewrite (IH _ _ H). reflexivity.
  - destruct i as [| i]; [discriminate |].
    cbn [cumulative_from]. cbn [lookup list_lookup] in H |- *.
    change (take (S (S i)) (None :: m)) with (None :: take (S i) m).
    cbn [populated]. apply (IH _ _ H).
Qed.

(** X13.  The cumulative curve has a null exactly where the monthly curve
    has one, and at a populated month it holds the return compounded in
    doubles over the populated months up to it, in month order (nulls are
    skipped, they do not reset the running return), in percent, rounded to
    two decimals. *)
Theorem X13_cumulative_curve_skips_nulls (m : list (option float)) :
  length (cumulative_curve_of m) = length m
  /\ map is_some (cumulative_curve_of m) = map is_some m
  /\ forall (i : nat) (v : float),
       m !! i = Some (Some v) ->
       cumulative_curve_of m !! i
       = Some (Some (round2 (compound 0 (populated (take (S i) m)) * 100))).
Proof.
  split; [| split].
  - pose proof (f_equal (@length bool) (cumulative_from_nulls 0 m)) as H.
    now rewrite !length_map in H.
  - apply cumulative_from_nulls.
  - intros i v H. apply (cumulative_from_lookup _ _ _ _ H).
Qed.

End Seasonality64Facts.
